(** * vbh-tracker: the price pipeline, embedded and verified

    A shallow embedding of the data pipeline of the tracker:
    - [scripts/update-data.mjs]: [parsePriceFromHtml], [fxRate],
      [getWaybackAllSnapshots], [loadSupplementaryPoints],
      [spreadSupplementaryDates], [buildSeries], [main];
    - [scripts/fetch-marketplace.mjs] (both revisions): [parseGrailedPrices],
      [parseEbayPrices], [getWaybackSnapshotsForUrl], [fetchEbayFromWayback]
      with its snapshot sampler, and the store merge of [main];
    - the earlier updater (one retailer): [parsePriceFromHtml],
      [getWaybackMonthlySnapshots], [buildSeries], [main];
    - [src/App.tsx]: the point list, the two series and the date domain of
      the chart.

    Modelling conventions.
    - A JavaScript string is a [string] (a sequence of 8-bit code units).
    - A JavaScript number is a [jsnum]: [NaN], or an exact decimal fraction
      [Dec m e] standing for [m / 10^e].  Every finite double is such a
      fraction; arithmetic is exact (no binary rounding, no overflow to
      Infinity, no negative zero).  A converted amount of the model is the
      cent nearest to the exact product; the engine rounds the product to a
      double first, which can move an amount at a half cent to the
      neighbouring cent.
    - [undefined] / a missing property is [None].
    - An exception is the [Throw] branch of [result]; an [await]ed promise
      that rejects is a [Throw] as well.
    - The network, the clock and the file system are fields of a [World]. *)

From Stdlib Require Import List String Ascii ZArith Lia Bool Arith.
From Stdlib Require Import Permutation Sorted.
Import ListNotations.

Local Open Scope string_scope.
Local Open Scope list_scope.

(* ================================================================= *)
(** * Part I.  The model                                              *)
(* ================================================================= *)

(* ----------------------------------------------------------------- *)
(** ** Exceptions *)

Inductive result (A : Type) : Type :=
| Ok (a : A)
| Throw (msg : string).

Arguments Ok {A} a.
Arguments Throw {A} msg.

Definition bind {A B : Type} (r : result A) (k : A -> result B) : result B :=
  match r with
  | Ok a => k a
  | Throw e => Throw e
  end.

Notation "x <- r ;; k" := (bind r (fun x => k))
  (at level 61, r at next level, right associativity).

(* ----------------------------------------------------------------- *)
(** ** Strings *)

Definition sep : ascii := "|"%char.

(** [s] holds no occurrence of the key separator. *)
Fixpoint sep_free (s : string) : bool :=
  match s with
  | EmptyString => true
  | String c s' => negb (Ascii.eqb c sep) && sep_free s'
  end.

Definition is_upper (c : ascii) : bool :=
  (65 <=? nat_of_ascii c)%nat && (nat_of_ascii c <=? 90)%nat.

Definition is_lower (c : ascii) : bool :=
  (97 <=? nat_of_ascii c)%nat && (nat_of_ascii c <=? 122)%nat.

Definition is_digit (c : ascii) : bool :=
  (48 <=? nat_of_ascii c)%nat && (nat_of_ascii c <=? 57)%nat.

Definition upper_char (c : ascii) : ascii :=
  if is_lower c then ascii_of_nat (nat_of_ascii c - 32) else c.

(** [String.prototype.toUpperCase] on ASCII letters. *)
Fixpoint toUpperCase (s : string) : string :=
  match s with
  | EmptyString => EmptyString
  | String c s' => String (upper_char c) (toUpperCase s')
  end.

(** [s.slice(i, j)] for [0 <= i <= j]. *)
Definition slice (i j : nat) (s : string) : string := substring i (j - i) s.

(** A string is truthy when it is not empty. *)
Definition truthy_str (o : option string) : bool :=
  match o with
  | Some (String _ _) => true
  | _ => false
  end.

(** [a || b] on a possibly undefined string and a default. *)
Definition or_str (o : option string) (d : string) : string :=
  match o with
  | Some (String c s) => String c s
  | _ => d
  end.

(** [`${x}`] of a possibly undefined string. *)
Definition show_opt_str (o : option string) : string :=
  match o with
  | Some s => s
  | None => "undefined"
  end.

(** [a.localeCompare(b)] as the order of the code units; on ISO calendar dates
    ([YYYY-MM-DD]) this is the collation order. *)
Definition localeCompare (a b : string) : comparison := String.compare a b.

(* ----------------------------------------------------------------- *)
(** ** Numbers *)

Inductive jsnum : Type :=
| NaN
| Dec (m : Z) (e : nat).

Definition pow10 (e : nat) : Z := (10 ^ Z.of_nat e)%Z.

Definition num_of_Z (z : Z) : jsnum := Dec z 0.

(** Numeric comparison; [None] when either side is [NaN]. *)
Definition num_compare (a b : jsnum) : option comparison :=
  match a, b with
  | Dec m1 e1, Dec m2 e2 => Some (m1 * pow10 e2 ?= m2 * pow10 e1)%Z
  | _, _ => None
  end.

(** [a >= b], [a <= b]: false as soon as a [NaN] is involved. *)
Definition num_geb (a b : jsnum) : bool :=
  match num_compare a b with
  | Some Lt | None => false
  | Some _ => true
  end.

Definition num_leb (a b : jsnum) : bool :=
  match num_compare a b with
  | Some Gt | None => false
  | Some _ => true
  end.

(** SameValueZero, the equality of [Set.prototype.has]: [NaN] equals [NaN]. *)
Definition num_eqb (a b : jsnum) : bool :=
  match a, b with
  | NaN, NaN => true
  | Dec m1 e1, Dec m2 e2 => (m1 * pow10 e2 =? m2 * pow10 e1)%Z
  | _, _ => false
  end.

Definition num_mul (a b : jsnum) : jsnum :=
  match a, b with
  | Dec m1 e1, Dec m2 e2 => Dec (m1 * m2) (e1 + e2)
  | _, _ => NaN
  end.

Definition num_sub (a b : jsnum) : jsnum :=
  match a, b with
  | Dec m1 e1, Dec m2 e2 => Dec (m1 * pow10 e2 - m2 * pow10 e1) (e1 + e2)
  | _, _ => NaN
  end.

(** A number is falsy when it is [0] or [NaN]. *)
Definition truthy_num (o : option jsnum) : bool :=
  match o with
  | Some (Dec m _) => negb (m =? 0)%Z
  | _ => false
  end.

(** What a sort comparator's numeric result means to [Array.prototype.sort]:
    negative, positive, or zero ([NaN] counts as zero). *)
Definition num_sign (a : jsnum) : comparison :=
  match a with
  | NaN => Eq
  | Dec m _ => (m ?= 0)%Z
  end.

(** *** Decimal digits *)

Definition digit_char (d : Z) : ascii := ascii_of_nat (48 + Z.to_nat d).

Definition digit_val (c : ascii) : Z := Z.of_nat (nat_of_ascii c - 48).

(** The last [w] decimal digits of [x], most significant first. *)
Fixpoint fixed_digits (w : nat) (x : Z) : string :=
  match w with
  | O => EmptyString
  | S w' => fixed_digits w' (x / 10) ++ String (digit_char (x mod 10)) EmptyString
  end.

Fixpoint to_digits_fuel (fuel : nat) (x : Z) : string :=
  match fuel with
  | O => EmptyString
  | S f =>
      if (x <? 10)%Z then String (digit_char x) EmptyString
      else to_digits_fuel f (x / 10) ++ String (digit_char (x mod 10)) EmptyString
  end.

(** The decimal digits of [x >= 0], without leading zeros. *)
Definition to_digits (x : Z) : string :=
  to_digits_fuel (S (Z.to_nat (Z.log2 x))) x.

Fixpoint of_digits_acc (acc : Z) (s : string) : Z :=
  match s with
  | EmptyString => acc
  | String c s' => of_digits_acc (10 * acc + digit_val c) s'
  end.

Definition of_digits (s : string) : Z := of_digits_acc 0 s.

Fixpoint all_digits (s : string) : bool :=
  match s with
  | EmptyString => true
  | String c s' => is_digit c && all_digits s'
  end.

(** Splits at the first [ch]; the second part is [None] when [ch] is absent. *)
Fixpoint split_at (ch : ascii) (s : string) : string * option string :=
  match s with
  | EmptyString => (EmptyString, None)
  | String c s' =>
      if Ascii.eqb c ch then (EmptyString, Some s')
      else let '(a, b) := split_at ch s' in (String c a, b)
  end.

Definition nonempty (s : string) : bool :=
  match s with EmptyString => false | _ => true end.

(** [Number(s)] on the decimal literals the extractors and [toFixed] produce:
    an optional minus sign, digits, and optionally a point and more digits.
    Every other text is [NaN]. *)
Definition Number_unsigned (s : string) : jsnum :=
  match split_at "."%char s with
  | (i, None) =>
      if nonempty i && all_digits i then Dec (of_digits i) 0 else NaN
  | (i, Some f) =>
      if nonempty i && all_digits i && nonempty f && all_digits f
      then Dec (of_digits (i ++ f)) (String.length f)
      else NaN
  end.

Definition num_neg (a : jsnum) : jsnum :=
  match a with
  | NaN => NaN
  | Dec m e => Dec (- m) e
  end.

Definition Number (s : string) : jsnum :=
  match s with
  | String "-"%char s' => num_neg (Number_unsigned s')
  | _ => Number_unsigned s
  end.

(** [Number(x)] of a possibly undefined capture: [Number(undefined)] is [NaN]. *)
Definition Number_opt (o : option string) : jsnum :=
  match o with
  | Some s => Number s
  | None => NaN
  end.

(** The integer [n] for which [n / 100] is nearest to [|m| / 10^e], the larger
    one on a tie (Number.prototype.toFixed, step 8). *)
Definition cents_abs (m : Z) (e : nat) : Z :=
  ((2 * Z.abs m * 100 + pow10 e) / (2 * pow10 e))%Z.

(** [x.toFixed(2)], for [|x| < 10^21]. *)
Definition toFixed2 (x : jsnum) : string :=
  match x with
  | NaN => "NaN"
  | Dec m e =>
      let n := cents_abs m e in
      (if (m <? 0)%Z then "-" else "") ++
      to_digits (n / 100) ++ "." ++ fixed_digits 2 (n mod 100)
  end.


(** *** Number to string *)

(** Drops the trailing zeros of the fraction. *)
Fixpoint strip_zeros (m : Z) (e : nat) : Z * nat :=
  match e with
  | O => (m, O)
  | S e' => if (m mod 10 =? 0)%Z then strip_zeros (m / 10) e' else (m, e)
  end.

(** [m / 10^e] is written with as few decimals as possible. *)
Definition canonical (m : Z) (e : nat) : Prop :=
  e = O \/ (m mod 10 <> 0)%Z.

(** [`${x}`] for a number: the shortest decimal that denotes it (the
    exponent form that very large and very small numbers print in is not
    modelled). *)
Definition show_num (x : jsnum) : string :=
  match x with
  | NaN => "NaN"
  | Dec m e =>
      let '(m', e') := strip_zeros m e in
      (if (m' <? 0)%Z then "-" else "") ++
      to_digits (Z.abs m' / pow10 e') ++
      match e' with
      | O => ""
      | S _ => "." ++ fixed_digits e' (Z.abs m' mod pow10 e')
      end
  end.

Definition show_opt_num (o : option jsnum) : string :=
  match o with
  | Some x => show_num x
  | None => "undefined"
  end.

(* ----------------------------------------------------------------- *)
(** ** Regular expressions

    The extractors are regular expressions run by a backtracking matcher
    with JavaScript's priorities: leftmost match, alternatives in order,
    greedy quantifiers.  Each expression has exactly one capturing group. *)

Inductive regex : Type :=
| REps
| RChar (p : ascii -> bool)
| RSeq (r1 r2 : regex)
| RAlt (r1 r2 : regex)
| RStar (r : regex)
| RRep (lo hi : nat) (r : regex)
| RGroup (r : regex).

(** [rmatch r s cap k]: match [r] at the start of [s], then continue with [k]
    on the rest of the text and the capture; [None] makes the matcher
    backtrack. *)
Fixpoint rmatch {A : Type} (r : regex) (s : string) (cap : option string)
  (k : string -> option string -> option A) {struct r} : option A :=
  match r with
  | REps => k s cap
  | RChar p =>
      match s with
      | String c s' => if p c then k s' cap else None
      | EmptyString => None
      end
  | RSeq r1 r2 => rmatch r1 s cap (fun s1 c1 => rmatch r2 s1 c1 k)
  | RAlt r1 r2 =>
      match rmatch r1 s cap k with
      | Some x => Some x
      | None => rmatch r2 s cap k
      end
  | RStar r1 =>
      (fix loop (n : nat) (s : string) (cap : option string) {struct n} : option A :=
         match n with
         | O => k s cap
         | S n' =>
             match rmatch r1 s cap
                     (fun s1 c1 =>
                        if (String.length s1 <? String.length s)%nat
                        then loop n' s1 c1 else None) with
             | Some x => Some x
             | None => k s cap
             end
         end) (String.length s) s cap
  | RRep lo hi r1 =>
      (fix loop (lo hi : nat) (s : string) (cap : option string) {struct hi} : option A :=
         match hi with
         | O => k s cap
         | S hi' =>
             match rmatch r1 s cap (fun s1 c1 => loop (Nat.pred lo) hi' s1 c1) with
             | Some x => Some x
             | None => if (lo =? 0)%nat then k s cap else None
             end
         end) lo hi s cap
  | RGroup r1 =>
      rmatch r1 s cap
        (fun s1 _ => k s1 (Some (substring 0 (String.length s - String.length s1) s)))
  end.

(** A match: the text that follows it and the value of group 1. *)
Record MatchArr : Type := mkMatch { m_rest : string; m_group : option string }.

Definition match_here (r : regex) (s : string) : option MatchArr :=
  rmatch r s None (fun s1 c => Some (mkMatch s1 c)).

(** The leftmost match in [s], with the suffix of [s] it starts at. *)
Fixpoint rsearch (r : regex) (s : string) : option (string * MatchArr) :=
  match match_here r s with
  | Some m => Some (s, m)
  | None =>
      match s with
      | EmptyString => None
      | String _ s' => rsearch r s'
      end
  end.

(** [s.match(r)] for a non-global [r]: [null] ([None]) or the match array. *)
Definition String_match (r : regex) (s : string) : option MatchArr :=
  option_map snd (rsearch r s).

(** [m?.[1]]: [undefined] when [m] is [null]. *)
Definition group1_opt (m : option MatchArr) : option string :=
  match m with
  | Some a => m_group a
  | None => None
  end.

(** [m[1]] without the guard: a TypeError when [m] is [null]. *)
Definition group1 (m : option MatchArr) : result (option string) :=
  match m with
  | Some a => Ok (m_group a)
  | None => Throw "TypeError: Cannot read properties of null"
  end.

Fixpoint matchAll_fuel (fuel : nat) (r : regex) (s : string) : list MatchArr :=
  match fuel with
  | O => []
  | S f =>
      match rsearch r s with
      | None => []
      | Some (start, m) =>
          m :: (if (String.length (m_rest m) <? String.length start)%nat
                then matchAll_fuel f r (m_rest m)
                else match m_rest m with
                     | EmptyString => []
                     | String _ rest' => matchAll_fuel f r rest'
                     end)
      end
  end.

(** [s.matchAll(r)] for a global [r]: the successive matches, left to right. *)
Definition matchAll (r : regex) (s : string) : list MatchArr :=
  matchAll_fuel (S (String.length s)) r s.

(** *** Building blocks *)

Definition dquote : ascii := ascii_of_nat 34.
Definition q : string := String dquote EmptyString.

(** [\s] on code units below 256: tab to carriage return, space, and the
    no-break space. *)
Definition is_space (c : ascii) : bool :=
  let n := nat_of_ascii c in
  ((9 <=? n)%nat && (n <=? 13)%nat) || (n =? 32)%nat || (n =? 160)%nat.

Definition is_alpha (c : ascii) : bool := is_upper c || is_lower c.

(** One literal character; [ci] is the [i] flag. *)
Definition rchr (ci : bool) (c : ascii) : regex :=
  RChar (fun x => if ci then Ascii.eqb (upper_char x) (upper_char c) else Ascii.eqb x c).

Fixpoint rlit (ci : bool) (s : string) : regex :=
  match s with
  | EmptyString => REps
  | String c s' => RSeq (rchr ci c) (rlit ci s')
  end.

Definition rplus (r : regex) : regex := RSeq r (RStar r).
Definition ropt (r : regex) : regex := RRep 0 1 r.
Definition rspaces : regex := RStar (RChar is_space).
Definition rdigit : regex := RChar is_digit.

Fixpoint rseq (rs : list regex) : regex :=
  match rs with
  | [] => REps
  | r :: rs' => RSeq r (rseq rs')
  end.

(** [\d+(?:\.\d+)?] *)
Definition rdecimal : regex :=
  RSeq (rplus rdigit) (ropt (RSeq (rchr false "."%char) (rplus rdigit))).

(** [\d{2,3}(?:\.\d+)?] *)
Definition rdecimal23 : regex :=
  RSeq (RRep 2 3 rdigit) (ropt (RSeq (rchr false "."%char) (rplus rdigit))).

(* ----------------------------------------------------------------- *)
(** ** Data model *)

Record Price : Type := mkPrice { amount : jsnum; currency : string }.

Record Fx : Type :=
  mkFx { pair : string; rate : jsnum; source : string; fx_date : string }.

(** [priceCad]: the converted amount and, when a conversion took place, how. *)
Record PriceCad : Type := mkPriceCad { cad_amount : jsnum; fx : option Fx }.

Record Wayback : Type := mkWayback { timestamp : string }.

(** A point of the emitted series. *)
Record Point : Type :=
  mkPoint {
    date : string;
    kind : string;
    price : Price;
    priceCad : PriceCad;
    sourceId : string;
    url : string;
    wayback : option Wayback
  }.

(** An entry of [supplementary-points.json], as parsed: any property may be
    missing. *)
Record SuppPrice : Type :=
  mkSuppPrice { sp_amount : option jsnum; sp_currency : option string }.

Record SuppPoint : Type :=
  mkSupp {
    s_date : option string;
    s_kind : option string;
    s_price : option SuppPrice;
    s_sourceId : option string;
    s_url : option string;
    s_wayback : option Wayback
  }.

Record SourceDescriptor : Type :=
  mkSource { src_id : string; src_name : string; src_url : string; src_currency : string }.

Definition ARCTERYX_SOURCE : SourceDescriptor :=
  mkSource "arcteryx-ca" "Arc'teryx (CA)"
           "https://arcteryx.com/ca/en/shop/bucket-hat-9477" "CAD".

Definition GRAILED_SOURCE : SourceDescriptor :=
  mkSource "grailed" "Grailed"
           "https://www.grailed.com/search?q=veilance+bucket+hat" "USD".

Definition EBAY_SOURCE : SourceDescriptor :=
  mkSource "ebay" "eBay"
           "https://www.ebay.com/sch/i.html?_nkw=veilance+bucket+hat+carmine" "USD".

Definition SOURCES : list SourceDescriptor :=
  [ARCTERYX_SOURCE; GRAILED_SOURCE; EBAY_SOURCE].

Definition SOURCE : SourceDescriptor := ARCTERYX_SOURCE.

Definition GRAILED_SEARCH : string :=
  "https://www.grailed.com/search?q=veilance+bucket+hat".
Definition EBAY_SOLD : string :=
  "https://www.ebay.com/sch/i.html?_nkw=veilance+bucket+hat+carmine&_sacat=0&LH_Sold=1&LH_Complete=1".
Definition EBAY_LISTINGS : string :=
  "https://www.ebay.com/sch/i.html?_nkw=veilance+bucket+hat+carmine&_sacat=0".

(* ----------------------------------------------------------------- *)
(** ** HTML price extractors *)

(** [x.toUpperCase()] as a method call: a TypeError on [undefined]. *)
Definition call_toUpperCase (o : option string) : result string :=
  match o with
  | Some s => Ok (toUpperCase s)
  | None => Throw "TypeError: Cannot read properties of undefined"
  end.

(** [a || d] where [d] is a string literal. *)
Definition js_or (o : option string) (d : string) : option string :=
  if truthy_str o then o else Some d.

(** [/"priceCurrency"\s*:\s*"([A-Z]{3})"/i] *)
Definition re_jsonLdCurrency : regex :=
  rseq [rlit true (q ++ "priceCurrency" ++ q); rspaces; rchr true ":"%char; rspaces;
        rchr true dquote; RGroup (RRep 3 3 (RChar is_alpha)); rchr true dquote].

(** [/"price"\s*:\s*"?([0-9]+(?:\.[0-9]+)?)"?/i] *)
Definition re_jsonLdPrice : regex :=
  rseq [rlit true (q ++ "price" ++ q); rspaces; rchr true ":"%char; rspaces;
        ropt (rchr true dquote); RGroup rdecimal; ropt (rchr true dquote)].

(** [/\$\s*([0-9]+(?:\.[0-9]{2})?)/] *)
Definition re_textPrice : regex :=
  rseq [rchr false "$"%char; rspaces;
        RGroup (RSeq (rplus rdigit)
                     (ropt (RSeq (rchr false "."%char) (RRep 2 2 rdigit))))].

Record Parsed : Type :=
  mkParsed { current : option jsnum; regular : option jsnum; p_currency : string }.

Module UpdateData.

(** [parsePriceFromHtml] of [scripts/update-data.mjs]. *)
Definition parsePriceFromHtml (html : string) : result Parsed :=
  let jsonLdCurrency := group1_opt (String_match re_jsonLdCurrency html) in
  let jsonLdPrice := group1_opt (String_match re_jsonLdPrice html) in
  let textPrice := group1_opt (String_match re_textPrice html) in
  currency <- call_toUpperCase (js_or jsonLdCurrency "CAD") ;;
  let current :=
    if truthy_str jsonLdPrice then Some (Number_opt jsonLdPrice)
    else if truthy_str textPrice then Some (Number_opt textPrice)
    else None in
  let regular : option jsnum := None in
  Ok (mkParsed current regular currency).

End UpdateData.

(** [/"price"\s*:\s*"?(\d{2,3}(?:\.\d+)?)"?/g] *)
Definition re_priceMatches : regex :=
  rseq [rlit false (q ++ "price" ++ q); rspaces; rchr false ":"%char; rspaces;
        ropt (rchr false dquote); RGroup rdecimal23; ropt (rchr false dquote)].

(** [/\$\s*(\d{2,3}(?:\.\d+)?)\s*(?:USD|usd)/gi] *)
Definition re_usdMatches : regex :=
  rseq [rchr true "$"%char; rspaces; RGroup rdecimal23; rspaces;
        RAlt (rlit true "USD") (rlit true "usd")].

(** [/\$(\d{2,3})(?:\s|\x22|,|<\/|\.)/g], the double quote written [\x22] *)
Definition re_plainDollar : regex :=
  rseq [rchr false "$"%char; RGroup (RRep 2 3 rdigit);
        RAlt (RChar is_space)
          (RAlt (rchr false dquote)
             (RAlt (rchr false ","%char)
                (RAlt (rlit false "</") (rchr false "."%char))))].

(** [/\$\s*(\d+(?:\.\d+)?)\s*(?:CAD|USD|CAD\s*\/\s*USD)?/gi] *)
Definition re_ebayPrice : regex :=
  rseq [rchr true "$"%char; rspaces; RGroup rdecimal; rspaces;
        ropt (RAlt (rlit true "CAD")
                (RAlt (rlit true "USD")
                   (rseq [rlit true "CAD"; rspaces; rchr true "/"%char; rspaces;
                          rlit true "USD"])))].

(** [/s-item__price[^>]*>[\s$]*(\d+(?:\.\d+)?)/g] *)
Definition re_spanPrice : regex :=
  rseq [rlit false "s-item__price";
        RStar (RChar (fun c => negb (Ascii.eqb c ">"%char)));
        rchr false ">"%char;
        RStar (RChar (fun c => is_space c || Ascii.eqb c "$"%char));
        RGroup rdecimal].

(** [seen.has(amount)] on a set of numbers. *)
Definition seen_has (seen : list jsnum) (a : jsnum) : bool := existsb (num_eqb a) seen.

(** A freshly scraped point: [{ date, kind: 'sale', price: { amount, currency:
    'USD' }, sourceId, url }]. *)
Definition scraped (d : string) (a : jsnum) (sid u : string) : SuppPoint :=
  mkSupp (Some d) (Some "sale") (Some (mkSuppPrice (Some a) (Some "USD")))
         (Some sid) (Some u) None.

(** The body shared by the [for (const m of ...)] loops of the marketplace
    extractors: range check, [seen] check, [seen.add], [points.push]. *)
Definition scrape_step (lo hi : jsnum) (d sid u : string)
  (st : list jsnum * list SuppPoint) (m : MatchArr) : list jsnum * list SuppPoint :=
  let '(seen, points) := st in
  let a := Number_opt (m_group m) in
  if num_geb a lo && num_leb a hi && negb (seen_has seen a)
  then (a :: seen, points ++ [scraped d a sid u])
  else st.

Definition scrape_loop (lo hi : jsnum) (d sid u : string)
  (ms : list MatchArr) (st : list jsnum * list SuppPoint) : list jsnum * list SuppPoint :=
  fold_left (scrape_step lo hi d sid u) ms st.

(** [parseGrailedPrices]; [today] is [new Date().toISOString().slice(0, 10)]. *)
Definition parseGrailedPrices (today html : string) : result (list SuppPoint) :=
  let priceMatches := matchAll re_priceMatches html in
  let usdMatches := matchAll re_usdMatches html in
  let plainDollar := matchAll re_plainDollar html in
  let lo := num_of_Z 80 in
  let hi := num_of_Z 350 in
  let st0 := ([], []) in
  let st1 := scrape_loop lo hi today "grailed" GRAILED_SEARCH priceMatches st0 in
  let st2 := scrape_loop lo hi today "grailed" GRAILED_SEARCH usdMatches st1 in
  let st3 := scrape_loop lo hi today "grailed" GRAILED_SEARCH plainDollar st2 in
  Ok (snd st3).

Module FetchMarketplace.

(** [parseEbayPrices] of [scripts/fetch-marketplace.mjs]. *)
Definition parseEbayPrices (today html : string) : result (list SuppPoint) :=
  let priceMatches := matchAll re_ebayPrice html in
  let spanPrice := matchAll re_spanPrice html in
  let lo := num_of_Z 50 in
  let hi := num_of_Z 500 in
  let st1 := scrape_loop lo hi today "ebay" EBAY_SOLD priceMatches ([], []) in
  let st2 := scrape_loop lo hi today "ebay" EBAY_LISTINGS spanPrice st1 in
  Ok (snd st2).

End FetchMarketplace.

Module FetchMarketplaceWayback.

(** [parseEbayPrices] of the revision that also reads archive snapshots:
    [snapshotDate], when given, dates the points. *)
Definition parseEbayPrices (today html : string) (snapshotDate : option string)
  : result (list SuppPoint) :=
  let dateStr := or_str snapshotDate today in
  let priceMatches := matchAll re_ebayPrice html in
  let spanPrice := matchAll re_spanPrice html in
  let lo := num_of_Z 50 in
  let hi := num_of_Z 500 in
  let st1 := scrape_loop lo hi dateStr "ebay" EBAY_SOLD priceMatches ([], []) in
  let st2 := scrape_loop lo hi dateStr "ebay" EBAY_SOLD spanPrice st1 in
  Ok (snd st2).

End FetchMarketplaceWayback.

(** A page that embeds the prices 5 and 199.99. *)
Definition html_two_prices : string :=
  "<script>{" ++ q ++ "price" ++ q ++ ":" ++ q ++ "5" ++ q ++ "},{"
  ++ q ++ "price" ++ q ++ ":" ++ q ++ "199.99" ++ q ++ "}</script>".

(** The offer block of a product page priced 225.00 CAD. *)
Definition html_jsonld : string :=
  q ++ "offers" ++ q ++ ":{" ++ q ++ "priceCurrency" ++ q ++ ":" ++ q ++ "CAD" ++ q
  ++ "," ++ q ++ "price" ++ q ++ ":" ++ q ++ "225.00" ++ q ++ "}".

(* ----------------------------------------------------------------- *)
(** ** Calendar dates

    A [Date] at noon UTC is a civil date; [setUTCDate(getUTCDate() - k)]
    moves it [k] days back.  Only the ISO form [YYYY-MM-DD] of a real
    calendar day is read as a valid date; what the engine makes of other
    texts (a day past the end of its month, other formats) is not modelled,
    they give an Invalid Date. *)

Record civil : Type := mkCivil { c_year : Z; c_month : Z; c_day : Z }.

Definition is_leap (y : Z) : bool :=
  ((y mod 4 =? 0)%Z && negb (y mod 100 =? 0)%Z) || (y mod 400 =? 0)%Z.

Definition days_in_month (y m : Z) : Z :=
  if (m =? 2)%Z then (if is_leap y then 29 else 28)%Z
  else if (m =? 4)%Z || (m =? 6)%Z || (m =? 9)%Z || (m =? 11)%Z then 30%Z
  else 31%Z.

Definition valid_civil (c : civil) : bool :=
  (1 <=? c_month c)%Z && (c_month c <=? 12)%Z &&
  (1 <=? c_day c)%Z && (c_day c <=? days_in_month (c_year c) (c_month c))%Z.

Definition digits2 (a b : ascii) : Z := (10 * digit_val a + digit_val b)%Z.

(** The date a text [YYYY-MM-DD] denotes. *)
Definition parse_iso_date (s : string) : option civil :=
  match s with
  | String y1 (String y2 (String y3 (String y4 (String h1
      (String m1 (String m2 (String h2 (String d1 (String d2 EmptyString))))))))) =>
      if is_digit y1 && is_digit y2 && is_digit y3 && is_digit y4 &&
         Ascii.eqb h1 "-"%char && is_digit m1 && is_digit m2 &&
         Ascii.eqb h2 "-"%char && is_digit d1 && is_digit d2
      then
        let c := mkCivil (100 * digits2 y1 y2 + digits2 y3 y4)%Z
                         (digits2 m1 m2) (digits2 d1 d2) in
        if valid_civil c then Some c else None
      else None
  | _ => None
  end.

(** [new Date(baseDate + 'T12:00:00Z')]; [None] is an Invalid Date.  The model
    reads ISO calendar dates only: a day number past the end of its month,
    which an engine may roll over into the next month, is not read. *)
Definition Date_at_noon (baseDate : option string) : option civil :=
  match baseDate with
  | Some s => parse_iso_date s
  | None => None
  end.

Definition prev_day (c : civil) : civil :=
  if (1 <? c_day c)%Z then mkCivil (c_year c) (c_month c) (c_day c - 1)
  else if (1 <? c_month c)%Z
       then mkCivil (c_year c) (c_month c - 1) (days_in_month (c_year c) (c_month c - 1))
       else mkCivil (c_year c - 1) 12 31.

(** [k] days before [c]. *)
Definition days_before (k : nat) (c : civil) : civil := Nat.iter k prev_day c.

(** [d.toISOString().slice(0, 10)] of a valid date: four-digit years print as
    [YYYY-MM-DD]; other years print with a sign and six digits, of which the
    slice keeps the year and the month. *)
Definition iso_of_civil (c : civil) : string :=
  let y := c_year c in
  if (0 <=? y)%Z && (y <=? 9999)%Z
  then fixed_digits 4 y ++ "-" ++ fixed_digits 2 (c_month c) ++ "-" ++ fixed_digits 2 (c_day c)
  else (if (y <? 0)%Z then "-" else "+") ++ fixed_digits 6 (Z.abs y) ++ "-"
       ++ fixed_digits 2 (c_month c).

(** [isoDateFromWaybackTimestamp]: [ts] is [YYYYMMDDhhmmss]. *)
Definition isoDateFromWaybackTimestamp (ts : string) : string :=
  slice 0 4 ts ++ "-" ++ slice 4 6 ts ++ "-" ++ slice 6 8 ts.

(* ----------------------------------------------------------------- *)
(** ** Sorting

    [Array.prototype.sort] is stable; it is modelled by insertion, which
    puts an element before the first one it is not greater than. *)

Fixpoint insert_by {A : Type} (cmp : A -> A -> comparison) (x : A) (l : list A) : list A :=
  match l with
  | [] => [x]
  | y :: l' =>
      match cmp x y with
      | Gt => y :: insert_by cmp x l'
      | _ => x :: l
      end
  end.

Definition sort_by {A : Type} (cmp : A -> A -> comparison) (l : list A) : list A :=
  fold_right (insert_by cmp) [] l.

(** [x] is not greater than [y] for the comparator. *)
Definition not_gt {A : Type} (cmp : A -> A -> comparison) (x y : A) : Prop :=
  cmp x y <> Gt.

(* ----------------------------------------------------------------- *)
(** ** Date spreading of supplementary points *)

(** [pt.price?.amount ?? 0] *)
Definition amount_or_0 (pt : SuppPoint) : jsnum :=
  match s_price pt with
  | Some p => match sp_amount p with Some a => a | None => Dec 0 0 end
  | None => Dec 0 0
  end.

(** [(a, b) => (a.price?.amount ?? 0) - (b.price?.amount ?? 0)] *)
Definition by_amount (a b : SuppPoint) : comparison :=
  num_sign (num_sub (amount_or_0 a) (amount_or_0 b)).

(** [(a, b) => a.date.localeCompare(b.date) || (amount difference)], on points
    that have a date. *)
Definition by_date_then_amount (a b : SuppPoint) : comparison :=
  match localeCompare (show_opt_str (s_date a)) (show_opt_str (s_date b)) with
  | Eq => by_amount a b
  | c => c
  end.

Definition has_date (pt : SuppPoint) : bool :=
  match s_date pt with Some _ => true | None => false end.

(** [l.sort(by_date_then_amount)].  With fewer than two elements the
    comparator is not called; otherwise every element is compared, the engine
    chooses which one is the receiver of [localeCompare], and a point without
    [date] in that place is a TypeError: the model raises it whenever such a
    point is present. *)
Definition sort_supp (l : list SuppPoint) : result (list SuppPoint) :=
  if (List.length l <=? 1)%nat then Ok l
  else if forallb has_date l then Ok (sort_by by_date_then_amount l)
  else Throw "TypeError: Cannot read properties of undefined (reading 'localeCompare')".

(** [`${pt.sourceId}|${pt.date}`] *)
Definition group_key (pt : SuppPoint) : string :=
  show_opt_str (s_sourceId pt) ++ "|" ++ show_opt_str (s_date pt).

(** The [Map] from key to group, in insertion order. *)
Fixpoint map_push (key : string) (pt : SuppPoint) (m : list (string * list SuppPoint))
  : list (string * list SuppPoint) :=
  match m with
  | [] => [(key, [pt])]
  | (k, g) :: m' =>
      if String.eqb k key then (k, g ++ [pt]) :: m'
      else (k, g) :: map_push key pt m'
  end.

Definition group_by_key (points : list SuppPoint) : list (string * list SuppPoint) :=
  fold_left (fun m pt => map_push (group_key pt) pt m) points [].

(** [{ ...pt, date: dateStr }] *)
Definition with_date (pt : SuppPoint) (d : string) : SuppPoint :=
  mkSupp (Some d) (s_kind pt) (s_price pt) (s_sourceId pt) (s_url pt) (s_wayback pt).

(** The inner [for] loop: the element at index [i] of a group of [n] goes
    [n - 1 - i] days before [base]. *)
Fixpoint redate (base : civil) (group : list SuppPoint) : list SuppPoint :=
  match group with
  | [] => []
  | pt :: rest =>
      with_date pt (iso_of_civil (days_before (List.length rest) base)) :: redate base rest
  end.

Definition spread_group (group : list SuppPoint) : result (list SuppPoint) :=
  if (List.length group <=? 1)%nat then Ok group
  else
    let baseDate := match group with pt :: _ => s_date pt | [] => None end in
    let base := Date_at_noon baseDate in
    let sorted := sort_by by_amount group in
    match base with
    | Some b => Ok (redate b sorted)
    | None => Throw "RangeError: Invalid time value"
    end.

Fixpoint spread_groups (groups : list (list SuppPoint)) : result (list SuppPoint) :=
  match groups with
  | [] => Ok []
  | g :: gs =>
      a <- spread_group g ;;
      b <- spread_groups gs ;;
      Ok (a ++ b)
  end.

(** [spreadSupplementaryDates] of [scripts/update-data.mjs]. *)
Definition spreadSupplementaryDates (points : list SuppPoint) : result (list SuppPoint) :=
  let byKey := group_by_key points in
  out <- spread_groups (map snd byKey) ;;
  sort_supp out.

(** A supplementary entry of source X on 2024-06-10, priced [a] USD. *)
Definition supp_x (a : Z) : SuppPoint :=
  mkSupp (Some "2024-06-10") (Some "sale") (Some (mkSuppPrice (Some (Dec a 0)) (Some "USD")))
         (Some "X") (Some "https://example.org/x") None.

(* ----------------------------------------------------------------- *)
(** ** Merge, de-duplication and ordering (the tail of [buildSeries]) *)

(** [`${pt.date}|${pt.kind}|${pt.price.amount}|${pt.price.currency}|${pt.sourceId}`] *)
Definition dedupKey (pt : Point) : string :=
  date pt ++ "|" ++ kind pt ++ "|" ++ show_num (amount (price pt)) ++ "|"
  ++ currency (price pt) ++ "|" ++ sourceId pt.

Definition set_has (seen : list string) (k : string) : bool := existsb (String.eqb k) seen.

(** The de-duplication loop; [seen] is the [Set] of keys met so far. *)
Fixpoint dedupe_loop (seen : list string) (points : list Point) : list Point :=
  match points with
  | [] => []
  | pt :: rest =>
      let k := dedupKey pt in
      if set_has seen k then dedupe_loop seen rest
      else pt :: dedupe_loop (k :: seen) rest
  end.

Definition dedupe (points : list Point) : list Point := dedupe_loop [] points.

(** [(a, b) => a.date.localeCompare(b.date)] *)
Definition by_date (a b : Point) : comparison := localeCompare (date a) (date b).

(** De-duplicate, then sort by date: what [buildSeries] does with [points]. *)
Definition mergeSeries (points : list Point) : list Point :=
  sort_by by_date (dedupe points).

(** The fields of the de-duplication key, compared one by one. *)
Definition same_tuple (a b : Point) : bool :=
  String.eqb (date a) (date b) && String.eqb (kind a) (kind b) &&
  num_eqb (amount (price a)) (amount (price b)) &&
  String.eqb (currency (price a)) (currency (price b)) &&
  String.eqb (sourceId a) (sourceId b).

(** Dates, kinds and currencies of the data model hold no [|]. *)
Definition key_safe (pt : Point) : bool :=
  sep_free (date pt) && sep_free (kind pt) && sep_free (currency (price pt)).

(* ----------------------------------------------------------------- *)
(** ** The orchestrator of [scripts/update-data.mjs] *)

Inductive SuppFile : Type :=
| FileMissing                         (* readFile fails with ENOENT *)
| FileError (msg : string)            (* another I/O error, or invalid JSON *)
| FileNotArray                        (* valid JSON, not an array *)
| FileEntries (l : list SuppPoint).

Record Product : Type :=
  mkProduct {
    prod_name : string; prod_brand : string; prod_line : string;
    prod_color : string; currencyDisplay : string; notes : list string
  }.

Record Artifact : Type :=
  mkArtifact { product : Product; sources : list SourceDescriptor; series : list Point }.

(** What a run can observe of the outside. *)
Record World : Type :=
  mkWorld {
    (** [new Date().toISOString().slice(0, 10)] *)
    w_today : string;
    (** [fetchText(url)]: the body, or the rejection (network failure,
        non-success status) *)
    w_fetchText : string -> result string;
    (** [JSON.parse(await fetchText(cdxUrl))] for the page URL: the rows,
        header first; a rejection also stands for a payload that is not a
        list of rows *)
    w_cdx : string -> result (list (list string));
    (** the reply of the rate service for (date, from, to): [json?.rates?.[to]] *)
    w_rates : string -> string -> string -> result (option jsnum);
    w_suppFile : SuppFile;
    (** [fs.mkdir] and [fs.writeFile] of the artifact *)
    w_writeFile : Artifact -> result unit
  }.

Definition PRODUCT_NAME : string := "Veilance Bucket Hat".
Definition COLOR : string := "Carmine".

(** [priceCad] of a point: [Number((amount * rate).toFixed(2))] and, unless
    the currency is CAD, the [fx] record. *)
Definition priceCadOf (a r : jsnum) (cur d : string) : PriceCad :=
  mkPriceCad (Number (toFixed2 (num_mul a r)))
             (if String.eqb cur "CAD" then None
              else Some (mkFx (cur ++ "/CAD") r "frankfurter.app" d)).

Module UpdateDataRun.
Import UpdateData.

Definition fxRate (w : World) (dateISO from to : string) : result jsnum :=
  r <- w_rates w dateISO from to ;;
  match r with
  | Some x => if truthy_num r then Ok x else Throw "No FX rate"
  | None => Throw "No FX rate"
  end.

Definition getWaybackAllSnapshots (w : World) (originalUrl : string) : result (list string) :=
  raw <- w_cdx w originalUrl ;;
  let rows := tl raw in
  let timestamps :=
    filter nonempty (flat_map (fun row => match row with t :: _ => [t] | [] => [] end) rows) in
  Ok (sort_by String.compare timestamps).

Definition loadSupplementaryPoints (w : World) : result (list SuppPoint) :=
  match w_suppFile w with
  | FileMissing => Ok []
  | FileError e => Throw e
  | FileNotArray => Ok []
  | FileEntries l => Ok l
  end.

(** The points pushed for one parsed page: a sale point when [current] is
    there, an msrp point when [regular] is. *)
Definition page_points (p : Parsed) (cur : string) (r : jsnum) (d sid u : string)
  (wb : option Wayback) : list Point :=
  (match current p with
   | Some c => [mkPoint d "sale" (mkPrice c cur) (priceCadOf c r cur d) sid u wb]
   | None => []
   end) ++
  (match regular p with
   | Some c => [mkPoint d "msrp" (mkPrice c cur) (priceCadOf c r cur d) sid u wb]
   | None => []
   end).

(** One turn of the loop over the snapshots. *)
Definition snapshot_points (w : World) (ts : string) : result (list Point) :=
  let dateISO := isoDateFromWaybackTimestamp ts in
  match w_fetchText w ("https://web.archive.org/web/" ++ ts ++ "/" ++ src_url ARCTERYX_SOURCE) with
  | Throw _ => Ok []
  | Ok htmlSnap =>
      p <- parsePriceFromHtml htmlSnap ;;
      match current p, regular p with
      | None, None => Ok []
      | _, _ =>
          snapFrom <- call_toUpperCase
                        (js_or (js_or (Some (p_currency p)) (src_currency ARCTERYX_SOURCE)) "CAD") ;;
          match (if String.eqb snapFrom "CAD" then Ok (Dec 1 0)
                 else fxRate w dateISO snapFrom "CAD") with
          | Throw _ => Ok []
          | Ok r =>
              Ok (page_points p snapFrom r dateISO (src_id ARCTERYX_SOURCE)
                    (src_url ARCTERYX_SOURCE) (Some (mkWayback ts)))
          end
      end
  end.

Fixpoint snapshots_points (w : World) (snapshots : list string) : result (list Point) :=
  match snapshots with
  | [] => Ok []
  | ts :: rest =>
      a <- snapshot_points w ts ;;
      b <- snapshots_points w rest ;;
      Ok (a ++ b)
  end.

(** One turn of the loop over the supplementary points.  The guard
    [!pt?.date || !pt?.kind || !pt?.price?.amount || !pt?.sourceId || !pt?.url]
    skips an entry with a missing field (the last case) or a falsy one (the
    test). *)
Definition supplementary_point (w : World) (pt : SuppPoint) : result (list Point) :=
  match s_date pt, s_kind pt, s_price pt, s_sourceId pt, s_url pt with
  | Some d, Some k, Some pr, Some sid, Some u =>
      if negb (truthy_str (s_date pt)) || negb (truthy_str (s_kind pt))
         || negb (truthy_num (sp_amount pr)) || negb (truthy_str (s_sourceId pt))
         || negb (truthy_str (s_url pt))
      then Ok []
      else
        match sp_amount pr with
        | None => Ok []
        | Some a =>
            cur <- call_toUpperCase (js_or (sp_currency pr) "USD") ;;
            match (if negb (String.eqb cur "CAD") then fxRate w d cur "CAD"
                   else Ok (Dec 1 0)) with
            | Throw _ => Ok []
            | Ok r =>
                Ok [mkPoint d (if String.eqb k "msrp" then "msrp" else "sale")
                      (mkPrice a cur) (priceCadOf a r cur d) sid u (s_wayback pt)]
            end
        end
  | _, _, _, _, _ => Ok []
  end.

Fixpoint supplementary_points (w : World) (supp : list SuppPoint) : result (list Point) :=
  match supp with
  | [] => Ok []
  | pt :: rest =>
      a <- supplementary_point w pt ;;
      b <- supplementary_points w rest ;;
      Ok (a ++ b)
  end.

(** The points of the live page. *)
Definition primary_points (w : World) : result (list Point) :=
  let todayISO := w_today w in
  html <- w_fetchText w (src_url SOURCE) ;;
  parsed <- parsePriceFromHtml html ;;
  fxFrom <- call_toUpperCase
              (js_or (js_or (Some (p_currency parsed)) (src_currency SOURCE)) "CAD") ;;
  fxRateToCad <- (if String.eqb fxFrom "CAD" then Ok (Dec 1 0)
                  else fxRate w todayISO fxFrom "CAD") ;;
  Ok (page_points parsed fxFrom fxRateToCad todayISO (src_id SOURCE) (src_url SOURCE) None).

(** The points of the archive snapshots. *)
Definition historical_points (w : World) (includeWayback : bool) : result (list Point) :=
  if includeWayback then
    let snapshots :=
      match getWaybackAllSnapshots w (src_url ARCTERYX_SOURCE) with
      | Ok l => l
      | Throw _ => []
      end in
    snapshots_points w snapshots
  else Ok [].

Definition the_product : Product :=
  mkProduct PRODUCT_NAME "Arc'teryx" "Veilance" COLOR "CAD"
    [ ("This tracker focuses on the " ++ PRODUCT_NAME ++ " in the " ++ COLOR ++ " colour.")%string;
      "Historical points may be sourced from Arc'teryx (retail), Web Archive snapshots, Grailed, and eBay (resale).";
      "Prices are displayed in CAD; non-CAD source prices are converted using historical FX for the capture date." ].

Definition buildSeries (w : World) (includeWayback : bool) : result Artifact :=
  primary <- primary_points w ;;
  historical <- historical_points w includeWayback ;;
  supplementary0 <- loadSupplementaryPoints w ;;
  supplementary1 <- spreadSupplementaryDates supplementary0 ;;
  supplementary <- supplementary_points w supplementary1 ;;
  let points := primary ++ historical ++ supplementary in
  Ok (mkArtifact the_product SOURCES (mergeSeries points)).

(** How a run ends: [process.exit(1)] after an uncaught rejection, or the
    artifact written. *)
Inductive Outcome : Type :=
| Exit1 (err : string)
| Wrote (data : Artifact).

Definition main (w : World) (includeWayback : bool) : Outcome :=
  match buildSeries w includeWayback with
  | Throw e => Exit1 e
  | Ok data =>
      match w_writeFile w data with
      | Throw e => Exit1 e
      | Ok _ => Wrote data
      end
  end.

End UpdateDataRun.

(* ----------------------------------------------------------------- *)
(** ** The marketplace fetcher ([fetch-marketplace.mjs]) *)

(** [pt.price?.amount] *)
Definition price_amount (pt : SuppPoint) : option jsnum :=
  match s_price pt with
  | Some p => sp_amount p
  | None => None
  end.

(** [seenKey]: [`${pt.date}|${pt.sourceId}|${pt.price?.amount}`] *)
Definition seenKey (pt : SuppPoint) : string :=
  show_opt_str (s_date pt) ++ "|" ++ show_opt_str (s_sourceId pt) ++ "|"
  ++ show_opt_num (price_amount pt).

(** The loop [for (const pt of found) if (!existingKeys.has(seenKey(pt)))
    { newPoints.push(pt); existingKeys.add(seenKey(pt)) }]. *)
Definition add_new (found : list SuppPoint) (st : list string * list SuppPoint)
  : list string * list SuppPoint :=
  fold_left
    (fun st pt =>
       let '(existingKeys, newPoints) := st in
       if set_has existingKeys (seenKey pt) then st
       else (seenKey pt :: existingKeys, newPoints ++ [pt]))
    found st.

(** A [try { ... add the points found ... } catch { warn }] block. *)
Definition try_add (found : result (list SuppPoint)) (st : list string * list SuppPoint)
  : list string * list SuppPoint :=
  match found with
  | Ok pts => add_new pts st
  | Throw _ => st
  end.

(** [p.sourceId === 'ebay'] *)
Definition is_ebay (pt : SuppPoint) : bool :=
  match s_sourceId pt with
  | Some s => String.eqb s "ebay"
  | None => false
  end.

(** What the fetcher observes of the outside. *)
Record MarketWorld : Type :=
  mkMarketWorld {
    mw_today : string;
    mw_suppFile : SuppFile;
    mw_fetchText : string -> result string;
    (** the rows of the archive index for (url, limit), header first; a
        rejection stands for a failed request or a reply that is not JSON *)
    mw_cdx : string -> nat -> result (list (list string));
    (** the archived copy of the sold-listings page at a timestamp; a
        rejection stands for a network failure or a non-success status *)
    mw_fetchSnapshot : string -> result string
  }.

Definition loadStore (f : SuppFile) : result (list SuppPoint) :=
  match f with
  | FileMissing => Ok []
  | FileError e => Throw e
  | FileNotArray => Ok []
  | FileEntries l => Ok l
  end.

(** [merged.sort(...)] and the write: the new content of the store. *)
Definition write_merged (supplementary newPoints : list SuppPoint) : result (list SuppPoint) :=
  sort_supp (supplementary ++ newPoints).

Module FetchMarketplaceRun.
Import FetchMarketplace.

(** [main] of [scripts/fetch-marketplace.mjs]: the content of the store after
    the run. *)
Definition main (w : MarketWorld) : result (list SuppPoint) :=
  supplementary <- loadStore (mw_suppFile w) ;;
  let st0 := (map seenKey supplementary, []) in
  let st1 := try_add (html <- mw_fetchText w GRAILED_SEARCH ;;
                      parseGrailedPrices (mw_today w) html) st0 in
  let st2 := try_add (html <- mw_fetchText w EBAY_SOLD ;;
                      parseEbayPrices (mw_today w) html) st1 in
  let newPoints := snd st2 in
  if (0 <? List.length newPoints)%nat
  then write_merged supplementary newPoints
  else Ok supplementary.

End FetchMarketplaceRun.

Record Snapshot : Type := mkSnapshot { snap_timestamp : string; snap_dateISO : string }.

(** The indices [step, 2*step, ...] below [n]: the loop
    [for (let i = step; i < n; i += step) indices.add(i)]. *)
Fixpoint step_indices (fuel i step n : nat) : list nat :=
  match fuel with
  | O => []
  | S f => if (i <? n)%nat then i :: step_indices f (i + step) step n else []
  end.

(** The [Set] of sampled indices for [n] snapshots. *)
Definition sample_indices (n maxSnapshots : nat) : list nat :=
  let step := Nat.max 1 ((n - 1) / Nat.max 1 (maxSnapshots - 2)) in
  [0] ++ step_indices n step step n ++ [n - 1].

(** [l.filter((_, i) => keep(i))], counting from [i]. *)
Fixpoint filter_index {A : Type} (keep : nat -> bool) (i : nat) (l : list A) : list A :=
  match l with
  | [] => []
  | x :: l' => (if keep i then [x] else []) ++ filter_index keep (S i) l'
  end.

(** The sampling step of [fetchEbayFromWayback]:
    [snapshots.filter((_, i) => indices.has(i)).slice(0, maxSnapshots)]. *)
Definition sampled {A : Type} (snapshots : list A) (maxSnapshots : nat) : list A :=
  let indices := sample_indices (List.length snapshots) maxSnapshots in
  firstn maxSnapshots
    (filter_index (fun i => existsb (Nat.eqb i) indices) 0 snapshots).

Module FetchMarketplaceWaybackRun.
Import FetchMarketplaceWayback.

(** The [Map] from date to first timestamp, in insertion order. *)
Fixpoint byDate_set (d ts : string) (m : list (string * string)) : list (string * string) :=
  match m with
  | [] => [(d, ts)]
  | (k, v) :: m' => if String.eqb k d then m else (k, v) :: byDate_set d ts m'
  end.

Definition getWaybackSnapshotsForUrl (w : MarketWorld) (u : string) (limit : nat)
  : result (list Snapshot) :=
  data <- mw_cdx w u limit ;;
  let rows := tl data in
  let byDate :=
    fold_left
      (fun m row =>
         match row with
         | ts :: _ =>
             if nonempty ts then byDate_set (isoDateFromWaybackTimestamp ts) ts m else m
         | [] => m
         end) rows [] in
  Ok (map (fun e => mkSnapshot (snd e) (fst e))
          (sort_by (fun a b => localeCompare (fst a) (fst b)) byDate)).

(** The loop over the two index queries: the first non-empty answer wins, a
    failure is skipped. *)
Fixpoint first_snapshots (w : MarketWorld) (urls : list string) : list Snapshot :=
  match urls with
  | [] => []
  | u :: rest =>
      match getWaybackSnapshotsForUrl w u 100 with
      | Ok (s :: l) => s :: l
      | _ => first_snapshots w rest
      end
  end.

(** One turn of the loop over the sampled snapshots; any failure skips it. *)
Definition snapshot_prices (w : MarketWorld) (s : Snapshot) : list SuppPoint :=
  match mw_fetchSnapshot w (snap_timestamp s) with
  | Throw _ => []
  | Ok html =>
      match parseEbayPrices (mw_today w) html (Some (snap_dateISO s)) with
      | Ok parsed => parsed
      | Throw _ => []
      end
  end.

Definition fetchEbayFromWayback (w : MarketWorld) (maxSnapshots : nat)
  : result (list SuppPoint) :=
  let snapshots := first_snapshots w [EBAY_SOLD; "https://www.ebay.com/sch/i.html*"] in
  match snapshots with
  | [] => Ok []
  | _ => Ok (flat_map (snapshot_prices w) (sampled snapshots maxSnapshots))
  end.

(** The points a run collects: [newPoints] after the three [try] blocks. *)
Definition collect (w : MarketWorld) (supplementary : list SuppPoint) : list SuppPoint :=
  let st0 := (map seenKey supplementary, []) in
  let st1 := try_add (html <- mw_fetchText w GRAILED_SEARCH ;;
                      parseGrailedPrices (mw_today w) html) st0 in
  let st2 := try_add (html <- mw_fetchText w EBAY_SOLD ;;
                      parseEbayPrices (mw_today w) html None) st1 in
  let st3 := try_add (fetchEbayFromWayback w 15) st2 in
  snd st3.

(** The tail of [main]: refresh of the ebay points, merge, sort, write. *)
Definition refresh (supplementary newPoints : list SuppPoint) : result (list SuppPoint) :=
  let hasNewEbay := existsb is_ebay newPoints in
  let supplementary' :=
    if hasNewEbay then filter (fun p => negb (is_ebay p)) supplementary
    else supplementary in
  if (0 <? List.length newPoints)%nat || hasNewEbay
  then write_merged supplementary' newPoints
  else Ok supplementary.

(** [main] of the revision with archive snapshots: the content of the store
    after the run. *)
Definition main (w : MarketWorld) : result (list SuppPoint) :=
  supplementary <- loadStore (mw_suppFile w) ;;
  refresh supplementary (collect w supplementary).

End FetchMarketplaceWaybackRun.

Module UpdateDataChcm.

(** The [Map] from month to first timestamp, in insertion order. *)
Fixpoint byMonth_set (k ts : string) (m : list (string * string)) : list (string * string) :=
  match m with
  | [] => [(k, ts)]
  | (k', v) :: m' => if String.eqb k' k then m else (k', v) :: byMonth_set k ts m'
  end.

Definition byMonth_get (k : string) (m : list (string * string)) : string :=
  match find (fun e => String.eqb (fst e) k) m with
  | Some e => snd e
  | None => ""
  end.

(** [getWaybackMonthlySnapshots] of the earlier updater, on the timestamps of
    the index rows: the first snapshot of each month, the last [maxMonths]
    months kept. *)
Definition getWaybackMonthlySnapshots (timestamps : list string) (maxMonths : nat)
  : list string :=
  let byMonth :=
    fold_left (fun m ts => byMonth_set (slice 0 6 ts) ts m) timestamps [] in
  let months := sort_by String.compare (map fst byMonth) in
  let tail := skipn (List.length months - maxMonths) months in
  map (fun m => byMonth_get m byMonth) tail.

End UpdateDataChcm.

(** Thirty months of snapshots, one per month, from 2021-01 to 2023-06. *)
Definition month_stamp (i : nat) : string :=
  fixed_digits 4 (2021 + Z.of_nat (i / 12)) ++ fixed_digits 2 (1 + Z.of_nat (i mod 12))
  ++ "01000000".

Definition thirty_months : list string := map month_stamp (seq 0 30).

(* ----------------------------------------------------------------- *)
(** ** Vocabulary of the statements, and the worlds they are tried on *)

(** [lo <= a <= hi], as the range check of the extractors tests it. *)
Definition in_range (lo hi a : jsnum) : Prop :=
  num_geb a lo = true /\ num_leb a hi = true.

(** No two numbers of the list are equal. *)
Definition distinct_nums (l : list jsnum) : Prop :=
  ForallOrdPairs (fun a b => num_eqb a b = false) l.

(** The state of a scraping loop: [seen] mirrors the amounts pushed so far,
    which are in range, pairwise distinct, and all read from a match. *)
Record scrape_inv (lo hi : jsnum) (ms : list MatchArr)
  (st : list jsnum * list SuppPoint) : Prop :=
  mkScrapeInv {
    si_seen : map amount_or_0 (snd st) = rev (fst st);
    si_amount : Forall (fun pt => price_amount pt = Some (amount_or_0 pt)) (snd st);
    si_range : Forall (fun pt => in_range lo hi (amount_or_0 pt)) (snd st);
    si_distinct : distinct_nums (map amount_or_0 (snd st));
    si_source : Forall (fun pt => exists m, In m ms /\ amount_or_0 pt = Number_opt (m_group m))
                       (snd st)
  }.

(** The three match lists of [parseGrailedPrices], in the order they are
    scanned. *)
Definition grailed_matches (html : string) : list MatchArr :=
  matchAll re_priceMatches html ++ matchAll re_usdMatches html
  ++ matchAll re_plainDollar html.

(** The two match lists of [parseEbayPrices]. *)
Definition ebay_matches (html : string) : list MatchArr :=
  matchAll re_ebayPrice html ++ matchAll re_spanPrice html.



(** A page that embeds one price. *)
Definition html_price (a : string) : string :=
  ("{" ++ q ++ "price" ++ q ++ ":" ++ q ++ a ++ q ++ "}")%string.

(** Points stored by earlier runs. *)
Definition stale_grailed : SuppPoint :=
  scraped "2024-05-01" (Dec 100 0) "grailed" GRAILED_SEARCH.

(** A run whose only successful fetch is the Grailed page, showing one
    price, over a store that already holds a Grailed point. *)
Definition world_grailed : MarketWorld :=
  mkMarketWorld "2024-06-10" (FileEntries [stale_grailed])
    (fun u => if String.eqb u GRAILED_SEARCH then Ok (html_price "120")
              else Throw "HTTP 503")
    (fun _ _ => Throw "Wayback CDX HTTP 503")
    (fun _ => Throw "HTTP 503").









(** A world where nothing but the live page answers. *)
Definition world_live (html : string) (f : SuppFile) : World :=
  mkWorld "2024-06-10"
    (fun u => if String.eqb u (src_url SOURCE) then Ok html else Throw "HTTP 503")
    (fun _ => Throw "HTTP 503")
    (fun _ _ _ => Throw "HTTP 503")
    f
    (fun _ => Ok tt).









(** [a] is not dated after [b]. *)
Definition date_le (a b : Point) : Prop := localeCompare (date a) (date b) <> Gt.

(** [p] is dated [d]. *)
Definition dated (d : string) (p : Point) : bool := String.eqb (date p) d.

(** The shortest representation of a number: what [show_num] prints. *)
Definition normal (x : jsnum) : jsnum :=
  match x with
  | NaN => NaN
  | Dec m e => Dec (fst (strip_zeros m e)) (snd (strip_zeros m e))
  end.

(** The text of a number in normal form. *)
Definition show_normal (m : Z) (e : nat) : string :=
  ((if (m <? 0)%Z then "-" else "") ++
   to_digits (Z.abs m / pow10 e) ++
   match e with
   | O => ""
   | S _ => "." ++ fixed_digits e (Z.abs m mod pow10 e)
   end)%string.

(** A live point, an archived copy of the same day and price, and an older
    archived point. *)
Definition live_point : Point :=
  mkPoint "2024-06-10" "sale" (mkPrice (Dec 22500 2) "CAD")
          (mkPriceCad (Dec 22500 2) None) "arcteryx-ca" (src_url SOURCE) None.

Definition archived_point : Point :=
  mkPoint "2024-06-10" "sale" (mkPrice (Dec 225 0) "CAD")
          (mkPriceCad (Dec 22500 2) None) "arcteryx-ca" (src_url SOURCE)
          (Some (mkWayback "20240610083000")).

Definition older_point : Point :=
  mkPoint "2023-11-02" "sale" (mkPrice (Dec 210 0) "CAD")
          (mkPriceCad (Dec 21000 2) None) "arcteryx-ca" (src_url SOURCE)
          (Some (mkWayback "20231102120000")).

(** An entry without a date. *)
Definition supp_undated (a : Z) : SuppPoint :=
  mkSupp None (Some "sale") (Some (mkSuppPrice (Some (Dec a 0)) (Some "USD")))
         (Some "X") (Some "https://example.org/x") None.

(** The offer block of a product page priced 225.00 USD. *)
Definition html_usd : string :=
  (q ++ "offers" ++ q ++ ":{" ++ q ++ "priceCurrency" ++ q ++ ":" ++ q ++ "USD" ++ q
   ++ "," ++ q ++ "price" ++ q ++ ":" ++ q ++ "225.00" ++ q ++ "}")%string.

(** [a] is an earlier day than [b]. *)
Definition civil_lt (a b : civil) : Prop :=
  (c_year a < c_year b)%Z \/
  (c_year a = c_year b /\
   ((c_month a < c_month b)%Z \/ (c_month a = c_month b /\ (c_day a < c_day b)%Z))).

(** [a] is the calendar day just before [b]: both are days of the calendar,
    [a] is earlier, and no day of the calendar lies between them. *)
Definition day_before (a b : civil) : Prop :=
  valid_civil a = true /\ valid_civil b = true /\ civil_lt a b /\
  forall x, valid_civil x = true -> civil_lt a x -> civil_lt x b -> False.

(** An entry of the data model: a source id and an ISO calendar date. *)
Definition wf_supp (pt : SuppPoint) : bool :=
  match s_date pt, s_sourceId pt with
  | Some d, Some _ =>
      match parse_iso_date d with Some _ => true | None => false end
  | _, _ => false
  end.

(** Equality of two possibly missing texts. *)
Definition opt_str_eqb (a b : option string) : bool :=
  match a, b with
  | Some x, Some y => String.eqb x y
  | None, None => true
  | _, _ => false
  end.

(** Same [sourceId] and same [date]. *)
Definition same_group (p x : SuppPoint) : bool :=
  opt_str_eqb (s_sourceId p) (s_sourceId x) && opt_str_eqb (s_date p) (s_date x).

(** [x] is filed under the key [k]. *)
Definition keyed (k : string) (x : SuppPoint) : bool := String.eqb (group_key x) k.

(** What the [Map] holds after the points [l] were filed: one entry per key,
    each the points of [l] with that key, in order. *)
Record groups_inv (l : list SuppPoint) (m : list (string * list SuppPoint)) : Prop :=
  mkGroupsInv {
    gi_keys : NoDup (map fst m);
    gi_group : forall k g, In (k, g) m -> g = filter (keyed k) l /\ g <> [];
    gi_cover : forall x, In x l -> In (group_key x) (map fst m);
    gi_count : List.length (List.concat (map snd m)) = List.length l
  }.

(* ----------------------------------------------------------------- *)
(** ** The language of a regular expression *)

(** The texts a regular expression can consume, whatever the order in which
    the matcher tries them. *)
Inductive lang : regex -> string -> Prop :=
| lang_eps : lang REps ""
| lang_chr (p : ascii -> bool) (c : ascii) :
    p c = true -> lang (RChar p) (String c "")
| lang_seq (r1 r2 : regex) (a b : string) :
    lang r1 a -> lang r2 b -> lang (RSeq r1 r2) (a ++ b)
| lang_alt_l (r1 r2 : regex) (a : string) : lang r1 a -> lang (RAlt r1 r2) a
| lang_alt_r (r1 r2 : regex) (a : string) : lang r2 a -> lang (RAlt r1 r2) a
| lang_star_stop (r : regex) : lang (RStar r) ""
| lang_star_more (r : regex) (a b : string) :
    lang r a -> lang (RStar r) b -> lang (RStar r) (a ++ b)
| lang_rep_stop (lo hi : nat) (r : regex) :
    lo = O \/ hi = O -> lang (RRep lo hi r) ""
| lang_rep_more (lo hi : nat) (r : regex) (a b : string) :
    lang r a -> lang (RRep (Nat.pred lo) hi r) b -> lang (RRep lo (S hi) r) (a ++ b)
| lang_group (r : regex) (a : string) : lang r a -> lang (RGroup r) a.

(** Every capturing group of [r] consumes only texts that satisfy [Q]. *)
Fixpoint groups_ok (Q : string -> Prop) (r : regex) : Prop :=
  match r with
  | REps | RChar _ => True
  | RSeq r1 r2 | RAlt r1 r2 => groups_ok Q r1 /\ groups_ok Q r2
  | RStar r1 | RRep _ _ r1 => groups_ok Q r1
  | RGroup r1 => (forall c, lang r1 c -> Q c) /\ groups_ok Q r1
  end.

(** A capture, when there is one, satisfies [Q]. *)
Definition opt_sat (Q : string -> Prop) (o : option string) : Prop :=
  match o with
  | Some c => Q c
  | None => True
  end.

(** What a successful run of the matcher on [r] gives: it consumed a text of
    the language of [r], and the capture it hands on satisfies [Q]. *)
Definition sound_at (A : Type) (Q : string -> Prop) (r : regex) : Prop :=
  forall (s : string) (cap : option string) (k : string -> option string -> option A) (x : A),
    opt_sat Q cap ->
    rmatch r s cap k = Some x ->
    exists m s1 cap1,
      s = (m ++ s1)%string /\ lang r m /\ opt_sat Q cap1 /\ k s1 cap1 = Some x.

(** Digits, or digits, a point and digits. *)
Definition decimal_literal (c : string) : Prop :=
  exists i,
    all_digits i = true /\ nonempty i = true /\
    (c = i \/
     exists f, all_digits f = true /\ nonempty f = true /\ c = (i ++ String "."%char f)%string).

Fixpoint all_upper (s : string) : bool :=
  match s with
  | EmptyString => true
  | String c s' => is_upper c && all_upper s'
  end.

Fixpoint all_alpha (s : string) : bool :=
  match s with
  | EmptyString => true
  | String c s' => is_alpha c && all_alpha s'
  end.

(** Three letters. *)
Definition three_letters (c : string) : Prop :=
  String.length c = 3%nat /\ all_alpha c = true.

(** A number that is not [NaN] and not negative (amounts are exact decimals:
    the model has no infinities). *)
Definition nonneg_number (x : jsnum) : Prop :=
  exists m e, x = Dec m e /\ (0 <= m)%Z.

(** A point as the marketplace extractors build it: dated [d], a sale in
    USD of the source [sid], with an amount between [lo] and [hi]. *)
Definition scraped_from (lo hi : Z) (d sid : string) (urls : list string)
  (pt : SuppPoint) : Prop :=
  exists a u,
    pt = scraped d a sid u /\ In u urls /\ in_range (num_of_Z lo) (num_of_Z hi) a.

(** Every match whose amount lies between [lo] and [hi] is represented by a
    point with that amount. *)
Definition covers (lo hi : Z) (ms : list MatchArr) (pts : list SuppPoint) : Prop :=
  forall m,
    In m ms ->
    in_range (num_of_Z lo) (num_of_Z hi) (Number_opt (m_group m)) ->
    exists pt, In pt pts /\ num_eqb (Number_opt (m_group m)) (amount_or_0 pt) = true.


(** [l1] is [l2] with some elements left out, the order kept. *)
Inductive subseq {A : Type} : list A -> list A -> Prop :=
| subseq_nil : subseq [] []
| subseq_skip (x : A) (l1 l2 : list A) : subseq l1 l2 -> subseq l1 (x :: l2)
| subseq_keep (x : A) (l1 l2 : list A) : subseq l1 l2 -> subseq (x :: l1) (x :: l2).

(** The timestamps of the index rows after the header: the first column,
    without the missing and the empty ones. *)
Definition row_stamps (rows : list (list string)) : list string :=
  filter nonempty (flat_map (fun row => match row with t :: _ => [t] | [] => [] end) rows).

(** The first element of [l] whose key is [k]. *)
Definition first_with (kf : string -> string) (k : string) (l : list string)
  : option string :=
  find (fun t => String.eqb (kf t) k) l.

(** Each text is smaller than all the later ones. *)
Definition strictly_ascending (l : list string) : Prop :=
  StronglySorted (fun a b => String.compare a b = Lt) l.

(** The loop [for (x of l) if (!map.has(kf(x))) map.set(kf(x), x)]. *)
Definition first_per_key (kf : string -> string) (l : list string)
  (m : list (string * string)) : list (string * string) :=
  fold_left (fun m x => FetchMarketplaceWaybackRun.byDate_set (kf x) x m) l m.

(** The map built from the elements [p]: one entry per key, holding the
    first element with that key. *)
Record first_inv (kf : string -> string) (p : list string)
  (m : list (string * string)) : Prop :=
  mkFirstInv {
    fi_nodup : NoDup (map fst m);
    fi_first : forall k v, In (k, v) m -> first_with kf k p = Some v;
    fi_cover : forall x, In x p -> In (kf x) (map fst m)
  }.

(** The month of a timestamp: [ts.slice(0, 6)]. *)
Definition month_of (ts : string) : string := slice 0 6 ts.

(** An archive index whose rows are a header, three captures on two days,
    and a row without timestamp. *)
Definition cdx_rows : list (list string) :=
  [["timestamp"; "statuscode"]; ["20240302101500"; "200"]; ["20240105083000"; "200"];
   [""; "200"]; ["20240302235959"; "200"]].

Definition world_cdx : World :=
  mkWorld "2024-06-10" (fun _ => Throw "HTTP 503") (fun _ => Ok cdx_rows)
    (fun _ _ _ => Throw "HTTP 503") FileMissing (fun _ => Ok tt).

Definition market_cdx : MarketWorld :=
  mkMarketWorld "2024-06-10" FileMissing (fun _ => Throw "HTTP 503")
    (fun _ _ => Ok cdx_rows) (fun _ => Throw "HTTP 503").

(** The world of the next run: the same outside, the store as the last run
    left it. *)
Definition with_store (w : MarketWorld) (store : list SuppPoint) : MarketWorld :=
  mkMarketWorld (mw_today w) (FileEntries store) (mw_fetchText w) (mw_cdx w)
                (mw_fetchSnapshot w).

(** The state of the loops that collect new points over a store with the
    keys [keys0]: [existingKeys] holds the keys of the store and of the new
    points; the new points have pairwise distinct keys, none of the store. *)
Record add_inv (keys0 : list string) (st : list string * list SuppPoint) : Prop :=
  mkAddInv {
    ai_keys : forall k, In k (fst st) <-> In k keys0 \/ In k (map seenKey (snd st));
    ai_nodup : NoDup (map seenKey (snd st));
    ai_fresh : Forall (fun pt => ~ In (seenKey pt) keys0) (snd st)
  }.

(** The order [merged.sort] asks for. *)
Definition date_amount_le (a b : SuppPoint) : Prop := by_date_then_amount a b <> Gt.

(** How the rate [r] of a point in [cur], dated [d], was obtained: it is 1
    for CAD, and the answer of the rate service otherwise. *)
Definition rate_of (w : World) (cur d : string) (r : jsnum) : Prop :=
  (cur = "CAD" /\ r = Dec 1 0) \/
  (cur <> "CAD" /\ UpdateDataRun.fxRate w d cur "CAD" = Ok r).

(** The three ways a point gets into [points]: read off the live page, read
    off the archived page of a snapshot, or taken over from a supplementary
    entry that has every required field. *)
Inductive emitted (w : World) (snapshots : list string) (supp : list SuppPoint)
  : Point -> Prop :=
| emitted_live (a : jsnum) (cur : string) (r : jsnum) :
    nonneg_number a -> String.length cur = 3%nat -> all_upper cur = true ->
    rate_of w cur (w_today w) r ->
    emitted w snapshots supp
      (mkPoint (w_today w) "sale" (mkPrice a cur) (priceCadOf a r cur (w_today w))
         (src_id SOURCE) (src_url SOURCE) None)
| emitted_snapshot (ts : string) (a : jsnum) (cur : string) (r : jsnum) :
    In ts snapshots ->
    nonneg_number a -> String.length cur = 3%nat -> all_upper cur = true ->
    rate_of w cur (isoDateFromWaybackTimestamp ts) r ->
    emitted w snapshots supp
      (mkPoint (isoDateFromWaybackTimestamp ts) "sale" (mkPrice a cur)
         (priceCadOf a r cur (isoDateFromWaybackTimestamp ts))
         (src_id ARCTERYX_SOURCE) (src_url ARCTERYX_SOURCE) (Some (mkWayback ts)))
| emitted_supp (pt : SuppPoint) (d k : string) (pr : SuppPrice) (a : jsnum)
    (sid u cur : string) (r : jsnum) :
    In pt supp ->
    s_date pt = Some d -> s_kind pt = Some k -> s_price pt = Some pr ->
    s_sourceId pt = Some sid -> s_url pt = Some u -> sp_amount pr = Some a ->
    nonempty d = true -> nonempty k = true -> nonempty sid = true -> nonempty u = true ->
    truthy_num (Some a) = true ->
    call_toUpperCase (js_or (sp_currency pr) "USD") = Ok cur ->
    rate_of w cur d r ->
    emitted w snapshots supp
      (mkPoint d (if String.eqb k "msrp" then "msrp" else "sale") (mkPrice a cur)
         (priceCadOf a r cur d) sid u (s_wayback pt)).

(** The snapshots a run reads: none without [--wayback] or when the index
    cannot be had, the timestamps of the index otherwise. *)
Definition snapshots_of (w : World) (includeWayback : bool) : list string :=
  if includeWayback then
    match UpdateDataRun.getWaybackAllSnapshots w (src_url ARCTERYX_SOURCE) with
    | Ok l => l
    | Throw _ => []
    end
  else [].

(** A world whose live page is priced 225.00 USD and whose rate service
    answers 1.35 for every day. *)
Definition world_usd : World :=
  mkWorld "2024-06-10"
    (fun u => if String.eqb u (src_url SOURCE) then Ok html_usd else Throw "HTTP 503")
    (fun _ => Throw "HTTP 503")
    (fun _ _ _ => Ok (Some (Dec 135 2)))
    FileMissing
    (fun _ => Ok tt).

Definition usd_point : Point :=
  mkPoint "2024-06-10" "sale" (mkPrice (Dec 22500 2) "USD")
          (mkPriceCad (Dec 30375 2)
             (Some (mkFx "USD/CAD" (Dec 135 2) "frankfurter.app" "2024-06-10")))
          "arcteryx-ca" (src_url SOURCE) None.

(** An entry without its date: everything date spreading leaves alone. *)
Definition undated (pt : SuppPoint) : SuppPoint :=
  mkSupp None (s_kind pt) (s_price pt) (s_sourceId pt) (s_url pt) (s_wayback pt).

(** A world whose live page answers and whose supplementary file holds two
    entries of one source that lack a date. *)
Definition world_undated : World :=
  world_live html_jsonld (FileEntries [supp_undated 120; supp_undated 150]).

(* ----------------------------------------------------------------- *)
(** ** The earlier updater (one retailer, prices in USD) *)

Definition CHCM_SOURCE : SourceDescriptor :=
  mkSource "chcm" "C'H'C'M'"
           "https://chcmshop.com/collections/hats/products/veilance-bucket-hat-carmine" "USD".

(** [[0-9.]] and [[0-9,.]] *)
Definition is_digit_or_point (c : ascii) : bool := is_digit c || Ascii.eqb c "."%char.
Definition is_digit_comma_point (c : ascii) : bool :=
  is_digit c || Ascii.eqb c ","%char || Ascii.eqb c "."%char.

(** [[\s\S]{0,n}?] followed by [rest]: the lazy quantifier tries [rest]
    first, and consumes one more character only when [rest] fails. *)
Fixpoint rlazy_any (n : nat) (rest : regex) : regex :=
  match n with
  | O => rest
  | S n' => RAlt rest (RSeq (RChar (fun _ => true)) (rlazy_any n' rest))
  end.

(** [/property="og:price:amount"\s+content="([0-9.]+)"/i] *)
Definition re_ogAmount : regex :=
  rseq [rlit true ("property=" ++ q ++ "og:price:amount" ++ q); rplus (RChar is_space);
        rlit true ("content=" ++ q); RGroup (rplus (RChar is_digit_or_point));
        rchr true dquote].

(** [/property="og:price:currency"\s+content="([A-Z]{3})"/i] *)
Definition re_ogCurrency : regex :=
  rseq [rlit true ("property=" ++ q ++ "og:price:currency" ++ q); rplus (RChar is_space);
        rlit true ("content=" ++ q); RGroup (RRep 3 3 (RChar is_alpha));
        rchr true dquote].

(** [/Regular price[\s\S]{0,200}?\$\s*([0-9,.]+)/i] *)
Definition re_regularBlock : regex :=
  RSeq (rlit true "Regular price")
       (rlazy_any 200
          (rseq [rchr true "$"%char; rspaces; RGroup (rplus (RChar is_digit_comma_point))])).

(** [s.replace(/,/g, '')] *)
Fixpoint remove_commas (s : string) : string :=
  match s with
  | EmptyString => EmptyString
  | String c s' =>
      if Ascii.eqb c ","%char then remove_commas s' else String c (remove_commas s')
  end.

(** [Number(s)] on a text made of digits and points: the empty text is 0; a
    point may come first or last, but not alone, and only once. *)
Definition Number_dotted (s : string) : jsnum :=
  match s with
  | EmptyString => Dec 0 0
  | _ =>
      match split_at "."%char s with
      | (i, None) => if all_digits i then Dec (of_digits i) 0 else NaN
      | (i, Some f) =>
          if all_digits i && all_digits f && (nonempty i || nonempty f)
          then Dec (of_digits (i ++ f)) (String.length f)
          else NaN
      end
  end.

Module UpdateDataChcmRun.

(** [parsePriceFromHtml] of the earlier updater. *)
Definition parsePriceFromHtml (html : string) : Parsed :=
  let ogAmount := group1_opt (String_match re_ogAmount html) in
  let ogCurrency := group1_opt (String_match re_ogCurrency html) in
  let regularBlock := String_match re_regularBlock html in
  let regular :=
    match group1_opt regularBlock with
    | Some c => if truthy_str (Some c) then Some (Number_dotted (remove_commas c)) else None
    | None => None
    end in
  let current :=
    match ogAmount with
    | Some c => if truthy_str (Some c) then Some (Number_dotted c) else None
    | None => None
    end in
  mkParsed current regular (or_str ogCurrency "USD").

(** The object literals of [buildSeries]: the conversion record always names
    the pair USD/CAD. *)
Definition chcm_point (d k : string) (a : jsnum) (cur : string) (r : jsnum)
  (wb : option Wayback) : Point :=
  mkPoint d k (mkPrice a cur)
          (mkPriceCad (Number (toFixed2 (num_mul a r)))
                      (Some (mkFx "USD/CAD" r "frankfurter.app" d)))
          (src_id CHCM_SOURCE) (src_url CHCM_SOURCE) wb.

Definition page_points (p : Parsed) (cur : string) (r : jsnum) (d : string)
  (wb : option Wayback) : list Point :=
  (match current p with
   | Some c => [chcm_point d "sale" c cur r wb]
   | None => []
   end) ++
  (match regular p with
   | Some c => [chcm_point d "msrp" c cur r wb]
   | None => []
   end).

(** The rows of the index after the header, destructured as [[timestamp]]:
    a row without a first column gives [undefined], on which [slice] is a
    TypeError. *)
Fixpoint row_timestamps (rows : list (list string)) : result (list string) :=
  match rows with
  | [] => Ok []
  | row :: rest =>
      match row with
      | [] => Throw "TypeError: Cannot read properties of undefined (reading 'slice')"
      | t :: _ => ts <- row_timestamps rest ;; Ok (t :: ts)
      end
  end.

(** [getWaybackMonthlySnapshots(originalUrl, maxMonths)] *)
Definition getWaybackMonthlySnapshots (w : World) (originalUrl : string) (maxMonths : nat)
  : result (list string) :=
  raw <- w_cdx w originalUrl ;;
  timestamps <- row_timestamps (tl raw) ;;
  Ok (UpdateDataChcm.getWaybackMonthlySnapshots timestamps maxMonths).

(** One turn of the loop over the snapshots: a failed fetch, a page without
    price and a failed rate lookup skip the snapshot. *)
Definition snapshot_points (w : World) (ts : string) : list Point :=
  let dateISO := isoDateFromWaybackTimestamp ts in
  match w_fetchText w ("https://web.archive.org/web/" ++ ts ++ "/" ++ src_url CHCM_SOURCE) with
  | Throw _ => []
  | Ok htmlSnap =>
      let p := parsePriceFromHtml htmlSnap in
      match current p, regular p with
      | None, None => []
      | _, _ =>
          match UpdateDataRun.fxRate w dateISO "USD" "CAD" with
          | Throw _ => []
          | Ok rate =>
              page_points p (or_str (Some (p_currency p)) "USD") rate dateISO
                          (Some (mkWayback ts))
          end
      end
  end.

Definition the_product : Product :=
  mkProduct PRODUCT_NAME "Arc'teryx" "Veilance" COLOR "CAD"
    [ ("This tracker focuses on the " ++ PRODUCT_NAME ++ " in the " ++ COLOR ++ " colour.")%string;
      "Historical points may be sourced from Web Archive snapshots when available.";
      "Prices are converted to CAD using historical FX rates (USD→CAD) for the capture date." ].

Definition buildSeries (w : World) (includeWayback : bool) : result Artifact :=
  let todayISO := w_today w in
  usdToCad <- UpdateDataRun.fxRate w todayISO "USD" "CAD" ;;
  html <- w_fetchText w (src_url CHCM_SOURCE) ;;
  let parsed := parsePriceFromHtml html in
  let live := page_points parsed (p_currency parsed) usdToCad todayISO None in
  historical <-
    (if includeWayback then
       snapshots <- getWaybackMonthlySnapshots w (src_url CHCM_SOURCE) 48 ;;
       Ok (flat_map (snapshot_points w) snapshots)
     else Ok []) ;;
  Ok (mkArtifact the_product [CHCM_SOURCE] (mergeSeries (live ++ historical))).

Definition main (w : World) (includeWayback : bool) : UpdateDataRun.Outcome :=
  match buildSeries w includeWayback with
  | Throw e => UpdateDataRun.Exit1 e
  | Ok data =>
      match w_writeFile w data with
      | Throw e => UpdateDataRun.Exit1 e
      | Ok _ => UpdateDataRun.Wrote data
      end
  end.

End UpdateDataChcmRun.

(** A page of the earlier retailer: 180.00 USD, regular price 1,225.00. *)
Definition html_chcm : string :=
  "<meta property=" ++ q ++ "og:price:amount" ++ q ++ " content=" ++ q ++ "180.00" ++ q ++ ">"
  ++ "<meta property=" ++ q ++ "og:price:currency" ++ q ++ " content=" ++ q ++ "USD" ++ q ++ ">"
  ++ "<span>Regular price</span> <s>$ 1,225.00</s>".

(** A page whose amount is not a number. *)
Definition html_chcm_bad : string :=
  "<meta property=" ++ q ++ "og:price:amount" ++ q ++ " content=" ++ q ++ "1.2.3" ++ q ++ ">".

(** A world where the page of the earlier retailer and the rate service
    answer, and the archive index does not. *)
Definition world_chcm : World :=
  mkWorld "2024-06-10"
    (fun u => if String.eqb u (src_url CHCM_SOURCE) then Ok html_chcm else Throw "HTTP 503")
    (fun _ => Throw "HTTP 503")
    (fun _ _ _ => Ok (Some (Dec 135 2)))
    FileMissing
    (fun _ => Ok tt).

Definition chcm_sale : Point :=
  UpdateDataChcmRun.chcm_point "2024-06-10" "sale" (Dec 18000 2) "USD" (Dec 135 2) None.

Definition chcm_msrp : Point :=
  UpdateDataChcmRun.chcm_point "2024-06-10" "msrp" (Dec 122500 2) "USD" (Dec 135 2) None.

(** A text made of digits and points. *)
Fixpoint dotted (s : string) : bool :=
  match s with
  | EmptyString => true
  | String c s' => is_digit_or_point c && dotted s'
  end.

(** A text made of digits, commas and points. *)
Fixpoint comma_dotted (s : string) : bool :=
  match s with
  | EmptyString => true
  | String c s' => is_digit_comma_point c && comma_dotted s'
  end.

(** Every way through [r] goes through a capturing group. *)
Fixpoint sets_group (r : regex) : bool :=
  match r with
  | RGroup _ => true
  | RSeq r1 r2 => sets_group r1 || sets_group r2
  | RAlt r1 r2 => sets_group r1 && sets_group r2
  | _ => false
  end.

(** A successful run of the matcher on [r] hands a capture on when it was
    given one or when [r] sets one. *)
Definition defined_at (A : Type) (r : regex) : Prop :=
  forall (s : string) (cap : option string) (k : string -> option string -> option A) (x : A),
    rmatch r s cap k = Some x ->
    exists s1 cap1,
      k s1 cap1 = Some x /\ (cap <> None \/ sets_group r = true -> cap1 <> None).

(* ----------------------------------------------------------------- *)
(** ** The chart ([src/App.tsx], the revision with the sale and msrp toggles) *)

(** A point of [price-series.json] as the page reads it: a number that was
    written as [null] is [None], and so is the amount of a missing
    [priceCad]. *)
Record PricePoint : Type :=
  mkPricePoint {
    pp_date : string;
    pp_kind : string;
    pp_amount : option jsnum;
    pp_currency : string;
    pp_cad : option jsnum;
    pp_sourceId : string;
    pp_url : string
  }.

(** [JSON.stringify] writes [NaN] as [null]. *)
Definition json_num (x : jsnum) : option jsnum :=
  match x with
  | NaN => None
  | Dec _ _ => Some x
  end.

(** A point of the artifact, written to the file and read back. *)
Definition read_back (p : Point) : PricePoint :=
  mkPricePoint (date p) (kind p) (json_num (amount (price p))) (currency (price p))
               (json_num (cad_amount (priceCad p))) (sourceId p) (url p).

Module App.

(** [{ ...p, y, currency }] *)
Record Shown : Type :=
  mkShown { sh_point : PricePoint; y : option jsnum; sh_currency : string }.

(** [y: p.priceCad?.amount ?? p.price.amount] and
    [currency: p.priceCad?.amount != null ? 'CAD' : p.price.currency] *)
Definition shown (p : PricePoint) : Shown :=
  mkShown p
          (match pp_cad p with Some c => Some c | None => pp_amount p end)
          (match pp_cad p with Some _ => "CAD" | None => pp_currency p end).

(** [(p) => (p.kind === 'sale' ? showSale : showMsrp)] *)
Definition visible (showSale showMsrp : bool) (s : Shown) : bool :=
  if String.eqb (pp_kind (sh_point s)) "sale" then showSale else showMsrp.

Definition by_shown_date (a b : Shown) : comparison :=
  localeCompare (pp_date (sh_point a)) (pp_date (sh_point b)).

(** The memo [points]. *)
Definition points (series : list PricePoint) (showSale showMsrp : bool) : list Shown :=
  sort_by by_shown_date (filter (visible showSale showMsrp) (map shown series)).

Definition tup (s : Shown) : string * option jsnum := (pp_date (sh_point s), y s).

Definition saleSeries (pts : list Shown) : list (string * option jsnum) :=
  map tup (filter (fun s => String.eqb (pp_kind (sh_point s)) "sale") pts).

Definition msrpSeries (pts : list Shown) : list (string * option jsnum) :=
  map tup (filter (fun s => String.eqb (pp_kind (sh_point s)) "msrp") pts).

(** [{ min: dates[0] ?? null, max: dates[dates.length - 1] ?? null }] *)
Definition domain (pts : list Shown) : option string * option string :=
  let dates := map (fun s => pp_date (sh_point s)) pts in
  (hd_error dates, last (map Some dates) None).

End App.

(** [a] is not dated after [b] on the chart. *)
Definition shown_le (a b : App.Shown) : Prop := App.by_shown_date a b <> Gt.

(** An entry of source X dated [d], priced [a] USD. *)
Definition supp_x_on (d : string) (a : Z) : SuppPoint :=
  mkSupp (Some d) (Some "sale") (Some (mkSuppPrice (Some (Dec a 0)) (Some "USD")))
         (Some "X") (Some "https://example.org/x") None.


(** The point is dated by an ISO calendar date. *)
Definition iso_dated (p : PricePoint) : bool :=
  match parse_iso_date (pp_date p) with
  | Some _ => true
  | None => false
  end.

(** A series of two points, a sale and a regular price. *)
Definition chart_series_ex : list PricePoint :=
  [mkPricePoint "2024-06-10" "sale" (Some (Dec 22500 2)) "USD" (Some (Dec 30375 2))
                "arcteryx-ca" (src_url SOURCE);
   mkPricePoint "2023-11-02" "msrp" (Some (Dec 210 0)) "CAD" (Some (Dec 21000 2))
                "arcteryx-ca" (src_url SOURCE);
   mkPricePoint "2024-01-15" "sale" (Some (Dec 199 0)) "CAD" None
                "grailed" GRAILED_SEARCH].

(* ================================================================= *)
(** * Part II.  Properties                                            *)
(* ================================================================= *)

(* ----------------------------------------------------------------- *)
(** ** The model at work *)

Example show_num_ex1 : show_num (Number "199.990") = "199.99".
Proof. reflexivity. Qed.

Example show_num_ex2 : show_num (Dec 2250 1) = "225".
Proof. reflexivity. Qed.

Example toFixed2_ex1 : toFixed2 (Number "225.999") = "226.00".
Proof. reflexivity. Qed.

Example toFixed2_ex2 : toFixed2 (num_mul (Number "225.00") (Number "1.37")) = "308.25".
Proof. reflexivity. Qed.

Example parseGrailed_ex :
  parseGrailedPrices "2024-06-10" html_two_prices
  = Ok [scraped "2024-06-10" (Dec 19999 2) "grailed" GRAILED_SEARCH].
Proof. vm_compute. reflexivity. Qed.

Example parsePrice_ex :
  UpdateData.parsePriceFromHtml html_jsonld = Ok (mkParsed (Some (Dec 22500 2)) None "CAD").
Proof. vm_compute. reflexivity. Qed.

Example parsePrice_text :
  UpdateData.parsePriceFromHtml "<b>Now $ 180.5 only</b>" = Ok (mkParsed (Some (Dec 180 0)) None "CAD").
Proof. vm_compute. reflexivity. Qed.

Example parseEbay_ex :
  FetchMarketplace.parseEbayPrices "2024-06-10" "<span class=s-item__price>$120.00</span> $49 $ 75 usd"
  = Ok [scraped "2024-06-10" (Dec 12000 2) "ebay" EBAY_SOLD;
        scraped "2024-06-10" (Dec 75 0) "ebay" EBAY_SOLD].
Proof. vm_compute. reflexivity. Qed.

Example spread_ex :
  spreadSupplementaryDates [supp_x 150; supp_x 120; supp_x 200]
  = Ok [with_date (supp_x 120) "2024-06-08";
        with_date (supp_x 150) "2024-06-09";
        with_date (supp_x 200) "2024-06-10"].
Proof. vm_compute. reflexivity. Qed.

Example days_before_ex :
  option_map (fun c => iso_of_civil (days_before 2 c)) (parse_iso_date "2024-03-01")
  = Some "2024-02-28".
Proof. vm_compute. reflexivity. Qed.

(** Outside the data model: two entries of one source that lack a date are
    one group, whose base date is invalid, and [toISOString] throws. *)
Example spread_undated_group_throws :
  spreadSupplementaryDates [supp_undated 120; supp_undated 150]
  = Throw "RangeError: Invalid time value".
Proof. vm_compute. reflexivity. Qed.

(** The rate lookup for the live point is not inside a [try] block: when the
    live page is priced in USD and the lookup fails, the run ends. *)
Example live_rate_failure_ends_run :
  UpdateDataRun.main (world_live html_usd FileMissing) false
  = UpdateDataRun.Exit1 "HTTP 503".
Proof. vm_compute. reflexivity. Qed.

Example sampled_ex :
  sampled (seq 0 30) 10 = [0; 3; 6; 9; 12; 15; 18; 21; 24; 27]%nat.
Proof. vm_compute. reflexivity. Qed.


(* ----------------------------------------------------------------- *)
(** ** Numbers *)

Lemma pow10_pos (e : nat) : (0 < pow10 e)%Z.
Proof. unfold pow10. apply Z.pow_pos_nonneg; lia. Qed.

Lemma pow10_S (e : nat) : pow10 (S e) = (10 * pow10 e)%Z.
Proof. unfold pow10. rewrite Nat2Z.inj_succ, Z.pow_succ_r; lia. Qed.

Lemma pow10_add (a b : nat) : pow10 (a + b) = (pow10 a * pow10 b)%Z.
Proof. unfold pow10. rewrite Nat2Z.inj_add, Z.pow_add_r; lia. Qed.

Lemma num_eqb_refl (a : jsnum) : num_eqb a a = true.
Proof. destruct a; simpl; auto using Z.eqb_refl. Qed.

Lemma num_eqb_sym (a b : jsnum) : num_eqb a b = num_eqb b a.
Proof.
  destruct a, b; simpl; auto.
  destruct (Z.eqb_spec (m * pow10 e0) (m0 * pow10 e)),
           (Z.eqb_spec (m0 * pow10 e) (m * pow10 e0)); congruence.
Qed.

Lemma num_eqb_trans (a b c : jsnum) :
  num_eqb a b = true -> num_eqb b c = true -> num_eqb a c = true.
Proof.
  destruct a as [|m1 e1], b as [|m2 e2], c as [|m3 e3]; simpl; try congruence.
  rewrite !Z.eqb_eq. intros H1 H2.
  pose proof (pow10_pos e2) as P2.
  apply (Z.mul_reg_r _ _ (pow10 e2)); [lia|].
  transitivity (m1 * pow10 e2 * pow10 e3)%Z; [ring|].
  rewrite H1.
  transitivity (m2 * pow10 e3 * pow10 e1)%Z; [ring|].
  rewrite H2. ring.
Qed.

(* ----------------------------------------------------------------- *)
(** ** The marketplace extractors: range and uniqueness *)

Lemma seen_has_false (seen : list jsnum) (a : jsnum) :
  seen_has seen a = false -> Forall (fun b => num_eqb b a = false) seen.
Proof.
  unfold seen_has. induction seen as [|b seen IH]; simpl; intros H; constructor.
  - apply orb_false_iff in H. rewrite num_eqb_sym. tauto.
  - apply IH. apply orb_false_iff in H. tauto.
Qed.

Lemma distinct_snoc (l : list jsnum) (a : jsnum) :
  distinct_nums l -> Forall (fun b => num_eqb b a = false) l -> distinct_nums (l ++ [a]).
Proof.
  unfold distinct_nums. induction 1 as [|b l Hb Hl IH]; simpl; intros HF.
  - repeat constructor.
  - inversion HF; subst. constructor; auto.
    apply Forall_app; split; auto.
Qed.

Lemma scrape_step_inv lo hi d sid u ms st m :
  In m ms -> scrape_inv lo hi ms st -> scrape_inv lo hi ms (scrape_step lo hi d sid u st m).
Proof.
  intros Hm Hinv. destruct st as [seen points]. unfold scrape_step.
  destruct (num_geb (Number_opt (m_group m)) lo) eqn:Hlo; simpl; auto.
  destruct (num_leb (Number_opt (m_group m)) hi) eqn:Hhi; simpl; auto.
  destruct (seen_has seen (Number_opt (m_group m))) eqn:Hs; simpl; auto.
  destruct Hinv as [H1 H2 H3 H4 H5]. simpl in *.
  constructor; simpl.
  - rewrite map_app, H1. reflexivity.
  - apply Forall_app; split; auto.
  - apply Forall_app; split; auto. repeat constructor; auto.
  - rewrite map_app. simpl. apply distinct_snoc; auto.
    rewrite H1. apply Forall_rev. apply seen_has_false; auto.
  - apply Forall_app; split; auto. constructor; auto. exists m. auto.
Qed.

Lemma scrape_loop_inv lo hi d sid u ms all st :
  incl ms all -> scrape_inv lo hi all st ->
  scrape_inv lo hi all (scrape_loop lo hi d sid u ms st).
Proof.
  unfold scrape_loop. revert st.
  induction ms as [|m ms IH]; simpl; intros st Hi Hinv; auto.
  apply IH.
  - intros x Hx. apply Hi. now right.
  - apply scrape_step_inv; auto. apply Hi. now left.
Qed.

Lemma scrape_inv_init lo hi ms : scrape_inv lo hi ms ([], []).
Proof. constructor; simpl; auto; constructor. Qed.

Lemma below_range_excluded (a : jsnum) (x lo : Z) :
  num_geb a (num_of_Z lo) = true -> (x < lo)%Z -> num_eqb a (Dec x 0) = false.
Proof.
  destruct a as [|m e]; simpl; auto.
  unfold num_geb. simpl. intros H Hx.
  pose proof (pow10_pos e). change (pow10 0) with 1%Z in *.
  destruct (Z.compare_spec (m * 1) (lo * pow10 e)); try discriminate;
    apply Z.eqb_neq; nia.
Qed.

Lemma parseGrailedPrices_inv (today html : string) :
  exists st, parseGrailedPrices today html = Ok (snd st) /\
             scrape_inv (num_of_Z 80) (num_of_Z 350) (grailed_matches html) st.
Proof.
  unfold parseGrailedPrices, grailed_matches. eexists. split; [reflexivity|].
  apply scrape_loop_inv; [intros x Hx; apply in_or_app; right; apply in_or_app; now right|].
  apply scrape_loop_inv; [intros x Hx; apply in_or_app; right; apply in_or_app; now left|].
  apply scrape_loop_inv; [intros x Hx; apply in_or_app; now left|].
  apply scrape_inv_init.
Qed.

(** C8. For every HTML text the marketplace extractor returns only amounts
    it read from a match and that lie in [80, 350], and returns no amount
    twice; on a page with the prices 5 and 199.99 it returns 199.99 alone. *)
Theorem C8_plausibility_filter :
  (forall today html : string,
      exists pts,
        parseGrailedPrices today html = Ok pts /\
        Forall (fun pt =>
                  exists a, price_amount pt = Some a /\
                            num_geb a (num_of_Z 80) = true /\
                            num_leb a (num_of_Z 350) = true /\
                            exists m, In m (grailed_matches html) /\ a = Number_opt (m_group m))
               pts /\
        distinct_nums (map amount_or_0 pts) /\
        Forall (fun pt => num_eqb (amount_or_0 pt) (Number "5") = false) pts) /\
  parseGrailedPrices "2024-06-10" html_two_prices
  = Ok [scraped "2024-06-10" (Number "199.99") "grailed" GRAILED_SEARCH].
Proof.
  split; [|vm_compute; reflexivity].
  intros today html.
  destruct (parseGrailedPrices_inv today html) as (st & E & [H1 H2 H3 H4 H5]).
  exists (snd st). split; auto. split; [|split; auto].
  - rewrite Forall_forall in *. intros pt Hpt.
    exists (amount_or_0 pt). destruct (H3 pt Hpt) as [Hlo Hhi]. auto.
  - rewrite Forall_forall in *. intros pt Hpt.
    destruct (H3 pt Hpt) as [Hlo _]. change (Number "5") with (Dec 5 0).
    apply (below_range_excluded _ 5 80 Hlo). lia.
Qed.

(* ----------------------------------------------------------------- *)
(** ** The extractors never throw *)

Lemma js_or_some (o : option string) (d : string) : exists s, js_or o d = Some s.
Proof.
  unfold js_or. destruct o as [[|c s]|]; simpl; eauto.
Qed.

Lemma call_toUpperCase_or (o : option string) (d : string) :
  exists s, call_toUpperCase (js_or o d) = Ok s.
Proof.
  destruct (js_or_some o d) as (s & E). rewrite E. simpl. eauto.
Qed.

Lemma call_toUpperCase_or_none (d : string) :
  call_toUpperCase (js_or None d) = Ok (toUpperCase d).
Proof. reflexivity. Qed.

Lemma parsePriceFromHtml_total (html : string) :
  exists p, UpdateData.parsePriceFromHtml html = Ok p.
Proof.
  unfold UpdateData.parsePriceFromHtml.
  destruct (call_toUpperCase_or (group1_opt (String_match re_jsonLdCurrency html)) "CAD")
    as (s & E).
  rewrite E. simpl. eauto.
Qed.

(** C9. On every text each extractor returns normally.  When nothing
    matches, the product-page extractor returns null prices (and the default
    currency) and the marketplace extractors return an empty list. *)
Theorem C9_extractors_never_throw (today html : string) :
  (exists p,
      UpdateData.parsePriceFromHtml html = Ok p /\
      (String_match re_jsonLdPrice html = None ->
       String_match re_textPrice html = None ->
       current p = None /\ regular p = None) /\
      (String_match re_jsonLdCurrency html = None -> p_currency p = "CAD")) /\
  (exists l,
      parseGrailedPrices today html = Ok l /\
      (grailed_matches html = [] -> l = [])) /\
  (exists l,
      FetchMarketplace.parseEbayPrices today html = Ok l /\
      (ebay_matches html = [] -> l = [])) /\
  (forall snapshotDate, exists l,
      FetchMarketplaceWayback.parseEbayPrices today html snapshotDate = Ok l /\
      (ebay_matches html = [] -> l = [])).
Proof.
  repeat split.
  - destruct (parsePriceFromHtml_total html) as (p & E). exists p. split; auto.
    unfold UpdateData.parsePriceFromHtml in E.
    destruct (call_toUpperCase_or (group1_opt (String_match re_jsonLdCurrency html)) "CAD")
      as (s & Es).
    rewrite Es in E. simpl in E. injection E as E. subst p. simpl. split.
    + intros H1 H2. rewrite H1, H2. simpl. auto.
    + intros H. rewrite H in Es. rewrite call_toUpperCase_or_none in Es.
      injection Es as Es. subst s. reflexivity.
  - eexists. split; [reflexivity|].
    unfold grailed_matches. intros H.
    apply app_eq_nil in H. destruct H as [H1 H]. apply app_eq_nil in H. destruct H as [H2 H3].
    rewrite H1, H2, H3. reflexivity.
  - eexists. split; [reflexivity|].
    unfold ebay_matches. intros H.
    apply app_eq_nil in H. destruct H as [H1 H2]. rewrite H1, H2. reflexivity.
  - intros snapshotDate. eexists. split; [reflexivity|].
    unfold ebay_matches. intros H.
    apply app_eq_nil in H. destruct H as [H1 H2]. rewrite H1, H2. reflexivity.
Qed.

(** The statement of C9 at a text without markup. *)
Lemma C9_extractors_never_throw_witness :
  UpdateData.parsePriceFromHtml "no markup here" = Ok (mkParsed None None "CAD") /\
  parseGrailedPrices "2024-06-10" "no markup here" = Ok [] /\
  FetchMarketplace.parseEbayPrices "2024-06-10" "no markup here" = Ok [].
Proof.
  destruct (C9_extractors_never_throw "2024-06-10" "no markup here")
    as ((p & Ep & Hnull & Hcur) & (l1 & E1 & H1) & (l2 & E2 & H2) & _).
  destruct (Hnull eq_refl eq_refl) as [Hc Hr].
  pose proof (Hcur eq_refl) as Hcad.
  rewrite (H1 eq_refl) in E1. rewrite (H2 eq_refl) in E2.
  destruct p as [c r cur]. simpl in *. subst c r cur.
  repeat split; assumption.
Defined.

(* ----------------------------------------------------------------- *)
(** ** The snapshot sample *)

(** C6, evaluated on the sampler.  With thirty monthly snapshots and a cap of
    ten, the index set is 0, 3, ..., 27 and 29: eleven indices, of which
    [slice(0, 10)] drops the last one, so the latest snapshot is not sampled.
    The monthly locator of the earlier updater keeps the last ten months. *)
Theorem C6_sample_drops_latest :
  sample_indices 30 10 = [0; 3; 6; 9; 12; 15; 18; 21; 24; 27; 29]%nat /\
  sampled thirty_months 10 = map month_stamp [0; 3; 6; 9; 12; 15; 18; 21; 24; 27]%nat /\
  hd_error (sampled thirty_months 10) = hd_error thirty_months /\
  last thirty_months "" = month_stamp 29 /\
  ~ In (month_stamp 29) (sampled thirty_months 10) /\
  sampled (seq 0 12) 10 = seq 0 10 /\
  sampled (seq 0 100) 15 = map (fun i => 7 * i)%nat (seq 0 15) /\
  UpdateDataChcm.getWaybackMonthlySnapshots thirty_months 10
  = map month_stamp (seq 20 10).
Proof.
  repeat split; try (vm_compute; reflexivity).
  vm_compute. intros H.
  repeat (destruct H as [H|H]; [discriminate H|]). exact H.
Qed.

(* ----------------------------------------------------------------- *)
(** ** Sorting by insertion: permutation, stability, order *)

Section SortBy.

Context {A : Type} (cmp : A -> A -> comparison).

Lemma insert_by_perm (x : A) (l : list A) : Permutation (insert_by cmp x l) (x :: l).
Proof.
  induction l as [|y l IH]; simpl; auto.
  destruct (cmp x y); auto.
  rewrite IH. apply perm_swap.
Qed.

Lemma sort_by_perm (l : list A) : Permutation (sort_by cmp l) l.
Proof.
  induction l as [|x l IH]; simpl; auto.
  rewrite insert_by_perm. auto.
Qed.

Lemma sort_by_length (l : list A) : List.length (sort_by cmp l) = List.length l.
Proof. apply Permutation_length, sort_by_perm. Qed.

Lemma sort_by_In (x : A) (l : list A) : In x (sort_by cmp l) <-> In x l.
Proof.
  split; apply Permutation_in; [|symmetry]; apply sort_by_perm.
Qed.

(** Stability: a class of elements none of which is greater than another
    keeps its order. *)
Lemma insert_by_filter (P : A -> bool) (x : A) (l : list A) :
  (forall y, P x = true -> P y = true -> cmp x y <> Gt) ->
  filter P (insert_by cmp x l) = filter P (x :: l).
Proof.
  intros HP. induction l as [|y l IH]; simpl; auto.
  destruct (cmp x y) eqn:E; simpl; auto.
  simpl in IH. rewrite IH.
  destruct (P x) eqn:Px, (P y) eqn:Py; auto.
  exfalso. apply (HP y); auto.
Qed.

Lemma sort_by_filter (P : A -> bool) (l : list A) :
  (forall x y, P x = true -> P y = true -> cmp x y <> Gt) ->
  filter P (sort_by cmp l) = filter P l.
Proof.
  intros HP. induction l as [|x l IH]; simpl; auto.
  rewrite insert_by_filter by (intros y; apply HP).
  simpl. rewrite IH. reflexivity.
Qed.

(** Order: when of two elements one is never greater than the other both
    ways round, the result is sorted. *)
Hypothesis cmp_total : forall x y, cmp x y = Gt -> cmp y x <> Gt.

Lemma insert_by_sorted (x : A) (l : list A) :
  Sorted (not_gt cmp) l -> Sorted (not_gt cmp) (insert_by cmp x l).
Proof.
  induction l as [|y l IH]; simpl; intros HS.
  - repeat constructor.
  - destruct (cmp x y) eqn:E.
    + constructor; auto. constructor. unfold not_gt. congruence.
    + constructor; auto. constructor. unfold not_gt. congruence.
    + inversion HS as [|? ? HS' HR]; subst.
      constructor; auto.
      destruct l as [|z l]; simpl.
      * constructor. apply cmp_total; auto.
      * destruct (cmp x z); constructor; try (apply cmp_total; assumption);
          inversion HR; auto.
Qed.

Lemma sort_by_sorted (l : list A) : Sorted (not_gt cmp) (sort_by cmp l).
Proof.
  induction l as [|x l IH]; simpl.
  - constructor.
  - apply insert_by_sorted; auto.
Qed.

End SortBy.

Lemma Permutation_filter {A : Type} (f : A -> bool) (l l' : list A) :
  Permutation l l' -> Permutation (filter f l) (filter f l').
Proof.
  induction 1 as [|x l l' _ IH|x y l|l l' l'' _ IH1 _ IH2]; simpl; auto.
  - destruct (f x); auto.
  - destruct (f x), (f y); auto. apply perm_swap.
  - etransitivity; eauto.
Qed.

Lemma sort_supp_perm (l l' : list SuppPoint) :
  sort_supp l = Ok l' -> Permutation l l'.
Proof.
  unfold sort_supp. destruct (List.length l <=? 1)%nat.
  - intros E. injection E as <-. auto.
  - destruct (forallb has_date l); [|discriminate].
    intros E. injection E as <-. symmetry. apply sort_by_perm.
Qed.

(* ----------------------------------------------------------------- *)
(** ** The refresh of the store *)







(* ----------------------------------------------------------------- *)
(** ** Decimal digits: printing and reading back *)

Arguments digit_char : simpl never.
Arguments digit_val : simpl never.
Arguments is_digit : simpl never.
Arguments pow10 : simpl never.

Lemma digit_cases (d : Z) :
  (0 <= d <= 9)%Z ->
  d = 0%Z \/ d = 1%Z \/ d = 2%Z \/ d = 3%Z \/ d = 4%Z \/
  d = 5%Z \/ d = 6%Z \/ d = 7%Z \/ d = 8%Z \/ d = 9%Z.
Proof. lia. Qed.

Ltac each_digit d H :=
  destruct (digit_cases d H) as [->|[->|[->|[->|[->|[->|[->|[->|[->| ->]]]]]]]]].

Lemma digit_val_char (d : Z) : (0 <= d <= 9)%Z -> digit_val (digit_char d) = d.
Proof. intros H. each_digit d H; reflexivity. Qed.

Lemma is_digit_char (d : Z) : (0 <= d <= 9)%Z -> is_digit (digit_char d) = true.
Proof. intros H. each_digit d H; reflexivity. Qed.

Lemma mod10_range (x : Z) : (0 <= x mod 10 <= 9)%Z.
Proof. pose proof (Z.mod_pos_bound x 10). lia. Qed.

Lemma string_app_assoc (a b c : string) : ((a ++ b) ++ c = a ++ (b ++ c))%string.
Proof. induction a; simpl; congruence. Qed.

Lemma string_app_nil_r (a : string) : (a ++ "" = a)%string.
Proof. induction a; simpl; congruence. Qed.

Lemma string_length_app (a b : string) :
  String.length (a ++ b) = (String.length a + String.length b)%nat.
Proof. induction a; simpl; auto. Qed.

Lemma all_digits_app (a b : string) :
  all_digits (a ++ b) = all_digits a && all_digits b.
Proof.
  induction a as [|c a IH]; simpl; auto. rewrite IH, andb_assoc. reflexivity.
Qed.

Lemma of_digits_acc_app (a b : string) (acc : Z) :
  of_digits_acc acc (a ++ b) = of_digits_acc (of_digits_acc acc a) b.
Proof. revert acc. induction a as [|c a IH]; simpl; auto. Qed.

Lemma of_digits_acc_shift (b : string) (acc : Z) :
  of_digits_acc acc b = (acc * pow10 (String.length b) + of_digits b)%Z.
Proof.
  unfold of_digits. revert acc. induction b as [|c b IH]; intros acc.
  - simpl. change (pow10 0) with 1%Z. lia.
  - cbn [of_digits_acc String.length]. rewrite IH, (IH (10 * 0 + digit_val c)%Z), pow10_S.
    ring.
Qed.

Lemma of_digits_app (a b : string) :
  of_digits (a ++ b) = (of_digits a * pow10 (String.length b) + of_digits b)%Z.
Proof.
  unfold of_digits at 1. rewrite of_digits_acc_app, of_digits_acc_shift. reflexivity.
Qed.

Lemma of_digits_single (d : Z) :
  (0 <= d <= 9)%Z -> of_digits (String (digit_char d) "") = d.
Proof.
  intros H. unfold of_digits. cbn [of_digits_acc]. rewrite digit_val_char; auto.
Qed.

Lemma fixed_digits_length (w : nat) (x : Z) : String.length (fixed_digits w x) = w.
Proof.
  revert x. induction w as [|w IH]; intros x; simpl; auto.
  rewrite string_length_app, IH. simpl. lia.
Qed.

Lemma fixed_digits_all (w : nat) (x : Z) : all_digits (fixed_digits w x) = true.
Proof.
  revert x. induction w as [|w IH]; intros x; simpl; auto.
  rewrite all_digits_app, IH. cbn [all_digits andb].
  rewrite is_digit_char by apply mod10_range. reflexivity.
Qed.

Lemma fixed_digits_value (w : nat) (x : Z) :
  (0 <= x)%Z -> of_digits (fixed_digits w x) = (x mod pow10 w)%Z.
Proof.
  revert x. induction w as [|w IH]; intros x Hx.
  - simpl. change (pow10 0) with 1%Z. rewrite Z.mod_1_r. reflexivity.
  - cbn [fixed_digits]. rewrite of_digits_app, IH by (apply Z.div_pos; lia).
    rewrite of_digits_single by apply mod10_range.
    cbn [String.length]. change (pow10 1) with 10%Z. rewrite pow10_S.
    pose proof (pow10_pos w).
    rewrite Z.rem_mul_r by lia. lia.
Qed.

Lemma to_digits_fuel_spec (fuel : nat) (x : Z) :
  (0 <= x < 2 ^ Z.of_nat fuel)%Z ->
  of_digits (to_digits_fuel fuel x) = x /\ all_digits (to_digits_fuel fuel x) = true.
Proof.
  revert x. induction fuel as [|f IH]; intros x Hx.
  - simpl in Hx. assert (x = 0%Z) by lia. subst. auto.
  - cbn [to_digits_fuel]. destruct (Z.ltb_spec x 10).
    + split; [apply of_digits_single; lia|]. cbn [all_digits].
      rewrite is_digit_char by lia. auto.
    + rewrite Nat2Z.inj_succ, Z.pow_succ_r in Hx by lia.
      assert (Hq : (0 <= x / 10 < 2 ^ Z.of_nat f)%Z).
      { split; [apply Z.div_pos; lia|].
        apply Z.div_lt_upper_bound; lia. }
      destruct (IH _ Hq) as [IH1 IH2].
      rewrite of_digits_app, all_digits_app, IH1, IH2.
      rewrite of_digits_single by apply mod10_range.
      split.
      * cbn [String.length]. change (pow10 1) with 10%Z.
        pose proof (Z.div_mod x 10). lia.
      * cbn [all_digits andb]. rewrite is_digit_char by apply mod10_range. reflexivity.
Qed.

Lemma to_digits_fuel_bound (x : Z) :
  (0 <= x)%Z -> (0 <= x < 2 ^ Z.of_nat (S (Z.to_nat (Z.log2 x))))%Z.
Proof.
  intros Hx. split; auto.
  rewrite Nat2Z.inj_succ, Z2Nat.id by apply Z.log2_nonneg.
  destruct (Z.eq_dec x 0) as [->|Hne].
  - reflexivity.
  - apply Z.log2_spec. lia.
Qed.

Lemma to_digits_value (x : Z) : (0 <= x)%Z -> of_digits (to_digits x) = x.
Proof. intros Hx. apply to_digits_fuel_spec, to_digits_fuel_bound; auto. Qed.

Lemma to_digits_all (x : Z) : (0 <= x)%Z -> all_digits (to_digits x) = true.
Proof. intros Hx. apply to_digits_fuel_spec, to_digits_fuel_bound; auto. Qed.

Lemma to_digits_nonempty (x : Z) : nonempty (to_digits x) = true.
Proof.
  unfold to_digits. cbn [to_digits_fuel]. destruct (x <? 10)%Z; auto.
  destruct (to_digits_fuel _ _); reflexivity.
Qed.

Lemma is_digit_not (c ch : ascii) :
  is_digit ch = false -> is_digit c = true -> Ascii.eqb c ch = false.
Proof.
  intros H1 H2. destruct (Ascii.eqb_spec c ch); auto. subst. congruence.
Qed.

Lemma split_at_digits (ch : ascii) (a rest : string) :
  is_digit ch = false -> all_digits a = true ->
  split_at ch (a ++ String ch rest) = (a, Some rest).
Proof.
  intros Hch. induction a as [|c a IH]; simpl; intros Ha.
  - rewrite Ascii.eqb_refl. reflexivity.
  - apply andb_true_iff in Ha. destruct Ha as [Hc Ha].
    rewrite (is_digit_not c ch) by auto. rewrite IH by auto. reflexivity.
Qed.

Lemma split_at_all_digits (ch : ascii) (a : string) :
  is_digit ch = false -> all_digits a = true -> split_at ch a = (a, None).
Proof.
  intros Hch. induction a as [|c a IH]; simpl; intros Ha; auto.
  apply andb_true_iff in Ha. destruct Ha as [Hc Ha].
  rewrite (is_digit_not c ch) by auto. rewrite IH by auto. reflexivity.
Qed.

(** Reading back a printed fraction: integer digits, a point, [w] digits. *)
Lemma Number_unsigned_print (i f : Z) (w : nat) :
  (0 <= i)%Z -> (0 <= f < pow10 (S w))%Z ->
  Number_unsigned (to_digits i ++ "." ++ fixed_digits (S w) f)
  = Dec (i * pow10 (S w) + f) (S w).
Proof.
  intros Hi Hf. unfold Number_unsigned.
  change ("." ++ fixed_digits (S w) f)%string with (String "."%char (fixed_digits (S w) f)).
  rewrite split_at_digits by (auto using to_digits_all).
  rewrite to_digits_nonempty, to_digits_all, fixed_digits_all by auto.
  assert (Hne : nonempty (fixed_digits (S w) f) = true).
  { cbn [fixed_digits]. destruct (fixed_digits w (f / 10)); reflexivity. }
  rewrite Hne. simpl andb. cbv iota.
  rewrite of_digits_app, to_digits_value, fixed_digits_value, fixed_digits_length by lia.
  rewrite Z.mod_small by lia. reflexivity.
Qed.

Lemma to_digits_head (x : Z) :
  (0 <= x)%Z -> exists c s, to_digits x = String c s /\ is_digit c = true.
Proof.
  intros Hx. pose proof (to_digits_all x Hx) as Ha.
  pose proof (to_digits_nonempty x) as Hn.
  destruct (to_digits x) as [|c s]; [discriminate|].
  simpl in Ha. apply andb_true_iff in Ha. exists c, s. tauto.
Qed.



(* ----------------------------------------------------------------- *)
(** ** Every emitted point comes from a push *)

Lemma bind_ok {A B : Type} (r : result A) (k : A -> result B) (b : B) :
  bind r k = Ok b -> exists a, r = Ok a /\ k a = Ok b.
Proof. destruct r; simpl; [eauto|discriminate]. Qed.

Lemma dedupe_loop_incl (seen : list string) (l : list Point) :
  incl (dedupe_loop seen l) l.
Proof.
  revert seen. induction l as [|p l IH]; simpl; intros seen x Hx; auto.
  destruct (set_has seen (dedupKey p)).
  - right. eapply IH; eauto.
  - destruct Hx as [->|Hx]; [now left|]. right. eapply IH; eauto.
Qed.

Lemma mergeSeries_incl (l : list Point) : incl (mergeSeries l) l.
Proof.
  intros x Hx. unfold mergeSeries in Hx. apply sort_by_In in Hx.
  eapply dedupe_loop_incl; eauto.
Qed.









(** The series of a run is the merge of the three lists of points. *)
Lemma buildSeries_ok (w : World) (b : bool) (art : Artifact) :
  UpdateDataRun.buildSeries w b = Ok art ->
  exists primary historical supp0 supp1 supplementary,
    UpdateDataRun.primary_points w = Ok primary /\
    UpdateDataRun.historical_points w b = Ok historical /\
    UpdateDataRun.loadSupplementaryPoints w = Ok supp0 /\
    spreadSupplementaryDates supp0 = Ok supp1 /\
    UpdateDataRun.supplementary_points w supp1 = Ok supplementary /\
    art = mkArtifact UpdateDataRun.the_product SOURCES
            (mergeSeries (primary ++ historical ++ supplementary)).
Proof.
  unfold UpdateDataRun.buildSeries. intros H.
  apply bind_ok in H. destruct H as (primary & H1 & H).
  apply bind_ok in H. destruct H as (historical & H2 & H).
  apply bind_ok in H. destruct H as (supp0 & H3 & H).
  apply bind_ok in H. destruct H as (supp1 & H4 & H).
  apply bind_ok in H. destruct H as (supplementary & H5 & H).
  injection H as <-. exists primary, historical, supp0, supp1, supplementary. auto 10.
Qed.


(* ----------------------------------------------------------------- *)
(** ** Kinds of the emitted points *)





(* ----------------------------------------------------------------- *)
(** ** Points already in the display currency *)







(* ----------------------------------------------------------------- *)
(** ** Which failures end a run *)

Lemma snapshot_points_total (w : World) (ts : string) :
  exists l, UpdateDataRun.snapshot_points w ts = Ok l.
Proof.
  unfold UpdateDataRun.snapshot_points.
  destruct (w_fetchText w _) as [html|]; [|eauto].
  destruct (parsePriceFromHtml_total html) as (p & Ep). rewrite Ep. cbn [bind].
  destruct (call_toUpperCase_or
              (js_or (Some (p_currency p)) (src_currency ARCTERYX_SOURCE)) "CAD") as (s & Es).
  rewrite Es. cbn [bind].
  destruct (if String.eqb s "CAD" then Ok (Dec 1 0) else _);
    destruct (current p), (regular p); eauto.
Qed.

Lemma snapshots_points_total (w : World) (tss : list string) :
  exists l, UpdateDataRun.snapshots_points w tss = Ok l.
Proof.
  induction tss as [|ts tss (l & IH)]; simpl; [eauto|].
  destruct (snapshot_points_total w ts) as (a & Ea). rewrite Ea, IH. simpl. eauto.
Qed.

Lemma historical_points_total (w : World) (b : bool) :
  exists l, UpdateDataRun.historical_points w b = Ok l.
Proof.
  unfold UpdateDataRun.historical_points. destruct b; [|eauto].
  apply snapshots_points_total.
Qed.






(* ----------------------------------------------------------------- *)
(** ** The order of strings *)

Lemma string_compare_refl (s : string) : String.compare s s = Eq.
Proof.
  induction s as [|c s IH]; simpl; auto.
  unfold Ascii.compare. rewrite N.compare_refl. exact IH.
Qed.

Lemma string_compare_total (a b : string) :
  String.compare a b = Gt -> String.compare b a <> Gt.
Proof.
  intros H. rewrite String.compare_antisym, H. discriminate.
Qed.

Lemma ascii_compare_lt_trans (a b c : ascii) :
  Ascii.compare a b = Lt -> Ascii.compare b c = Lt -> Ascii.compare a c = Lt.
Proof.
  unfold Ascii.compare. rewrite !N.compare_lt_iff. apply N.lt_trans.
Qed.

Lemma string_compare_trans (a b c : string) :
  String.compare a b <> Gt -> String.compare b c <> Gt -> String.compare a c <> Gt.
Proof.
  revert b c. induction a as [|x a IH]; intros [|y b] [|z c]; simpl; try congruence.
  destruct (Ascii.compare x y) eqn:Exy; try congruence;
    destruct (Ascii.compare y z) eqn:Eyz; try congruence; intros H1 H2.
  - apply Ascii.compare_eq_iff in Exy. subst y. rewrite Eyz. eauto.
  - apply Ascii.compare_eq_iff in Exy. subst y. rewrite Eyz. discriminate.
  - apply Ascii.compare_eq_iff in Eyz. subst z. rewrite Exy. discriminate.
  - rewrite (ascii_compare_lt_trans _ _ _ Exy Eyz). discriminate.
Qed.

Lemma string_compare_antisym_eq (a b : string) :
  String.compare a b <> Gt -> String.compare b a <> Gt -> a = b.
Proof.
  intros H1 H2. apply String.compare_eq_iff.
  rewrite String.compare_antisym in H2.
  destruct (String.compare a b); simpl in *; congruence.
Qed.

(* ----------------------------------------------------------------- *)
(** ** The merged series: order, stability, keys *)

Lemma by_date_total (x y : Point) : by_date x y = Gt -> by_date y x <> Gt.
Proof. apply string_compare_total. Qed.

Lemma date_le_trans : Relations_1.Transitive date_le.
Proof. intros x y z. apply string_compare_trans. Qed.

Lemma mergeSeries_sorted (l : list Point) : Sorted date_le (mergeSeries l).
Proof. apply (sort_by_sorted by_date by_date_total). Qed.

Lemma mergeSeries_stable (l : list Point) (d : string) :
  filter (dated d) (mergeSeries l) = filter (dated d) (dedupe l).
Proof.
  apply sort_by_filter. unfold dated, by_date, localeCompare. intros x y Hx Hy.
  apply String.eqb_eq in Hx, Hy. rewrite Hx, Hy, string_compare_refl. discriminate.
Qed.

(** Two date-sorted lists in which the points of each date stand in the same
    order are the same list. *)
Lemma sorted_stable_unique (l1 l2 : list Point) :
  Sorted date_le l1 -> Sorted date_le l2 ->
  (forall d, filter (dated d) l1 = filter (dated d) l2) ->
  l1 = l2.
Proof.
  revert l2. induction l1 as [|a l1 IH]; intros l2 S1 S2 HF.
  - destruct l2 as [|b l2]; auto.
    specialize (HF (date b)). simpl in HF. unfold dated at 1 in HF.
    rewrite String.eqb_refl in HF. discriminate.
  - destruct l2 as [|b l2].
    + specialize (HF (date a)). simpl in HF. unfold dated at 1 in HF.
      rewrite String.eqb_refl in HF. discriminate.
    + destruct (String.eqb_spec (date b) (date a)) as [E|NE].
      * assert (Ea : dated (date a) a = true) by apply String.eqb_refl.
        assert (Eb : dated (date a) b = true)
          by (unfold dated; rewrite E; apply String.eqb_refl).
        pose proof (HF (date a)) as H0. cbn [filter] in H0.
        rewrite Ea, Eb in H0. injection H0 as -> H0.
        f_equal. apply IH.
        -- inversion S1; auto.
        -- inversion S2; auto.
        -- intros d. specialize (HF d). cbn [filter] in HF.
           destruct (dated d b); [injection HF; auto|auto].
      * exfalso. apply NE.
        apply Sorted_StronglySorted in S1, S2; try apply date_le_trans.
        apply StronglySorted_inv in S1, S2.
        destruct S1 as [_ S1], S2 as [_ S2]. rewrite Forall_forall in S1, S2.
        assert (Ha : In a (b :: l2)).
        { apply (filter_In (dated (date a))). rewrite <- HF. simpl. unfold dated at 1.
          rewrite String.eqb_refl. now left. }
        assert (Hb : In b (a :: l1)).
        { apply (filter_In (dated (date b))). rewrite HF. simpl. unfold dated at 1.
          rewrite String.eqb_refl. now left. }
        destruct Ha as [->|Ha]; [reflexivity|].
        destruct Hb as [->|Hb]; [reflexivity|].
        apply string_compare_antisym_eq; [apply (S2 a Ha)|apply (S1 b Hb)].
Qed.

Arguments dedupKey : simpl never.
Arguments set_has : simpl never.

Lemma set_has_cons (seen : list string) (k0 k : string) :
  set_has (k0 :: seen) k = String.eqb k k0 || set_has seen k.
Proof. reflexivity. Qed.

Lemma dedupe_loop_keys (seen : list string) (l : list Point) (k : string) :
  In k (map dedupKey (dedupe_loop seen l)) <->
  In k (map dedupKey l) /\ set_has seen k = false.
Proof.
  revert seen. induction l as [|p l IH]; intros seen; simpl.
  - tauto.
  - destruct (set_has seen (dedupKey p)) eqn:Es.
    + rewrite IH. split.
      * tauto.
      * intros [[E|H] Hs]; [congruence|tauto].
    + simpl. rewrite IH, set_has_cons. split.
      * intros [E|[H1 H2]]; [subst k; tauto|]. apply orb_false_iff in H2. tauto.
      * intros [[E|H1] H2]; [tauto|].
        destruct (String.eqb_spec k (dedupKey p)) as [E|NE]; [auto|].
        right. split; auto.
Qed.

Lemma dedupe_loop_NoDup (seen : list string) (l : list Point) :
  NoDup (map dedupKey (dedupe_loop seen l)).
Proof.
  revert seen. induction l as [|p l IH]; intros seen; simpl.
  - constructor.
  - destruct (set_has seen (dedupKey p)); auto.
    simpl. constructor; auto.
    rewrite dedupe_loop_keys, set_has_cons, String.eqb_refl. simpl. intros [_ H].
    discriminate.
Qed.

Lemma dedupe_loop_fixed (seen : list string) (l : list Point) :
  NoDup (map dedupKey l) ->
  (forall k, In k (map dedupKey l) -> set_has seen k = false) ->
  dedupe_loop seen l = l.
Proof.
  revert seen. induction l as [|p l IH]; intros seen ND Hs; simpl; auto.
  simpl in ND. inversion ND as [|? ? Hnin ND']; subst.
  rewrite (Hs (dedupKey p)) by (simpl; auto). f_equal.
  apply IH; auto. intros k Hk. rewrite set_has_cons.
  rewrite (Hs k) by (simpl; auto).
  destruct (String.eqb_spec k (dedupKey p)) as [->|]; [contradiction|reflexivity].
Qed.

Lemma insert_by_head {A : Type} (cmp : A -> A -> comparison) (x : A) (l : list A) :
  Sorted (not_gt cmp) (x :: l) -> insert_by cmp x l = x :: l.
Proof.
  intros S. destruct l as [|y l]; simpl; auto.
  inversion S as [|? ? _ HR]; subst. inversion HR as [|? ? Hxy]; subst.
  unfold not_gt in Hxy. destruct (cmp x y); congruence.
Qed.

Lemma sort_by_sorted_id {A : Type} (cmp : A -> A -> comparison) (l : list A) :
  Sorted (not_gt cmp) l -> sort_by cmp l = l.
Proof.
  induction l as [|x l IH]; simpl; intros S; auto.
  rewrite IH by (inversion S; auto). apply insert_by_head; auto.
Qed.

Lemma mergeSeries_NoDup (l : list Point) : NoDup (map dedupKey (mergeSeries l)).
Proof.
  unfold mergeSeries.
  eapply Permutation_NoDup; [|apply (dedupe_loop_NoDup [] l)].
  apply Permutation_map. symmetry. apply sort_by_perm.
Qed.

Lemma mergeSeries_keys (l : list Point) (k : string) :
  In k (map dedupKey (mergeSeries l)) <-> In k (map dedupKey l).
Proof.
  unfold mergeSeries. split.
  - intros H. apply (Permutation_in _ (Permutation_map dedupKey (sort_by_perm by_date _))) in H.
    apply dedupe_loop_keys in H. tauto.
  - intros H.
    apply (Permutation_in _ (Permutation_sym (Permutation_map dedupKey (sort_by_perm by_date _)))).
    apply dedupe_loop_keys. auto.
Qed.

Lemma mergeSeries_idempotent (l : list Point) : mergeSeries (mergeSeries l) = mergeSeries l.
Proof.
  unfold mergeSeries at 1. unfold dedupe.
  rewrite dedupe_loop_fixed; auto using mergeSeries_NoDup.
  apply sort_by_sorted_id. apply mergeSeries_sorted.
Qed.

(** C3. The merged series is sorted by date; points of one date keep the
    order in which they were first listed; no other arrangement of the
    de-duplicated points has these two properties, so the result does not
    depend on how the sort proceeds; its keys are the keys of the input; and
    merging the result again gives the result. *)
Theorem C3_merge_deterministic (primary historical supplementary : list Point) :
  let points := primary ++ historical ++ supplementary in
  Sorted date_le (mergeSeries points) /\
  (forall d, filter (dated d) (mergeSeries points) = filter (dated d) (dedupe points)) /\
  (forall out,
      Sorted date_le out ->
      (forall d, filter (dated d) out = filter (dated d) (dedupe points)) ->
      out = mergeSeries points) /\
  (forall k, In k (map dedupKey (mergeSeries points)) <-> In k (map dedupKey points)) /\
  NoDup (map dedupKey (mergeSeries points)) /\
  mergeSeries (mergeSeries points) = mergeSeries points.
Proof.
  intros points. repeat split.
  - apply mergeSeries_sorted.
  - apply mergeSeries_stable.
  - intros out S HF. apply sorted_stable_unique; auto using mergeSeries_sorted.
    intros d. rewrite HF, mergeSeries_stable. reflexivity.
  - apply mergeSeries_keys.
  - apply mergeSeries_keys.
  - apply mergeSeries_NoDup.
  - apply mergeSeries_idempotent.
Qed.

(* ----------------------------------------------------------------- *)
(** ** Numbers and their text *)

Lemma strip_zeros_value (m : Z) (e : nat) :
  (fst (strip_zeros m e) * pow10 e = m * pow10 (snd (strip_zeros m e)))%Z.
Proof.
  revert m. induction e as [|e IH]; intros m; cbn [strip_zeros].
  - reflexivity.
  - destruct (Z.eqb_spec (m mod 10) 0) as [E|NE]; [|reflexivity].
    specialize (IH (m / 10)%Z). rewrite pow10_S.
    pose proof (Z.div_mod m 10). nia.
Qed.

Lemma strip_zeros_canonical (m : Z) (e : nat) :
  canonical (fst (strip_zeros m e)) (snd (strip_zeros m e)).
Proof.
  revert m. induction e as [|e IH]; intros m; cbn [strip_zeros].
  - left. reflexivity.
  - destruct (Z.eqb_spec (m mod 10) 0) as [E|NE]; [apply IH|]. right. exact NE.
Qed.

Lemma num_eqb_normal (x : jsnum) : num_eqb (normal x) x = true.
Proof.
  destruct x as [|m e]; [reflexivity|]. simpl. apply Z.eqb_eq, strip_zeros_value.
Qed.

Lemma canonical_le (m1 m2 : Z) (e1 e2 : nat) :
  (e1 <= e2)%nat -> canonical m2 e2 ->
  (m1 * pow10 e2 = m2 * pow10 e1)%Z -> m1 = m2 /\ e1 = e2.
Proof.
  intros Hle Hc H.
  replace e2 with (e1 + (e2 - e1))%nat in H by lia.
  rewrite pow10_add in H.
  pose proof (pow10_pos e1) as P1.
  assert (H' : (m1 * pow10 (e2 - e1) = m2)%Z).
  { apply (Z.mul_reg_r _ _ (pow10 e1)); [lia|]. rewrite <- H. ring. }
  destruct (Nat.eq_dec e1 e2) as [->|NE].
  - rewrite Nat.sub_diag in H'. change (pow10 0) with 1%Z in H'. split; [lia|reflexivity].
  - exfalso. destruct Hc as [->|Hc]; [lia|]. apply Hc.
    replace (e2 - e1)%nat with (S (e2 - e1 - 1)) in H' by lia.
    rewrite pow10_S in H'. rewrite <- H'.
    replace (m1 * (10 * pow10 (e2 - e1 - 1)))%Z with ((m1 * pow10 (e2 - e1 - 1)) * 10)%Z by ring.
    apply Z.mod_mul. lia.
Qed.

Lemma canonical_unique (m1 m2 : Z) (e1 e2 : nat) :
  canonical m1 e1 -> canonical m2 e2 ->
  (m1 * pow10 e2 = m2 * pow10 e1)%Z -> m1 = m2 /\ e1 = e2.
Proof.
  intros C1 C2 H. destruct (Nat.le_ge_cases e1 e2) as [L|L].
  - apply canonical_le; auto.
  - destruct (canonical_le m2 m1 e2 e1 L C1 (eq_sym H)). auto.
Qed.

Lemma num_eqb_normal_eq (x y : jsnum) : num_eqb x y = true <-> normal x = normal y.
Proof.
  split.
  - intros H.
    assert (H' : num_eqb (normal x) (normal y) = true).
    { apply num_eqb_trans with x; [apply num_eqb_normal|].
      apply num_eqb_trans with y; auto. rewrite num_eqb_sym. apply num_eqb_normal. }
    destruct x as [|m1 e1], y as [|m2 e2]; try discriminate; auto.
    simpl in *. apply Z.eqb_eq in H'.
    destruct (canonical_unique _ _ _ _ (strip_zeros_canonical m1 e1)
                (strip_zeros_canonical m2 e2) H') as [-> ->].
    reflexivity.
  - intros H. apply num_eqb_trans with (normal x).
    + rewrite num_eqb_sym. apply num_eqb_normal.
    + rewrite H. apply num_eqb_normal.
Qed.

Lemma show_num_normal (m : Z) (e : nat) :
  show_num (Dec m e) = show_normal (fst (strip_zeros m e)) (snd (strip_zeros m e)).
Proof.
  unfold show_num, show_normal. destruct (strip_zeros m e) as [m' e']. reflexivity.
Qed.

Lemma Number_unsigned_digits (i : Z) :
  (0 <= i)%Z -> Number_unsigned (to_digits i) = Dec i 0.
Proof.
  intros Hi. unfold Number_unsigned.
  rewrite split_at_all_digits by (auto using to_digits_all).
  rewrite to_digits_nonempty, to_digits_all, to_digits_value by auto. reflexivity.
Qed.

Lemma Number_unsigned_abs (m : Z) (e : nat) :
  Number_unsigned
    (to_digits (Z.abs m / pow10 e) ++
     match e with
     | O => ""
     | S _ => "." ++ fixed_digits e (Z.abs m mod pow10 e)
     end) = Dec (Z.abs m) e.
Proof.
  pose proof (pow10_pos e) as Hp.
  assert (Hq : (0 <= Z.abs m / pow10 e)%Z) by (apply Z.div_pos; lia).
  destruct e as [|e].
  - rewrite string_app_nil_r. change (pow10 0) with 1%Z. rewrite Z.div_1_r.
    apply Number_unsigned_digits. lia.
  - rewrite Number_unsigned_print; auto using Z.mod_pos_bound.
    f_equal. pose proof (Z.div_mod (Z.abs m) (pow10 (S e))). lia.
Qed.

Lemma Number_leading_digit (c : ascii) (s : string) :
  is_digit c = true -> Number (String c s) = Number_unsigned (String c s).
Proof.
  intros Hc. unfold Number.
  destruct c as [b0 b1 b2 b3 b4 b5 b6 b7].
  destruct b0, b1, b2, b3, b4, b5, b6, b7; try reflexivity; discriminate Hc.
Qed.

Lemma string_app_cons (c : ascii) (s t : string) :
  (String c s ++ t)%string = String c (s ++ t).
Proof. reflexivity. Qed.

Lemma string_app_nil_l (s : string) : ("" ++ s)%string = s.
Proof. reflexivity. Qed.

Lemma Number_minus (s : string) :
  Number (String "-"%char s) = num_neg (Number_unsigned s).
Proof. reflexivity. Qed.

(** Reading the text of a number gives the number back, in normal form. *)
Lemma Number_show_num (x : jsnum) : Number (show_num x) = normal x.
Proof.
  destruct x as [|m e]; [reflexivity|].
  rewrite show_num_normal. cbn [normal].
  generalize (fst (strip_zeros m e)) (snd (strip_zeros m e)). clear m e. intros m e.
  unfold show_normal.
  pose proof (Number_unsigned_abs m e) as Hval.
  destruct (Z.ltb_spec m 0).
  - rewrite string_app_cons, string_app_nil_l, Number_minus, Hval.
    simpl. f_equal. lia.
  - rewrite string_app_nil_l.
    pose proof (pow10_pos e) as Hp.
    assert (Hq : (0 <= Z.abs m / pow10 e)%Z) by (apply Z.div_pos; lia).
    destruct (to_digits_head _ Hq) as (c & s & Ec & Hc).
    rewrite Ec in *. rewrite string_app_cons in *.
    rewrite Number_leading_digit by auto. rewrite Hval. f_equal. lia.
Qed.

Lemma show_num_eq (x y : jsnum) : show_num x = show_num y <-> num_eqb x y = true.
Proof.
  rewrite num_eqb_normal_eq. split.
  - intros H. rewrite <- !Number_show_num, H. reflexivity.
  - destruct x as [|m1 e1], y as [|m2 e2]; cbn [normal]; intros H;
      try discriminate H; auto.
    injection H as H1 H2. rewrite !show_num_normal, H1, H2. reflexivity.
Qed.

Lemma sep_free_app (a b : string) : sep_free (a ++ b) = sep_free a && sep_free b.
Proof.
  induction a as [|c a IH]; simpl; auto. rewrite IH, andb_assoc. reflexivity.
Qed.

Lemma all_digits_sep_free (s : string) : all_digits s = true -> sep_free s = true.
Proof.
  induction s as [|c s IH]; simpl; auto. intros H.
  apply andb_true_iff in H. destruct H as [Hc Hs].
  rewrite IH by auto. rewrite (is_digit_not c sep) by auto. reflexivity.
Qed.

Lemma show_num_sep_free (x : jsnum) : sep_free (show_num x) = true.
Proof.
  destruct x as [|m e]; [reflexivity|].
  rewrite show_num_normal.
  generalize (fst (strip_zeros m e)) (snd (strip_zeros m e)). clear m e. intros m e.
  unfold show_normal. pose proof (pow10_pos e) as Hp.
  rewrite !sep_free_app.
  rewrite (all_digits_sep_free (to_digits _))
    by (apply to_digits_all, Z.div_pos; lia).
  assert (H1 : sep_free (if (m <? 0)%Z then "-" else "") = true)
    by (destruct (m <? 0)%Z; reflexivity).
  rewrite H1. destruct e as [|e]; [reflexivity|].
  change ("." ++ fixed_digits (S e) (Z.abs m mod pow10 (S e)))%string
    with (String "."%char (fixed_digits (S e) (Z.abs m mod pow10 (S e)))).
  cbn [sep_free]. rewrite (all_digits_sep_free _ (fixed_digits_all _ _)). reflexivity.
Qed.

(* ----------------------------------------------------------------- *)
(** ** The de-duplication key *)

(** A text without [|] followed by [|] is a prefix that can be read back. *)
Lemma sep_split (a a' r r' : string) :
  sep_free a = true -> sep_free a' = true ->
  (a ++ String sep r)%string = (a' ++ String sep r')%string ->
  a = a' /\ r = r'.
Proof.
  revert a'. induction a as [|c a IH]; intros [|c' a'] Ha Ha' E; simpl in *.
  - injection E as E. auto.
  - injection E as E1 E2. subst c'. rewrite Ascii.eqb_refl in Ha'. discriminate.
  - injection E as E1 E2. subst c. rewrite Ascii.eqb_refl in Ha. discriminate.
  - injection E as E1 E2. subst c'.
    apply andb_true_iff in Ha, Ha'.
    destruct (IH a' (proj2 Ha) (proj2 Ha') E2) as [-> ->]. auto.
Qed.

Lemma same_tuple_refl (p : Point) : same_tuple p p = true.
Proof.
  unfold same_tuple. rewrite !String.eqb_refl, num_eqb_refl. reflexivity.
Qed.

Lemma same_tuple_fields (p x : Point) :
  same_tuple p x = true <->
  date p = date x /\ kind p = kind x /\
  num_eqb (amount (price p)) (amount (price x)) = true /\
  currency (price p) = currency (price x) /\ sourceId p = sourceId x.
Proof.
  unfold same_tuple. rewrite !andb_true_iff, !String.eqb_eq. tauto.
Qed.

Lemma dedupKey_unfold (p : Point) :
  dedupKey p
  = (date p ++ String sep (kind p ++ String sep (show_num (amount (price p))
     ++ String sep (currency (price p) ++ String sep (sourceId p)))))%string.
Proof. reflexivity. Qed.

(** On points of the data model the key is the tuple. *)
Lemma dedupKey_same_tuple (p x : Point) :
  key_safe p = true -> key_safe x = true ->
  String.eqb (dedupKey x) (dedupKey p) = same_tuple p x.
Proof.
  unfold key_safe. rewrite !andb_true_iff. intros [[Hd Hk] Hc] [[Hd' Hk'] Hc'].
  destruct (same_tuple p x) eqn:E.
  - apply same_tuple_fields in E. destruct E as (E1 & E2 & E3 & E4 & E5).
    apply String.eqb_eq. rewrite !dedupKey_unfold.
    apply show_num_eq in E3. rewrite E1, E2, E3, E4, E5. reflexivity.
  - apply String.eqb_neq. intros K. rewrite !dedupKey_unfold in K.
    apply sep_split in K; auto. destruct K as [K1 K].
    apply sep_split in K; auto. destruct K as [K2 K].
    apply sep_split in K; auto using show_num_sep_free. destruct K as [K3 K].
    apply sep_split in K; auto. destruct K as [K4 K5].
    apply show_num_eq in K3. rewrite num_eqb_sym in K3.
    assert (E' : same_tuple p x = true) by (apply same_tuple_fields; auto).
    congruence.
Qed.

Lemma dedupe_loop_filter_key (seen : list string) (l : list Point) (k : string) :
  filter (fun x => String.eqb (dedupKey x) k) (dedupe_loop seen l)
  = if set_has seen k then []
    else match find (fun x => String.eqb (dedupKey x) k) l with
         | Some first => [first]
         | None => []
         end.
Proof.
  revert seen. induction l as [|p l IH]; intros seen; cbn [dedupe_loop find].
  - cbn [filter]. destruct (set_has seen k); reflexivity.
  - destruct (set_has seen (dedupKey p)) eqn:Es.
    + rewrite IH. destruct (String.eqb_spec (dedupKey p) k) as [E|NE].
      * rewrite <- E, Es. reflexivity.
      * reflexivity.
    + cbn [filter]. rewrite IH, set_has_cons.
      destruct (String.eqb_spec (dedupKey p) k) as [E|NE].
      * rewrite <- E, String.eqb_refl, Es. reflexivity.
      * destruct (String.eqb_spec k (dedupKey p)) as [E'|_]; [congruence|].
        reflexivity.
Qed.

Lemma mergeSeries_filter_key (l : list Point) (k : string) (first : Point) :
  find (fun x => String.eqb (dedupKey x) k) l = Some first ->
  filter (fun x => String.eqb (dedupKey x) k) (mergeSeries l) = [first].
Proof.
  intros Hf.
  assert (HP : Permutation (filter (fun x => String.eqb (dedupKey x) k) (dedupe l))
                           (filter (fun x => String.eqb (dedupKey x) k) (mergeSeries l))).
  { apply Permutation_filter. symmetry. apply sort_by_perm. }
  unfold dedupe in HP. rewrite dedupe_loop_filter_key, Hf in HP.
  apply Permutation_length_1_inv in HP. exact HP.
Qed.

Lemma find_ext_in {A : Type} (f g : A -> bool) (l : list A) :
  (forall x, In x l -> f x = g x) -> find f l = find g l.
Proof.
  induction l as [|x l IH]; simpl; intros H; auto.
  rewrite (H x) by auto. destruct (g x); auto.
Qed.

Lemma find_some_in {A : Type} (f : A -> bool) (l : list A) (x : A) :
  In x l -> f x = true -> exists y, find f l = Some y.
Proof.
  induction l as [|z l IH]; simpl; intros Hin Hx; [contradiction|].
  destruct (f z) eqn:Ez; [eauto|].
  destruct Hin as [->|Hin]; [congruence|auto].
Qed.

Lemma same_tuple_key (p x : Point) :
  same_tuple p x = true -> String.eqb (dedupKey x) (dedupKey p) = true.
Proof.
  intros E. apply same_tuple_fields in E. destruct E as (E1 & E2 & E3 & E4 & E5).
  apply String.eqb_eq. rewrite !dedupKey_unfold.
  apply show_num_eq in E3. rewrite E1, E2, E3, E4, E5. reflexivity.
Qed.

Lemma filter_filter_impl {A : Type} (f g : A -> bool) (l : list A) :
  (forall x, f x = true -> g x = true) -> filter f l = filter f (filter g l).
Proof.
  intros H. induction l as [|x l IH]; simpl; auto.
  destruct (f x) eqn:Ef.
  - rewrite (H x Ef). simpl. rewrite Ef, IH. reflexivity.
  - destruct (g x); simpl; rewrite ?Ef; exact IH.
Qed.

(** C1. No two points of the merged series have the same (date, kind,
    amount, currency, sourceId).  When the input points are points of the data
    model (dates, kinds and currencies without the separator of the key),
    then of the input points with one such tuple exactly one is emitted: the
    first of them in input order. *)
Theorem C1_dedup_first_wins (primary historical supplementary : list Point) :
  let points := primary ++ historical ++ supplementary in
  (forall p, In p (mergeSeries points) ->
             filter (same_tuple p) (mergeSeries points) = [p]) /\
  (Forall (fun p => key_safe p = true) points ->
   forall p, In p points ->
             exists first,
               find (same_tuple p) points = Some first /\
               filter (same_tuple p) (mergeSeries points) = [first]).
Proof.
  intros points. split.
  - intros p Hp.
    assert (Hin : In p points) by (eapply mergeSeries_incl; eauto).
    destruct (find_some_in (fun x => String.eqb (dedupKey x) (dedupKey p)) points p Hin
                (String.eqb_refl _)) as (first & Hf).
    pose proof (mergeSeries_filter_key _ _ _ Hf) as Hk.
    assert (Hpk : In p (filter (fun x => String.eqb (dedupKey x) (dedupKey p))
                               (mergeSeries points))).
    { apply filter_In. split; auto. apply String.eqb_refl. }
    rewrite Hk in Hpk. destruct Hpk as [->|[]].
    rewrite (filter_filter_impl (same_tuple p)
               (fun x => String.eqb (dedupKey x) (dedupKey p)))
      by apply same_tuple_key.
    rewrite Hk. cbn [filter]. rewrite same_tuple_refl. reflexivity.
  - intros Hsafe p Hp. rewrite Forall_forall in Hsafe.
    destruct (find_some_in (same_tuple p) points p Hp (same_tuple_refl p)) as (first & Hf).
    exists first. split; auto.
    rewrite (filter_ext_in (same_tuple p) (fun x => String.eqb (dedupKey x) (dedupKey p))).
    + apply mergeSeries_filter_key. rewrite <- Hf. apply find_ext_in.
      intros x Hx. apply dedupKey_same_tuple; auto.
    + intros x Hx. symmetry. apply dedupKey_same_tuple; auto.
      apply Hsafe. eapply mergeSeries_incl; eauto.
Qed.

(** C1 on a live point and an archived copy of the same day and price. *)
Lemma C1_dedup_first_wins_witness :
  mergeSeries ([live_point] ++ [older_point; archived_point] ++ [])
  = [older_point; live_point] /\
  filter (same_tuple archived_point)
         (mergeSeries ([live_point] ++ [older_point; archived_point] ++ []))
  = [live_point].
Proof.
  split; [vm_compute; reflexivity|].
  assert (Hsafe : Forall (fun p => key_safe p = true)
                         ([live_point] ++ [older_point; archived_point] ++ []))
    by (repeat constructor).
  destruct (C1_dedup_first_wins [live_point] [older_point; archived_point] [])
    as [_ H].
  destruct (H Hsafe archived_point) as (first & Hfind & Hfilter).
  - simpl. auto.
  - vm_compute in Hfind. injection Hfind as <-. exact Hfilter.
Defined.

(* ----------------------------------------------------------------- *)
(** ** ISO dates: reading and printing *)

Lemma digit_char_val (c : ascii) : is_digit c = true -> digit_char (digit_val c) = c.
Proof.
  destruct c as [b0 b1 b2 b3 b4 b5 b6 b7].
  destruct b0, b1, b2, b3, b4, b5, b6, b7; intros H; try discriminate H; reflexivity.
Qed.

Lemma digit_val_range (c : ascii) : is_digit c = true -> (0 <= digit_val c <= 9)%Z.
Proof.
  destruct c as [b0 b1 b2 b3 b4 b5 b6 b7].
  destruct b0, b1, b2, b3, b4, b5, b6, b7; intros H; try discriminate H;
    vm_compute; split; discriminate.
Qed.

Lemma fixed_digits_snoc (w : nat) (x : Z) (c : ascii) :
  is_digit c = true ->
  fixed_digits (S w) (10 * x + digit_val c) = (fixed_digits w x ++ String c "")%string.
Proof.
  intros Hc. pose proof (digit_val_range c Hc) as Hr.
  cbn [fixed_digits].
  replace ((10 * x + digit_val c) / 10)%Z with x
    by (apply Z.div_unique with (r := digit_val c); lia).
  replace ((10 * x + digit_val c) mod 10)%Z with (digit_val c)
    by (apply Z.mod_unique with (q := x); lia).
  rewrite digit_char_val by auto. reflexivity.
Qed.

Lemma fixed_digits_2 (a b : ascii) :
  is_digit a = true -> is_digit b = true ->
  fixed_digits 2 (digits2 a b) = String a (String b "").
Proof.
  intros Ha Hb. unfold digits2.
  rewrite fixed_digits_snoc by auto.
  replace (digit_val a) with (10 * 0 + digit_val a)%Z by lia.
  rewrite fixed_digits_snoc by auto. reflexivity.
Qed.

Lemma fixed_digits_4 (a b c d : ascii) :
  is_digit a = true -> is_digit b = true -> is_digit c = true -> is_digit d = true ->
  fixed_digits 4 (100 * digits2 a b + digits2 c d)
  = String a (String b (String c (String d ""))).
Proof.
  intros Ha Hb Hc Hd. unfold digits2.
  replace (100 * (10 * digit_val a + digit_val b) + (10 * digit_val c + digit_val d))%Z
    with (10 * (10 * (10 * (10 * 0 + digit_val a) + digit_val b) + digit_val c)
          + digit_val d)%Z by ring.
  rewrite !fixed_digits_snoc by auto. reflexivity.
Qed.

Lemma digits2_range (a b : ascii) :
  is_digit a = true -> is_digit b = true -> (0 <= digits2 a b <= 99)%Z.
Proof.
  intros Ha Hb. pose proof (digit_val_range a Ha). pose proof (digit_val_range b Hb).
  unfold digits2. lia.
Qed.

(** A text read as a date is printed back unchanged, and has ten characters
    none of which is the key separator. *)
Lemma parse_iso_date_print (s : string) (c : civil) :
  parse_iso_date s = Some c ->
  iso_of_civil c = s /\ String.length s = 10%nat /\ valid_civil c = true.
Proof.
  unfold parse_iso_date.
  destruct s as [|y1 [|y2 [|y3 [|y4 [|h1 [|m1 [|m2 [|h2 [|d1 [|d2 [|]]]]]]]]]]];
    try discriminate.
  destruct (is_digit y1) eqn:Y1; [|discriminate].
  destruct (is_digit y2) eqn:Y2; [|discriminate].
  destruct (is_digit y3) eqn:Y3; [|discriminate].
  destruct (is_digit y4) eqn:Y4; [|discriminate].
  destruct (Ascii.eqb_spec h1 "-"%char) as [->|]; [|discriminate].
  destruct (is_digit m1) eqn:M1; [|discriminate].
  destruct (is_digit m2) eqn:M2; [|discriminate].
  destruct (Ascii.eqb_spec h2 "-"%char) as [->|]; [|discriminate].
  destruct (is_digit d1) eqn:D1; [|discriminate].
  destruct (is_digit d2) eqn:D2; [|discriminate].
  cbn [andb].
  destruct (valid_civil _) eqn:V; [|discriminate].
  intros E.
  apply (f_equal (fun o => match o with Some x => x | None => c end)) in E.
  cbv beta iota in E. subst c. split; [|split; [reflexivity|exact V]].
  unfold iso_of_civil, c_year, c_month, c_day.
  pose proof (digits2_range y1 y2 Y1 Y2). pose proof (digits2_range y3 y4 Y3 Y4).
  replace ((0 <=? 100 * digits2 y1 y2 + digits2 y3 y4)%Z
           && (100 * digits2 y1 y2 + digits2 y3 y4 <=? 9999)%Z) with true
    by (symmetry; apply andb_true_iff; split; apply Z.leb_le; lia).
  rewrite fixed_digits_4, !fixed_digits_2 by auto. reflexivity.
Qed.

Lemma string_app_inj_length (a a' b b' : string) :
  String.length b = String.length b' ->
  (a ++ b)%string = (a' ++ b')%string -> a = a' /\ b = b'.
Proof.
  revert a'. induction a as [|c a IH]; intros [|c' a'] HL E; simpl in E.
  - auto.
  - exfalso. rewrite E in HL. simpl in HL. rewrite string_length_app in HL. lia.
  - exfalso. rewrite <- E in HL. simpl in HL. rewrite string_length_app in HL. lia.
  - injection E as -> E. destruct (IH a' HL E) as [-> ->]. auto.
Qed.

(* ----------------------------------------------------------------- *)
(** ** Grouping the supplementary points *)

Lemma wf_supp_inv (pt : SuppPoint) :
  wf_supp pt = true ->
  exists d sid c, s_date pt = Some d /\ s_sourceId pt = Some sid /\
                  parse_iso_date d = Some c.
Proof.
  unfold wf_supp. destruct (s_date pt) as [d|]; [|discriminate].
  destruct (s_sourceId pt) as [sid|]; [|discriminate].
  destruct (parse_iso_date d) as [c|] eqn:E; [|discriminate]. eauto 6.
Qed.

Lemma group_key_same_group (p x : SuppPoint) :
  wf_supp p = true -> wf_supp x = true -> keyed (group_key p) x = same_group p x.
Proof.
  intros Hp Hx.
  destruct (wf_supp_inv p Hp) as (d & sid & c & Ed & Es & Ec).
  destruct (wf_supp_inv x Hx) as (d' & sid' & c' & Ed' & Es' & Ec').
  unfold keyed, same_group, group_key. rewrite Ed, Es, Ed', Es'. cbn [show_opt_str opt_str_eqb].
  destruct (parse_iso_date_print d c Ec) as (_ & L & _).
  destruct (parse_iso_date_print d' c' Ec') as (_ & L' & _).
  destruct (String.eqb_spec sid sid') as [->|NE]; cbn [andb].
  - destruct (String.eqb_spec d d') as [->|NE']; [apply String.eqb_refl|].
    apply String.eqb_neq. intros E. apply NE'.
    apply string_app_inj_length in E; [|simpl; lia].
    destruct E as [_ E]. injection E as E. congruence.
  - apply String.eqb_neq. intros E. apply NE.
    apply string_app_inj_length in E; [|simpl; lia]. destruct E as [E _]. congruence.
Qed.

Lemma same_group_refl (p : SuppPoint) : same_group p p = true.
Proof.
  unfold same_group, opt_str_eqb.
  destruct (s_sourceId p), (s_date p); rewrite ?String.eqb_refl; reflexivity.
Qed.

Lemma same_group_date (p x : SuppPoint) : same_group p x = true -> s_date x = s_date p.
Proof.
  unfold same_group, opt_str_eqb. intros H. apply andb_true_iff in H. destruct H as [_ H].
  destruct (s_date p), (s_date x); try discriminate; auto.
  apply String.eqb_eq in H. congruence.
Qed.

Lemma map_push_keys (k : string) (pt : SuppPoint) (m : list (string * list SuppPoint))
  (k' : string) :
  In k' (map fst (map_push k pt m)) <-> k' = k \/ In k' (map fst m).
Proof.
  induction m as [|[k0 g0] m IH]; simpl.
  - intuition.
  - destruct (String.eqb_spec k0 k) as [->|NE]; simpl.
    + intuition.
    + rewrite IH. intuition.
Qed.

Lemma map_push_NoDup (k : string) (pt : SuppPoint) (m : list (string * list SuppPoint)) :
  NoDup (map fst m) -> NoDup (map fst (map_push k pt m)).
Proof.
  induction m as [|[k0 g0] m IH]; simpl; intros ND.
  - repeat constructor. auto.
  - inversion ND as [|? ? Hnin ND']; subst.
    destruct (String.eqb_spec k0 k) as [->|NE]; simpl.
    + constructor; auto.
    + constructor; auto. rewrite map_push_keys. intros [E|H]; [congruence|contradiction].
Qed.

Lemma map_push_In (k : string) (pt : SuppPoint) (m : list (string * list SuppPoint))
  (k' : string) (g' : list SuppPoint) :
  NoDup (map fst m) ->
  In (k', g') (map_push k pt m) ->
  (k' <> k /\ In (k', g') m) \/
  (k' = k /\ ((exists g, In (k, g) m /\ g' = g ++ [pt]) \/
              (~ In k (map fst m) /\ g' = [pt]))).
Proof.
  induction m as [|[k0 g0] m IH]; simpl; intros ND.
  - intros [E|[]]. injection E as <- <-. right. split; auto.
  - inversion ND as [|? ? Hnin ND']; subst.
    destruct (String.eqb_spec k0 k) as [->|NE]; simpl.
    + intros [E|H].
      * injection E as <- <-. right. split; auto. left. exists g0. auto.
      * left. split; auto. intros ->. apply Hnin.
        change k with (fst (k, g')). apply in_map. exact H.
    + intros [E|H].
      * injection E as <- <-. left. auto.
      * destruct (IH ND' H) as [[N I]|[-> [(g & I & E)|[N E]]]].
        -- left. auto.
        -- right. split; auto. left. exists g. auto.
        -- right. split; auto. right. split; auto. intros [E'|I]; [congruence|auto].
Qed.

Lemma map_push_length (k : string) (pt : SuppPoint) (m : list (string * list SuppPoint)) :
  List.length (List.concat (map snd (map_push k pt m)))
  = S (List.length (List.concat (map snd m))).
Proof.
  induction m as [|[k0 g0] m IH]; simpl; auto.
  destruct (String.eqb k0 k); simpl.
  - rewrite !length_app. simpl. lia.
  - rewrite !length_app, IH. lia.
Qed.

Lemma filter_keyed_none (k : string) (l : list SuppPoint) :
  (forall x, In x l -> group_key x <> k) -> filter (keyed k) l = [].
Proof.
  induction l as [|x l IH]; simpl; intros H; auto.
  unfold keyed at 1. destruct (String.eqb_spec (group_key x) k) as [E|NE].
  - exfalso. apply (H x); auto.
  - apply IH. intros y Hy. apply H. auto.
Qed.

Lemma groups_inv_step (l : list SuppPoint) (m : list (string * list SuppPoint))
  (pt : SuppPoint) :
  groups_inv l m -> groups_inv (l ++ [pt]) (map_push (group_key pt) pt m).
Proof.
  intros [ND HG HC HL]. constructor.
  - apply map_push_NoDup; auto.
  - intros k g Hin. rewrite filter_app. cbn [filter]. unfold keyed at 2.
    apply map_push_In in Hin; auto.
    destruct Hin as [[NE Hin]|[-> [(g0 & Hin & ->)|[Hnin ->]]]].
    + destruct (HG k g Hin) as [-> Hne].
      destruct (String.eqb_spec (group_key pt) k) as [E|_]; [congruence|].
      rewrite app_nil_r. auto.
    + destruct (HG _ g0 Hin) as [-> Hne]. rewrite String.eqb_refl. split; auto.
      intros E. apply app_eq_nil in E. destruct E as [_ E]. discriminate.
    + rewrite String.eqb_refl. rewrite filter_keyed_none; [split; [reflexivity|discriminate]|].
      intros x Hx E. apply Hnin. rewrite <- E. apply HC. auto.
  - intros x Hx. rewrite map_push_keys. apply in_app_or in Hx.
    destruct Hx as [Hx|[<-|[]]]; auto.
  - rewrite map_push_length, HL, length_app. simpl. lia.
Qed.

Lemma groups_inv_fold (rest pre : list SuppPoint) (m : list (string * list SuppPoint)) :
  groups_inv pre m ->
  groups_inv (pre ++ rest) (fold_left (fun m pt => map_push (group_key pt) pt m) rest m).
Proof.
  revert pre m. induction rest as [|pt rest IH]; intros pre m H; simpl.
  - rewrite app_nil_r. auto.
  - replace (pre ++ pt :: rest) with ((pre ++ [pt]) ++ rest)
      by (rewrite <- app_assoc; reflexivity).
    apply IH. apply groups_inv_step. auto.
Qed.

Lemma group_by_key_inv (points : list SuppPoint) : groups_inv points (group_by_key points).
Proof.
  apply (groups_inv_fold points [] []). constructor; simpl; auto.
  - constructor.
  - intros k g [].
Qed.

(* ----------------------------------------------------------------- *)
(** ** Date spreading *)

Lemma days_in_month_range (y m : Z) : (28 <= days_in_month y m <= 31)%Z.
Proof.
  unfold days_in_month.
  destruct (m =? 2)%Z; [destruct (is_leap y); lia|].
  destruct ((m =? 4)%Z || (m =? 6)%Z || (m =? 9)%Z || (m =? 11)%Z); lia.
Qed.

Lemma valid_civil_iff (c : civil) :
  valid_civil c = true <->
  (1 <= c_month c <= 12)%Z /\ (1 <= c_day c <= days_in_month (c_year c) (c_month c))%Z.
Proof.
  unfold valid_civil. rewrite !andb_true_iff, !Z.leb_le. tauto.
Qed.

(** [prev_day] is the day before. *)
Lemma prev_day_spec (c : civil) : valid_civil c = true -> day_before (prev_day c) c.
Proof.
  intros V. pose proof V as V0. apply valid_civil_iff in V0.
  destruct c as [y m d]. cbn [c_year c_month c_day] in V0. destruct V0 as [Hm Hd].
  unfold day_before, prev_day. cbn [c_year c_month c_day].
  destruct (Z.ltb_spec 1 d) as [D|D]; [|destruct (Z.ltb_spec 1 m) as [M|M]].
  - split; [|split; [exact V|split]].
    + apply valid_civil_iff. cbn [c_year c_month c_day]. lia.
    + unfold civil_lt. cbn [c_year c_month c_day]. right. split; auto. right. split; auto. lia.
    + intros [y' m' d'] _. unfold civil_lt. cbn [c_year c_month c_day]. lia.
  - pose proof (days_in_month_range y (m - 1)) as R.
    split; [|split; [exact V|split]].
    + apply valid_civil_iff. cbn [c_year c_month c_day]. lia.
    + unfold civil_lt. cbn [c_year c_month c_day]. right. split; auto. left. lia.
    + intros [y' m' d'] Vx. apply valid_civil_iff in Vx.
      cbn [c_year c_month c_day] in Vx. destruct Vx as [Hm' Hd'].
      unfold civil_lt. cbn [c_year c_month c_day].
      intros [L|[-> [L|[-> L]]]]; [lia|lia|lia].
  - pose proof (days_in_month_range (y - 1) 12) as R.
    assert (E31 : days_in_month (y - 1) 12 = 31%Z) by reflexivity.
    split; [|split; [exact V|split]].
    + apply valid_civil_iff. cbn [c_year c_month c_day]. lia.
    + unfold civil_lt. cbn [c_year c_month c_day]. left. lia.
    + intros [y' m' d'] Vx. apply valid_civil_iff in Vx.
      cbn [c_year c_month c_day] in Vx. destruct Vx as [Hm' Hd'].
      unfold civil_lt. cbn [c_year c_month c_day].
      intros [L|[E [L|[E' L]]]]; [lia| lia |].
      subst y' m'. rewrite E31 in Hd'. lia.
Qed.

Lemma days_before_valid (k : nat) (c : civil) :
  valid_civil c = true -> valid_civil (days_before k c) = true.
Proof.
  intros V. induction k as [|k IH]; simpl; auto.
  apply (prev_day_spec _ IH).
Qed.

Lemma days_before_step (k : nat) (c : civil) :
  valid_civil c = true -> day_before (days_before (S k) c) (days_before k c).
Proof.
  intros V. apply prev_day_spec. apply days_before_valid. exact V.
Qed.

Lemma by_amount_total (x y : SuppPoint) : by_amount x y = Gt -> by_amount y x <> Gt.
Proof.
  unfold by_amount. destruct (amount_or_0 x) as [|m1 e1], (amount_or_0 y) as [|m2 e2];
    simpl; try discriminate.
  rewrite !Z.compare_gt_iff. lia.
Qed.

Lemma redate_length (b : civil) (g : list SuppPoint) :
  List.length (redate b g) = List.length g.
Proof. induction g as [|x g IH]; simpl; auto. Qed.

Lemma redate_has_date (b : civil) (g : list SuppPoint) :
  forallb has_date (redate b g) = true.
Proof. induction g as [|x g IH]; simpl; auto. Qed.

Lemma redate_nth (b : civil) (g : list SuppPoint) (i : nat) (x : SuppPoint) :
  nth_error g i = Some x ->
  In (with_date x (iso_of_civil (days_before (List.length g - 1 - i) b))) (redate b g).
Proof.
  revert i. induction g as [|y g IH]; intros [|i] H; simpl in H; try discriminate.
  - injection H as ->. left. cbn [List.length]. f_equal. f_equal. f_equal. lia.
  - right. cbn [List.length].
    replace (S (List.length g) - 1 - S i)%nat with (List.length g - 1 - i)%nat by lia.
    apply IH. exact H.
Qed.

Lemma forallb_app {A : Type} (f : A -> bool) (l l' : list A) :
  forallb f (l ++ l') = forallb f l && forallb f l'.
Proof. induction l as [|x l IH]; simpl; auto. rewrite IH, andb_assoc. reflexivity. Qed.

Lemma wf_supp_has_date (x : SuppPoint) : wf_supp x = true -> has_date x = true.
Proof.
  intros H. destruct (wf_supp_inv x H) as (d & _ & _ & E & _). unfold has_date.
  rewrite E. reflexivity.
Qed.

Lemma spread_group_ok (g : list SuppPoint) :
  g <> [] -> Forall (fun x => wf_supp x = true) g ->
  exists r,
    spread_group g = Ok r /\ List.length r = List.length g /\
    forallb has_date r = true /\
    ((List.length g <= 1)%nat -> r = g) /\
    ((1 < List.length g)%nat ->
     exists x d base,
       hd_error g = Some x /\ s_date x = Some d /\ parse_iso_date d = Some base /\
       r = redate base (sort_by by_amount g)).
Proof.
  intros Hne Hwf. unfold spread_group.
  destruct (Nat.leb_spec (List.length g) 1) as [L|L].
  - exists g. repeat split; auto; [|lia].
    apply forallb_forall. rewrite Forall_forall in Hwf.
    intros x Hx. apply wf_supp_has_date; auto.
  - destruct g as [|x g]; [contradiction|].
    inversion Hwf as [|? ? Hx _]; subst.
    destruct (wf_supp_inv x Hx) as (d & sid & base & Ed & _ & Eb).
    rewrite Ed. cbn [Date_at_noon]. rewrite Eb.
    eexists. split; [reflexivity|].
    rewrite redate_length, sort_by_length, redate_has_date.
    repeat split; auto; [lia|].
    intros _. exists x, d, base. auto.
Qed.

Lemma spread_groups_ok (gs : list (list SuppPoint)) :
  Forall (fun g => g <> [] /\ Forall (fun x => wf_supp x = true) g) gs ->
  exists out0,
    spread_groups gs = Ok out0 /\
    List.length out0 = List.length (List.concat gs) /\
    forallb has_date out0 = true /\
    forall g r, In g gs -> spread_group g = Ok r -> incl r out0.
Proof.
  induction 1 as [|g gs [Hne Hwf] _ (out0 & E & HL & HD & HI)]; simpl.
  - exists []. repeat split; auto. intros g r [].
  - destruct (spread_group_ok g Hne Hwf) as (r & Er & Lr & Dr & _).
    rewrite Er, E. cbn [bind]. exists (r ++ out0). repeat split.
    + rewrite !length_app. lia.
    + rewrite forallb_app, Dr, HD. reflexivity.
    + intros g' r' [<-|Hin] Er'.
      * rewrite Er in Er'. injection Er' as <-. apply incl_appl, incl_refl.
      * apply incl_appr. eapply HI; eauto.
Qed.

Lemma sort_supp_ok (l : list SuppPoint) :
  forallb has_date l = true -> exists l', sort_supp l = Ok l' /\ Permutation l l'.
Proof.
  intros H. unfold sort_supp. rewrite H.
  destruct (List.length l <=? 1)%nat; eexists; split; try reflexivity.
  symmetry. apply sort_by_perm.
Qed.

(** C2. On entries of the data model (a source id and an ISO calendar date
    each), date spreading returns as many points as it was given.  An entry
    that is alone with its (sourceId, date) is returned as it is.  The [n > 1]
    entries of one (sourceId, date), sorted by ascending amount, are returned
    re-dated: the one at rank [i] gets the day [n - 1 - i] days before the
    shared date, so the lowest amount gets the earliest day and the highest
    keeps the shared date; each of these days is the calendar day just before
    the next.  Three entries of source X on 2024-06-10 come out
    on 2024-06-08, 2024-06-09 and 2024-06-10 by ascending amount. *)
Theorem C2_date_spread :
  (forall points : list SuppPoint,
      Forall (fun pt => wf_supp pt = true) points ->
      exists out,
        spreadSupplementaryDates points = Ok out /\
        List.length out = List.length points /\
        forall p d base,
          In p points -> s_date p = Some d -> parse_iso_date d = Some base ->
          let group := filter (same_group p) points in
          let n := List.length group in
          let sorted := sort_by by_amount group in
          Permutation sorted group /\
          Sorted (not_gt by_amount) sorted /\
          iso_of_civil (days_before 0 base) = d /\
          (forall k, day_before (days_before (S k) base) (days_before k base)) /\
          (n = 1%nat -> In p out) /\
          ((1 < n)%nat ->
           forall i x, nth_error sorted i = Some x ->
                       exists y,
                         In y out /\
                         s_date y = Some (iso_of_civil (days_before (n - 1 - i) base)) /\
                         s_kind y = s_kind x /\ s_price y = s_price x /\
                         s_sourceId y = s_sourceId x /\ s_url y = s_url x /\
                         s_wayback y = s_wayback x)) /\
  spreadSupplementaryDates [supp_x 150; supp_x 120; supp_x 200]
  = Ok [supp_x_on "2024-06-08" 120; supp_x_on "2024-06-09" 150; supp_x_on "2024-06-10" 200].
Proof.
  split; [|vm_compute; reflexivity].
  intros points Hwf.
  pose proof (group_by_key_inv points) as [ND HG HC HL].
  assert (Hgs : Forall (fun g => g <> [] /\ Forall (fun x => wf_supp x = true) g)
                       (map snd (group_by_key points))).
  { apply Forall_forall. intros g Hg. apply in_map_iff in Hg.
    destruct Hg as ([k g'] & <- & Hin). destruct (HG k g' Hin) as [-> Hne].
    split; auto. apply Forall_forall. intros x Hx. apply filter_In in Hx.
    rewrite Forall_forall in Hwf. apply Hwf. tauto. }
  destruct (spread_groups_ok _ Hgs) as (out0 & E0 & L0 & D0 & I0).
  destruct (sort_supp_ok out0 D0) as (out & Eo & Po).
  exists out.
  split; [unfold spreadSupplementaryDates; rewrite E0; exact Eo|]. split.
  { rewrite <- (Permutation_length Po), L0. exact HL. }
  intros p d base Hp Ed Eb group n sorted.
  rewrite Forall_forall in Hwf.
  assert (Hgroup : In (group_key p, group) (group_by_key points)).
  { pose proof (HC p Hp) as Hk. apply in_map_iff in Hk.
    destruct Hk as ([k g] & Ek & Hin). simpl in Ek. subst k.
    destruct (HG _ g Hin) as [Eg _].
    replace group with g; auto. rewrite Eg. unfold group.
    apply filter_ext_in. intros x Hx. apply group_key_same_group; auto. }
  assert (Hin_gs : In group (map snd (group_by_key points))).
  { change group with (snd (group_key p, group)). apply in_map. exact Hgroup. }
  destruct (HG _ _ Hgroup) as [_ Hne].
  assert (Hwfg : Forall (fun x => wf_supp x = true) group).
  { apply Forall_forall. intros x Hx. apply filter_In in Hx. apply Hwf. tauto. }
  destruct (spread_group_ok group Hne Hwfg) as (r & Er & _ & _ & Hone & Hmany).
  pose proof (I0 group r Hin_gs Er) as Hincl.
  split; [apply sort_by_perm|].
  split; [apply sort_by_sorted, by_amount_total|].
  split; [apply (parse_iso_date_print d base Eb)|].
  split; [intros k; apply days_before_step, (parse_iso_date_print d base Eb)|].
  split.
  - intros Hn. apply (Permutation_in _ Po). apply Hincl.
    rewrite Hone by (fold n; lia). apply filter_In. split; auto using same_group_refl.
  - intros Hn i x Hx.
    exists (with_date x (iso_of_civil (days_before (n - 1 - i) base))).
    split; [|repeat split].
    apply (Permutation_in _ Po). apply Hincl.
    destruct (Hmany Hn) as (x0 & d0 & base0 & Eh & Ed0 & Eb0 & ->).
    assert (Hx0 : In x0 group).
    { destruct group as [|y g]; [discriminate|]. injection Eh as ->. now left. }
    apply filter_In in Hx0. destruct Hx0 as [_ Hsame].
    apply same_group_date in Hsame. rewrite Hsame, Ed in Ed0. injection Ed0 as <-.
    rewrite Eb in Eb0. injection Eb0 as <-.
    fold sorted. replace n with (List.length sorted)
      by (unfold sorted; apply sort_by_length).
    apply redate_nth. exact Hx.
Qed.

(** C2 on three entries of one source and day among entries of others. *)
Lemma C2_date_spread_witness :
  exists out,
    spreadSupplementaryDates [supp_x 150; stale_grailed; supp_x 120; supp_x 200] = Ok out /\
    In stale_grailed out /\
    In (supp_x_on "2024-06-08" 120) out /\
    In (supp_x_on "2024-06-09" 150) out /\
    In (supp_x_on "2024-06-10" 200) out.
Proof.
  destruct C2_date_spread as [H _].
  destruct (H [supp_x 150; stale_grailed; supp_x 120; supp_x 200]) as (out & E & _ & Hout).
  { repeat constructor. }
  exists out. split; [exact E|].
  destruct (Hout stale_grailed "2024-05-01" (mkCivil 2024 5 1))
    as (_ & _ & _ & _ & Hone & _);
    [simpl; tauto|reflexivity|reflexivity|].
  destruct (Hout (supp_x 150) "2024-06-10" (mkCivil 2024 6 10))
    as (_ & _ & _ & _ & _ & Hmany);
    [simpl; tauto|reflexivity|reflexivity|].
  split; [apply Hone; reflexivity|].
  assert (Hn : (1 < List.length (filter (same_group (supp_x 150))
                      [supp_x 150; stale_grailed; supp_x 120; supp_x 200]))%nat)
    by (vm_compute; lia).
  assert (Hy : forall (d : string) (a : Z) (i : nat) (x y : SuppPoint),
             x = supp_x a ->
             iso_of_civil
               (days_before
                  (List.length (filter (same_group (supp_x 150))
                                  [supp_x 150; stale_grailed; supp_x 120; supp_x 200]) - 1 - i)
                  (mkCivil 2024 6 10)) = d ->
             In y out /\
             s_date y =
             Some (iso_of_civil
                     (days_before
                        (List.length (filter (same_group (supp_x 150))
                                        [supp_x 150; stale_grailed; supp_x 120; supp_x 200])
                         - 1 - i) (mkCivil 2024 6 10))) /\
             s_kind y = s_kind x /\ s_price y = s_price x /\
             s_sourceId y = s_sourceId x /\ s_url y = s_url x /\
             s_wayback y = s_wayback x ->
             In (supp_x_on d a) out).
  { intros d a i x y -> <- (Hin & Hd & Hk & Hp & Hs & Hu & Hw).
    destruct y as [yd yk yp ys yu yw]. cbn [s_date s_kind s_price s_sourceId s_url s_wayback] in *.
    subst. exact Hin. }
  destruct (Hmany Hn 0%nat (supp_x 120) eq_refl) as (y0 & H0).
  destruct (Hmany Hn 1%nat (supp_x 150) eq_refl) as (y1 & H1).
  destruct (Hmany Hn 2%nat (supp_x 200) eq_refl) as (y2 & H2).
  split; [exact (Hy "2024-06-08" 120%Z 0%nat _ y0 eq_refl eq_refl H0)|].
  split; [exact (Hy "2024-06-09" 150%Z 1%nat _ y1 eq_refl eq_refl H1)|].
  exact (Hy "2024-06-10" 200%Z 2%nat _ y2 eq_refl eq_refl H2).
Defined.

(* ----------------------------------------------------------------- *)
(** ** The matcher reports only texts of the language *)

Lemma substring_prefix (m s1 : string) :
  substring 0 (String.length (m ++ s1) - String.length s1) (m ++ s1) = m.
Proof.
  rewrite string_length_app.
  replace (String.length m + String.length s1 - String.length s1)%nat
    with (String.length m) by lia.
  induction m as [|c m IH]; simpl.
  - destruct s1; reflexivity.
  - rewrite IH. reflexivity.
Qed.

Section MatcherSound.

Context {A : Type} (Q : string -> Prop).

Lemma sound_star (r : regex) : sound_at A Q r -> sound_at A Q (RStar r).
Proof.
  intros IH s cap k x Hc. cbn [rmatch].
  generalize (String.length s). intros n. revert s cap Hc.
  induction n as [|n IHn]; intros s cap Hc H.
  - exists "", s, cap. repeat split; auto. constructor.
  - destruct (rmatch r s cap _) as [x0|] eqn:E.
    + injection H as ->.
      destruct (IH _ _ _ _ Hc E) as (m1 & s1 & cap1 & -> & L1 & Hc1 & K).
      destruct (String.length s1 <? String.length (m1 ++ s1))%nat; [|discriminate].
      destruct (IHn s1 cap1 Hc1 K) as (m2 & s2 & cap2 & -> & L2 & Hc2 & K2).
      exists (m1 ++ m2)%string, s2, cap2. rewrite string_app_assoc.
      repeat split; auto. constructor; auto.
    + exists "", s, cap. repeat split; auto. constructor.
Qed.

Lemma sound_rep (lo hi : nat) (r : regex) : sound_at A Q r -> sound_at A Q (RRep lo hi r).
Proof.
  intros IH s cap k x Hc. cbn [rmatch].
  revert lo s cap Hc. induction hi as [|hi IHh]; intros lo s cap Hc H.
  - exists "", s, cap. repeat split; auto. constructor. auto.
  - destruct (rmatch r s cap _) as [x0|] eqn:E.
    + injection H as ->.
      destruct (IH _ _ _ _ Hc E) as (m1 & s1 & cap1 & -> & L1 & Hc1 & K).
      destruct (IHh _ s1 cap1 Hc1 K) as (m2 & s2 & cap2 & -> & L2 & Hc2 & K2).
      exists (m1 ++ m2)%string, s2, cap2. rewrite string_app_assoc.
      repeat split; auto. constructor; auto.
    + destruct (Nat.eqb_spec lo 0) as [->|]; [|discriminate].
      exists "", s, cap. repeat split; auto. constructor. auto.
Qed.

Lemma rmatch_sound (r : regex) : groups_ok Q r -> sound_at A Q r.
Proof.
  induction r as [|p|r1 IH1 r2 IH2|r1 IH1 r2 IH2|r1 IH1|lo hi r1 IH1|r1 IH1];
    cbn [groups_ok]; intros G.
  - intros s cap k x Hc H. exists "", s, cap. repeat split; auto. constructor.
  - intros s cap k x Hc H. cbn [rmatch] in H.
    destruct s as [|c s]; [discriminate|]. destruct (p c) eqn:Ep; [|discriminate].
    exists (String c ""), s, cap. repeat split; auto. constructor. auto.
  - destruct G as [G1 G2]. intros s cap k x Hc H. cbn [rmatch] in H.
    destruct (IH1 G1 _ _ _ _ Hc H) as (m1 & s1 & cap1 & -> & L1 & Hc1 & K).
    destruct (IH2 G2 _ _ _ _ Hc1 K) as (m2 & s2 & cap2 & -> & L2 & Hc2 & K2).
    exists (m1 ++ m2)%string, s2, cap2. rewrite string_app_assoc.
    repeat split; auto. constructor; auto.
  - destruct G as [G1 G2]. intros s cap k x Hc H. cbn [rmatch] in H.
    destruct (rmatch r1 s cap k) as [x0|] eqn:E.
    + injection H as ->.
      destruct (IH1 G1 _ _ _ _ Hc E) as (m & s1 & cap1 & -> & L & Hc1 & K).
      exists m, s1, cap1. repeat split; auto. apply lang_alt_l; auto.
    + destruct (IH2 G2 _ _ _ _ Hc H) as (m & s1 & cap1 & -> & L & Hc1 & K).
      exists m, s1, cap1. repeat split; auto. apply lang_alt_r; auto.
  - apply sound_star. auto.
  - apply sound_rep. auto.
  - destruct G as [GQ G1]. intros s cap k x Hc H. cbn [rmatch] in H.
    destruct (IH1 G1 _ _ _ _ Hc H) as (m & s1 & cap1 & -> & L & Hc1 & K).
    rewrite substring_prefix in K.
    exists m, s1, (Some m). repeat split; auto.
    + constructor; auto.
    + simpl. auto.
Qed.

End MatcherSound.

Lemma match_here_sound (Q : string -> Prop) (r : regex) (s : string) (a : MatchArr) :
  groups_ok Q r -> match_here r s = Some a ->
  opt_sat Q (m_group a) /\ exists m, s = (m ++ m_rest a)%string /\ lang r m.
Proof.
  intros G H. unfold match_here in H.
  destruct (rmatch_sound Q r G s None _ a (I : opt_sat Q None) H) as (m & s1 & cap1 & -> & L & Hc & K).
  injection K as <-. simpl. eauto.
Qed.

Lemma rsearch_sound (Q : string -> Prop) (r : regex) (s start : string) (a : MatchArr) :
  groups_ok Q r -> rsearch r s = Some (start, a) ->
  opt_sat Q (m_group a) /\
  exists pre m, s = (pre ++ start)%string /\ start = (m ++ m_rest a)%string /\ lang r m.
Proof.
  intros G. induction s as [|c s IH]; cbn [rsearch]; intros H.
  - destruct (match_here r "") as [a0|] eqn:E; [|discriminate].
    injection H as <- <-. destruct (match_here_sound Q r _ _ G E) as (Hq & m & E1 & L).
    split; auto. exists "", m. auto.
  - destruct (match_here r (String c s)) as [a0|] eqn:E.
    + injection H as <- <-. destruct (match_here_sound Q r _ _ G E) as (Hq & m & E1 & L).
      split; auto. exists "", m. auto.
    + destruct (IH H) as (Hq & pre & m & -> & E1 & L). split; auto.
      exists (String c pre), m. auto.
Qed.

Lemma String_match_sound (Q : string -> Prop) (r : regex) (s : string) :
  groups_ok Q r -> opt_sat Q (group1_opt (String_match r s)).
Proof.
  intros G. unfold String_match.
  destruct (rsearch r s) as [[start a]|] eqn:E; simpl; auto.
  apply (rsearch_sound Q r s start a G E).
Qed.

Lemma matchAll_sound (Q : string -> Prop) (r : regex) (s : string) :
  groups_ok Q r -> Forall (fun a => opt_sat Q (m_group a)) (matchAll r s).
Proof.
  intros G. unfold matchAll. generalize (S (String.length s)). intros fuel.
  revert s. induction fuel as [|fuel IH]; intros s; cbn [matchAll_fuel].
  - constructor.
  - destruct (rsearch r s) as [[start a]|] eqn:E; [|constructor].
    constructor.
    + apply (rsearch_sound Q r s start a G E).
    + destruct (String.length (m_rest a) <? String.length start)%nat; auto.
      destruct (m_rest a); auto.
Qed.

(* ----------------------------------------------------------------- *)
(** ** What the capturing groups of the extractors hold *)

Lemma lang_chr_inv (p : ascii -> bool) (c : string) :
  lang (RChar p) c -> exists ch, c = String ch "" /\ p ch = true.
Proof. intros H. inversion H; subst. eauto. Qed.

Lemma lang_seq_inv (r1 r2 : regex) (c : string) :
  lang (RSeq r1 r2) c -> exists a b, c = (a ++ b)%string /\ lang r1 a /\ lang r2 b.
Proof. intros H. inversion H; subst. eauto. Qed.

Lemma lang_rep_inv (lo hi : nat) (r : regex) (c : string) :
  lang (RRep lo hi r) c ->
  (c = "" /\ (lo = O \/ hi = O)) \/
  exists hi' a b,
    hi = S hi' /\ c = (a ++ b)%string /\ lang r a /\ lang (RRep (Nat.pred lo) hi' r) b.
Proof. intros H. inversion H; subst; [left; auto|right; eauto 10]. Qed.

Lemma lang_star_chars (p : ascii -> bool) (all : string -> bool) (c : string) :
  all "" = true ->
  (forall ch s, all (String ch s) = p ch && all s) ->
  lang (RStar (RChar p)) c -> all c = true.
Proof.
  intros H0 HS H. remember (RStar (RChar p)) as r eqn:Er.
  induction H; try discriminate; auto.
  injection Er as ->.
  destruct (lang_chr_inv _ _ H) as (ch & -> & Hp).
  cbn [append]. rewrite HS, Hp, IHlang2; auto.
Qed.

Lemma lang_rep_chars (p : ascii -> bool) (all : string -> bool) (lo hi : nat) (c : string) :
  all "" = true ->
  (forall ch s, all (String ch s) = p ch && all s) ->
  lang (RRep lo hi (RChar p)) c ->
  all c = true /\ (String.length c <= hi)%nat /\ ((lo <= hi)%nat -> (lo <= String.length c)%nat).
Proof.
  intros H0 HS. revert lo c. induction hi as [|hi IH]; intros lo c H;
    destruct (lang_rep_inv _ _ _ _ H) as [(-> & Hz)|(hi' & a & b & Eh & -> & La & Lb)].
  - simpl. repeat split; auto; lia.
  - discriminate.
  - simpl. repeat split; auto; lia.
  - injection Eh as <-.
    destruct (lang_chr_inv _ _ La) as (ch & -> & Hp).
    destruct (IH _ _ Lb) as (Ha & Hl & Hlo).
    cbn [append String.length]. rewrite HS, Hp, Ha. repeat split; auto; lia.
Qed.

Lemma lang_plus_digits (c : string) :
  lang (rplus rdigit) c -> all_digits c = true /\ nonempty c = true.
Proof.
  intros H. destruct (lang_seq_inv _ _ _ H) as (a & b & -> & La & Lb).
  destruct (lang_chr_inv _ _ La) as (ch & -> & Hp).
  cbn [append all_digits nonempty]. rewrite Hp.
  rewrite (lang_star_chars is_digit all_digits b); auto.
Qed.

Lemma lang_rep_digits (lo hi : nat) (c : string) :
  (0 < lo <= hi)%nat -> lang (RRep lo hi rdigit) c ->
  all_digits c = true /\ nonempty c = true.
Proof.
  intros Hlo H.
  destruct (lang_rep_chars is_digit all_digits lo hi c) as (Ha & _ & Hl); auto.
  split; auto. destruct c; simpl in *; auto. lia.
Qed.

Lemma lang_dot_inv (c : string) : lang (rchr false "."%char) c -> c = ".".
Proof.
  intros H. destruct (lang_chr_inv _ _ H) as (ch & -> & Hp).
  apply Ascii.eqb_eq in Hp. subst. reflexivity.
Qed.

(** An integer part followed by an optional fraction is a decimal literal. *)
Lemma lang_decimal_gen (I F : regex) (c : string) :
  (forall i, lang I i -> all_digits i = true /\ nonempty i = true) ->
  (forall f, lang F f -> all_digits f = true /\ nonempty f = true) ->
  lang (RSeq I (ropt (RSeq (rchr false "."%char) F))) c -> decimal_literal c.
Proof.
  intros HI HF H. destruct (lang_seq_inv _ _ _ H) as (i & o & -> & Li & Lo).
  destruct (HI _ Li) as (Ha & Hn). exists i. repeat split; auto.
  unfold ropt in Lo.
  destruct (lang_rep_inv _ _ _ _ Lo) as [(-> & _)|(hi' & a & b & Eh & -> & La & Lb)].
  - left. apply string_app_nil_r.
  - right. injection Eh as <-.
    destruct (lang_rep_inv _ _ _ _ Lb) as [(-> & _)|(hi' & _ & _ & Eh & _)];
      [|discriminate].
    destruct (lang_seq_inv _ _ _ La) as (d & f & -> & Ld & Lf).
    apply lang_dot_inv in Ld. subst d.
    destruct (HF _ Lf) as (Hfa & Hfn).
    exists f. rewrite string_app_nil_r. auto.
Qed.

Lemma lang_rdecimal (c : string) : lang rdecimal c -> decimal_literal c.
Proof. apply lang_decimal_gen; apply lang_plus_digits. Qed.

Lemma lang_rdecimal23 (c : string) : lang rdecimal23 c -> decimal_literal c.
Proof.
  apply lang_decimal_gen; [intros i; apply lang_rep_digits; lia|apply lang_plus_digits].
Qed.

Lemma lang_decimal_cents (c : string) :
  lang (RSeq (rplus rdigit) (ropt (RSeq (rchr false "."%char) (RRep 2 2 rdigit)))) c ->
  decimal_literal c.
Proof.
  apply lang_decimal_gen; [apply lang_plus_digits|intros f; apply lang_rep_digits; lia].
Qed.

Lemma lang_digits23 (c : string) : lang (RRep 2 3 rdigit) c -> decimal_literal c.
Proof.
  intros H. destruct (lang_rep_digits 2 3 c) as (Ha & Hn); auto; try lia.
  exists c. auto.
Qed.

Lemma lang_three_letters (c : string) :
  lang (RRep 3 3 (RChar is_alpha)) c -> three_letters c.
Proof.
  intros H.
  destruct (lang_rep_chars is_alpha all_alpha 3 3 c) as (Ha & Hl & Hlo); auto.
  split; auto. specialize (Hlo (le_n _)). lia.
Qed.

Lemma decimal_literal_nonempty (c : string) : decimal_literal c -> nonempty c = true.
Proof.
  intros (i & Ha & Hn & [->|(f & _ & _ & ->)]); auto.
  destruct i; [discriminate|reflexivity].
Qed.

Lemma of_digits_acc_nonneg (s : string) (acc : Z) :
  (0 <= acc)%Z -> (0 <= of_digits_acc acc s)%Z.
Proof.
  revert acc. induction s as [|c s IH]; cbn [of_digits_acc]; intros acc H; auto.
  apply IH. unfold digit_val. lia.
Qed.

(** [Number] reads a decimal literal as a number that is neither [NaN] nor
    negative. *)
Lemma Number_decimal_literal (c : string) :
  decimal_literal c -> nonneg_number (Number c).
Proof.
  intros (i & Ha & Hn & Hc).
  assert (Hd : exists ch s, i = String ch s /\ is_digit ch = true).
  { destruct i as [|ch s]; [discriminate|]. cbn [all_digits] in Ha.
    apply andb_true_iff in Ha. destruct Ha. eauto. }
  destruct Hd as (ch & s & Ei & Hch).
  destruct Hc as [->|(f & Hfa & Hfn & ->)].
  - rewrite Ei, Number_leading_digit, <- Ei by auto.
    unfold Number_unsigned. rewrite split_at_all_digits by auto.
    rewrite Hn, Ha. cbn [andb].
    eexists _, _. split; [reflexivity|]. apply of_digits_acc_nonneg. lia.
  - rewrite Ei at 1. rewrite string_app_cons, Number_leading_digit by auto.
    rewrite <- string_app_cons, <- Ei.
    unfold Number_unsigned. rewrite split_at_digits by auto.
    rewrite Hn, Ha, Hfa, Hfn. cbn [andb].
    eexists _, _. split; [reflexivity|]. apply of_digits_acc_nonneg. lia.
Qed.

Lemma groups_ok_rlit (Q : string -> Prop) (ci : bool) (s : string) :
  groups_ok Q (rlit ci s).
Proof. induction s; simpl; auto. Qed.

Lemma groups_ok_rseq (Q : string -> Prop) (rs : list regex) :
  Forall (groups_ok Q) rs -> groups_ok Q (rseq rs).
Proof. induction 1; simpl; auto. Qed.

Ltac groups_of_rseq :=
  apply groups_ok_rseq;
  repeat (first [apply Forall_nil | apply Forall_cons]);
  first [exact I | apply groups_ok_rlit | now (cbn; tauto) | split; [|now (cbn; tauto)]].

Lemma groups_jsonLdPrice : groups_ok decimal_literal re_jsonLdPrice.
Proof. unfold re_jsonLdPrice. groups_of_rseq. apply lang_rdecimal. Qed.

Lemma groups_textPrice : groups_ok decimal_literal re_textPrice.
Proof. unfold re_textPrice. groups_of_rseq. apply lang_decimal_cents. Qed.

Lemma groups_jsonLdCurrency : groups_ok three_letters re_jsonLdCurrency.
Proof. unfold re_jsonLdCurrency. groups_of_rseq. apply lang_three_letters. Qed.

Lemma upper_char_alpha (c : ascii) :
  is_alpha c = true -> is_upper (upper_char c) = true.
Proof.
  destruct c as [b0 b1 b2 b3 b4 b5 b6 b7].
  destruct b0, b1, b2, b3, b4, b5, b6, b7; intros H; try reflexivity; discriminate H.
Qed.

Lemma toUpperCase_letters (c : string) :
  all_alpha c = true ->
  all_upper (toUpperCase c) = true /\ String.length (toUpperCase c) = String.length c.
Proof.
  induction c as [|ch c IH]; cbn [all_alpha toUpperCase all_upper String.length]; auto.
  intros H. apply andb_true_iff in H. destruct H as [Hc H].
  destruct (IH H) as [-> ->]. rewrite upper_char_alpha; auto.
Qed.

(** The capture of a pattern whose group holds a decimal literal is truthy
    exactly when the pattern matched. *)
Lemma decimal_capture (r : regex) (s : string) :
  groups_ok decimal_literal r ->
  match group1_opt (String_match r s) with
  | Some c => decimal_literal c /\ truthy_str (Some c) = true
  | None => True
  end.
Proof.
  intros G. pose proof (String_match_sound decimal_literal r s G) as H.
  destruct (group1_opt (String_match r s)) as [c|]; auto.
  split; auto. apply decimal_literal_nonempty in H. destruct c; [discriminate|reflexivity].
Qed.

Lemma parsed_facts (html : string) (p : Parsed) :
  UpdateData.parsePriceFromHtml html = Ok p ->
  regular p = None /\
  (forall x, current p = Some x -> nonneg_number x) /\
  String.length (p_currency p) = 3%nat /\ all_upper (p_currency p) = true.
Proof.
  unfold UpdateData.parsePriceFromHtml.
  pose proof (String_match_sound three_letters _ html groups_jsonLdCurrency) as Hcur.
  pose proof (decimal_capture _ html groups_jsonLdPrice) as Hj.
  pose proof (decimal_capture _ html groups_textPrice) as Ht.
  assert (Hc : exists c, call_toUpperCase
                 (js_or (group1_opt (String_match re_jsonLdCurrency html)) "CAD")
               = Ok c /\ String.length c = 3%nat /\ all_upper c = true).
  { destruct (group1_opt (String_match re_jsonLdCurrency html)) as [c|].
    - destruct Hcur as [Hl Ha]. destruct (toUpperCase_letters c Ha) as [Hu Hlen].
      unfold js_or. destruct c as [|ch c]; [discriminate|]. cbn [truthy_str call_toUpperCase].
      eexists. split; [reflexivity|]. split; [congruence|auto].
    - eexists. split; [reflexivity|]. split; reflexivity. }
  destruct Hc as (c & -> & Hl & Hu). cbn [bind]. intros [= <-].
  cbn [regular current p_currency]. repeat split; auto.
  intros x.
  destruct (group1_opt (String_match re_jsonLdPrice html)) as [cj|].
  - destruct Hj as [Hd ->]. intros [= <-]. apply Number_decimal_literal; auto.
  - cbn [truthy_str].
    destruct (group1_opt (String_match re_textPrice html)) as [ct|].
    + destruct Ht as [Hd ->]. intros [= <-]. apply Number_decimal_literal; auto.
    + cbn [truthy_str]. discriminate.
Qed.

(** X1.  The product-page extractor of [scripts/update-data.mjs]: the current
    price, when one is reported, is a number that is neither [NaN] nor
    negative; the JSON-LD price, when the page has one, is the one reported;
    the regular price is always null; the currency is three upper-case
    letters. *)
Theorem parsePriceFromHtml_shape (html : string) :
  exists p,
    UpdateData.parsePriceFromHtml html = Ok p /\
    regular p = None /\
    (forall x, current p = Some x -> nonneg_number x) /\
    (forall c, group1_opt (String_match re_jsonLdPrice html) = Some c ->
               current p = Some (Number c)) /\
    String.length (p_currency p) = 3%nat /\
    all_upper (p_currency p) = true.
Proof.
  destruct (parsePriceFromHtml_total html) as (p & E). exists p.
  destruct (parsed_facts html p E) as (Hreg & Hcur & Hl & Hu).
  repeat split; auto.
  intros c Ec. pose proof (decimal_capture _ html groups_jsonLdPrice) as Hj.
  unfold UpdateData.parsePriceFromHtml in E. rewrite Ec in E, Hj.
  destruct Hj as [_ Ht]. rewrite Ht in E.
  apply bind_ok in E. destruct E as (cur & _ & E). injection E as <-. reflexivity.
Qed.

(* ----------------------------------------------------------------- *)
(** ** The scraping loops: shape of the points, nothing plausible lost *)

Lemma scrape_loop_points (P : SuppPoint -> Prop) lo hi d sid u ms st :
  (forall a, in_range lo hi a -> P (scraped d a sid u)) ->
  Forall P (snd st) -> Forall P (snd (scrape_loop lo hi d sid u ms st)).
Proof.
  intros HP. unfold scrape_loop. revert st.
  induction ms as [|m ms IH]; cbn [fold_left]; intros st H; auto.
  apply IH. destruct st as [seen points]. unfold scrape_step.
  destruct (num_geb (Number_opt (m_group m)) lo) eqn:Hlo; cbn [andb]; auto.
  destruct (num_leb (Number_opt (m_group m)) hi) eqn:Hhi; cbn [andb]; auto.
  destruct (seen_has seen (Number_opt (m_group m))); cbn [negb snd]; auto.
  apply Forall_app. split; auto. constructor; auto. apply HP. split; auto.
Qed.

Lemma scrape_step_mono lo hi d sid u st m a :
  seen_has (fst st) a = true -> seen_has (fst (scrape_step lo hi d sid u st m)) a = true.
Proof.
  destruct st as [seen points]. unfold scrape_step.
  destruct (_ && _ && _); auto.
  cbn [fst]. unfold seen_has. cbn [existsb]. intros ->. apply orb_true_r.
Qed.

Lemma scrape_loop_mono lo hi d sid u ms st a :
  seen_has (fst st) a = true -> seen_has (fst (scrape_loop lo hi d sid u ms st)) a = true.
Proof.
  unfold scrape_loop. revert st.
  induction ms as [|m ms IH]; cbn [fold_left]; intros st H; auto.
  apply IH, scrape_step_mono, H.
Qed.

Lemma scrape_step_sees lo hi d sid u st m :
  in_range lo hi (Number_opt (m_group m)) ->
  seen_has (fst (scrape_step lo hi d sid u st m)) (Number_opt (m_group m)) = true.
Proof.
  intros [Hlo Hhi]. destruct st as [seen points]. unfold scrape_step.
  rewrite Hlo, Hhi. cbn [andb].
  destruct (seen_has seen (Number_opt (m_group m))) eqn:E; cbn [negb fst]; auto.
  unfold seen_has. cbn [existsb]. rewrite num_eqb_refl. reflexivity.
Qed.

Lemma scrape_loop_sees lo hi d sid u ms st m :
  In m ms -> in_range lo hi (Number_opt (m_group m)) ->
  seen_has (fst (scrape_loop lo hi d sid u ms st)) (Number_opt (m_group m)) = true.
Proof.
  unfold scrape_loop. revert st.
  induction ms as [|m0 ms IH]; cbn [fold_left]; intros st Hin Hr; [destruct Hin|].
  destruct Hin as [<-|Hin].
  - apply (scrape_loop_mono lo hi d sid u ms). apply scrape_step_sees; auto.
  - apply IH; auto.
Qed.

(** What [seen] holds is the amount of a point. *)
Lemma seen_is_point lo hi ms st a :
  scrape_inv lo hi ms st -> seen_has (fst st) a = true ->
  exists pt, In pt (snd st) /\ num_eqb a (amount_or_0 pt) = true.
Proof.
  intros [H1 _ _ _ _] H. unfold seen_has in H.
  apply existsb_exists in H. destruct H as (b & Hb & E).
  apply in_rev in Hb. rewrite <- H1 in Hb.
  apply in_map_iff in Hb. destruct Hb as (pt & <- & Hpt). eauto.
Qed.

Lemma ebay_scraped_from (today html : string) (pts : list SuppPoint) :
  FetchMarketplace.parseEbayPrices today html = Ok pts ->
  Forall (scraped_from 50 500 today "ebay" [EBAY_SOLD; EBAY_LISTINGS]) pts.
Proof.
  unfold FetchMarketplace.parseEbayPrices. cbv zeta. intros [= <-].
  apply scrape_loop_points.
  - intros a Ha. exists a, EBAY_LISTINGS. simpl. auto.
  - apply scrape_loop_points; [|constructor].
    intros a Ha. exists a, EBAY_SOLD. simpl. auto.
Qed.

Lemma ebay_snapshot_scraped_from (today html : string) (snapshotDate : option string)
  (pts : list SuppPoint) :
  FetchMarketplaceWayback.parseEbayPrices today html snapshotDate = Ok pts ->
  Forall (scraped_from 50 500 (or_str snapshotDate today) "ebay" [EBAY_SOLD]) pts.
Proof.
  unfold FetchMarketplaceWayback.parseEbayPrices. cbv zeta. intros [= <-].
  assert (HP : forall a, in_range (num_of_Z 50) (num_of_Z 500) a ->
                 scraped_from 50 500 (or_str snapshotDate today) "ebay" [EBAY_SOLD]
                   (scraped (or_str snapshotDate today) a "ebay" EBAY_SOLD)).
  { intros a Ha. exists a, EBAY_SOLD. simpl. auto. }
  repeat apply scrape_loop_points; auto.
Qed.

Lemma grailed_scraped_from (today html : string) (pts : list SuppPoint) :
  parseGrailedPrices today html = Ok pts ->
  Forall (scraped_from 80 350 today "grailed" [GRAILED_SEARCH]) pts.
Proof.
  unfold parseGrailedPrices. cbv zeta. intros [= <-].
  assert (HP : forall a, in_range (num_of_Z 80) (num_of_Z 350) a ->
                 scraped_from 80 350 today "grailed" [GRAILED_SEARCH]
                   (scraped today a "grailed" GRAILED_SEARCH)).
  { intros a Ha. exists a, GRAILED_SEARCH. simpl. auto. }
  repeat apply scrape_loop_points; auto.
Qed.

(** X3.  [parseEbayPrices] of [scripts/fetch-marketplace.mjs]: every point is a
    sale in USD of the source ebay, dated today, with an amount in
    [50, 500]; no two points have the same amount; no plausible match is
    lost. *)
Theorem parseEbayPrices_points (today html : string) :
  exists pts,
    FetchMarketplace.parseEbayPrices today html = Ok pts /\
    Forall (scraped_from 50 500 today "ebay" [EBAY_SOLD; EBAY_LISTINGS]) pts /\
    distinct_nums (map amount_or_0 pts) /\
    covers 50 500 (ebay_matches html) pts.
Proof.
  exists (snd (scrape_loop (num_of_Z 50) (num_of_Z 500) today "ebay" EBAY_LISTINGS
                 (matchAll re_spanPrice html)
                 (scrape_loop (num_of_Z 50) (num_of_Z 500) today "ebay" EBAY_SOLD
                    (matchAll re_ebayPrice html) ([], [])))).
  split; [reflexivity|].
  split; [apply (ebay_scraped_from today html); reflexivity|].
  set (lo := num_of_Z 50). set (hi := num_of_Z 500).
  set (st1 := scrape_loop lo hi today "ebay" EBAY_SOLD (matchAll re_ebayPrice html) ([], [])).
  set (st2 := scrape_loop lo hi today "ebay" EBAY_LISTINGS (matchAll re_spanPrice html) st1).
  assert (I1 : scrape_inv lo hi (ebay_matches html) st1).
  { apply scrape_loop_inv; [intros x Hx; apply in_or_app; now left|apply scrape_inv_init]. }
  assert (I2 : scrape_inv lo hi (ebay_matches html) st2).
  { apply scrape_loop_inv; [intros x Hx; apply in_or_app; now right|exact I1]. }
  split.
  - apply (si_distinct _ _ _ _ I2).
  - intros m Hm Hr. apply (seen_is_point lo hi (ebay_matches html) st2); auto.
    apply in_app_or in Hm. destruct Hm as [Hm|Hm].
    + apply scrape_loop_mono. apply scrape_loop_sees; auto.
    + apply scrape_loop_sees; auto.
Qed.

(** X4.  [parseEbayPrices] of the revision that reads archive snapshots: the
    points are dated by the snapshot when its date is given and not empty,
    by today otherwise; they are sales in USD of the source ebay with
    pairwise distinct amounts in [50, 500], and no plausible match is lost. *)
Theorem parseEbayPrices_snapshot_points (today html : string) (snapshotDate : option string) :
  exists pts,
    FetchMarketplaceWayback.parseEbayPrices today html snapshotDate = Ok pts /\
    Forall (scraped_from 50 500 (or_str snapshotDate today) "ebay" [EBAY_SOLD]) pts /\
    distinct_nums (map amount_or_0 pts) /\
    covers 50 500 (ebay_matches html) pts.
Proof.
  set (d := or_str snapshotDate today).
  set (lo := num_of_Z 50). set (hi := num_of_Z 500).
  set (st1 := scrape_loop lo hi d "ebay" EBAY_SOLD (matchAll re_ebayPrice html) ([], [])).
  set (st2 := scrape_loop lo hi d "ebay" EBAY_SOLD (matchAll re_spanPrice html) st1).
  exists (snd st2).
  split; [reflexivity|].
  split; [apply (ebay_snapshot_scraped_from today html); reflexivity|].
  assert (I1 : scrape_inv lo hi (ebay_matches html) st1).
  { apply scrape_loop_inv; [intros x Hx; apply in_or_app; now left|apply scrape_inv_init]. }
  assert (I2 : scrape_inv lo hi (ebay_matches html) st2).
  { apply scrape_loop_inv; [intros x Hx; apply in_or_app; now right|exact I1]. }
  split.
  - apply (si_distinct _ _ _ _ I2).
  - intros m Hm Hr. apply (seen_is_point lo hi (ebay_matches html) st2); auto.
    apply in_app_or in Hm. destruct Hm as [Hm|Hm].
    + apply scrape_loop_mono. apply scrape_loop_sees; auto.
    + apply scrape_loop_sees; auto.
Qed.

(** X5.  [parseGrailedPrices]: every point is a sale in USD of the source
    grailed, dated today, and no plausible match is lost. *)
Theorem parseGrailedPrices_points (today html : string) :
  exists pts,
    parseGrailedPrices today html = Ok pts /\
    Forall (scraped_from 80 350 today "grailed" [GRAILED_SEARCH]) pts /\
    covers 80 350 (grailed_matches html) pts.
Proof.
  set (lo := num_of_Z 80). set (hi := num_of_Z 350).
  set (st1 := scrape_loop lo hi today "grailed" GRAILED_SEARCH
                (matchAll re_priceMatches html) ([], [])).
  set (st2 := scrape_loop lo hi today "grailed" GRAILED_SEARCH
                (matchAll re_usdMatches html) st1).
  set (st3 := scrape_loop lo hi today "grailed" GRAILED_SEARCH
                (matchAll re_plainDollar html) st2).
  exists (snd st3).
  split; [reflexivity|].
  split; [apply (grailed_scraped_from today html); reflexivity|].
  assert (I3 : scrape_inv lo hi (grailed_matches html) st3).
  { unfold st3, st2, st1, grailed_matches.
    apply scrape_loop_inv; [intros x Hx; apply in_or_app; right; apply in_or_app; now right|].
    apply scrape_loop_inv; [intros x Hx; apply in_or_app; right; apply in_or_app; now left|].
    apply scrape_loop_inv; [intros x Hx; apply in_or_app; now left|].
    apply scrape_inv_init. }
  intros m Hm Hr. apply (seen_is_point lo hi (grailed_matches html) st3); auto.
  apply in_app_or in Hm. destruct Hm as [Hm|Hm].
  - do 2 apply scrape_loop_mono. apply scrape_loop_sees; auto.
  - apply in_app_or in Hm. destruct Hm as [Hm|Hm].
    + apply scrape_loop_mono. apply scrape_loop_sees; auto.
    + apply scrape_loop_sees; auto.
Qed.

(* ----------------------------------------------------------------- *)
(** ** From the marketplace fetcher to the updater *)





(* ----------------------------------------------------------------- *)
(** ** The snapshot sample, in general *)

Lemma subseq_nil_l {A : Type} (l : list A) : subseq [] l.
Proof. induction l; constructor; auto. Qed.

Lemma filter_index_subseq {A : Type} (keep : nat -> bool) (i : nat) (l : list A) :
  subseq (filter_index keep i l) l.
Proof.
  revert i. induction l as [|x l IH]; intros i; cbn [filter_index].
  - constructor.
  - destruct (keep i); cbn [app]; [apply subseq_keep|apply subseq_skip]; auto.
Qed.

Lemma subseq_firstn {A : Type} (n : nat) (l1 l2 : list A) :
  subseq l1 l2 -> subseq (firstn n l1) l2.
Proof.
  intros H. revert n. induction H; intros n.
  - destruct n; constructor.
  - apply subseq_skip. auto.
  - destruct n; cbn [firstn].
    + apply subseq_nil_l.
    + apply subseq_keep. auto.
Qed.

Lemma filter_index_all {A : Type} (keep : nat -> bool) (i : nat) (l : list A) :
  (forall j, (i <= j < i + List.length l)%nat -> keep j = true) ->
  filter_index keep i l = l.
Proof.
  revert i. induction l as [|x l IH]; intros i H; cbn [filter_index]; auto.
  rewrite H by (cbn [List.length]; lia). cbn [app]. f_equal.
  apply IH. intros j Hj. apply H. cbn [List.length]. lia.
Qed.

Lemma step_indices_one (fuel i n j : nat) :
  (n - i <= fuel)%nat -> (i <= j < n)%nat -> In j (step_indices fuel i 1 n).
Proof.
  revert i. induction fuel as [|fuel IH]; intros i Hf Hj; [lia|].
  cbn [step_indices]. destruct (Nat.ltb_spec i n); [|lia].
  destruct (Nat.eq_dec i j) as [->|Hne]; [now left|].
  right. apply IH; lia.
Qed.

Lemma sample_step_one (n maxSnapshots : nat) :
  (4 <= maxSnapshots)%nat -> (n <= maxSnapshots)%nat ->
  Nat.max 1 ((n - 1) / Nat.max 1 (maxSnapshots - 2)) = 1%nat.
Proof.
  intros H4 Hn.
  replace (Nat.max 1 (maxSnapshots - 2)) with (maxSnapshots - 2)%nat by lia.
  assert ((n - 1) / (maxSnapshots - 2) < 2)%nat; [|lia].
  apply Nat.Div0.div_lt_upper_bound. lia.
Qed.

(** X8.  The sampling step of [fetchEbayFromWayback]: at most [maxSnapshots]
    snapshots are kept, in their order; the oldest one is always among them;
    and when there are no more than [maxSnapshots] (at least four) all are
    kept. *)
Theorem sampled_spec {A : Type} (snapshots : list A) (maxSnapshots : nat) :
  (List.length (sampled snapshots maxSnapshots) <= maxSnapshots)%nat /\
  subseq (sampled snapshots maxSnapshots) snapshots /\
  ((0 < maxSnapshots)%nat ->
   hd_error (sampled snapshots maxSnapshots) = hd_error snapshots) /\
  ((4 <= maxSnapshots)%nat -> (List.length snapshots <= maxSnapshots)%nat ->
   sampled snapshots maxSnapshots = snapshots).
Proof.
  unfold sampled. cbv zeta. repeat split.
  - rewrite length_firstn. lia.
  - apply subseq_firstn, filter_index_subseq.
  - intros Hm. destruct snapshots as [|x l]; cbn [filter_index].
    + destruct maxSnapshots; reflexivity.
    + unfold sample_indices. cbv zeta. cbn [app existsb Nat.eqb orb].
      destruct maxSnapshots; [lia|]. reflexivity.
  - intros H4 Hn. rewrite filter_index_all.
    + apply firstn_all2. lia.
    + intros j Hj. apply existsb_exists. exists j. split; [|apply Nat.eqb_refl].
      unfold sample_indices. cbv zeta. rewrite sample_step_one by auto.
      change (In j (0%nat :: step_indices (List.length snapshots) 1 1 (List.length snapshots)
                      ++ [(List.length snapshots - 1)%nat])).
      destruct j as [|j]; [now left|].
      right. apply in_or_app. left. apply step_indices_one; lia.
Qed.

(* ----------------------------------------------------------------- *)
(** ** Maps that keep the first element of each key *)

Lemma byDate_set_spec (k v : string) (m : list (string * string)) :
  FetchMarketplaceWaybackRun.byDate_set k v m =
  if existsb (fun e => String.eqb (fst e) k) m then m else m ++ [(k, v)].
Proof.
  induction m as [|[k' v'] m IH]; cbn [FetchMarketplaceWaybackRun.byDate_set existsb fst app].
  - reflexivity.
  - destruct (String.eqb k' k); cbn [orb]; auto.
    rewrite IH. destruct (existsb _ m); reflexivity.
Qed.

Lemma find_app_first {A : Type} (f : A -> bool) (l1 l2 : list A) :
  find f (l1 ++ l2) = match find f l1 with Some x => Some x | None => find f l2 end.
Proof.
  induction l1 as [|x l1 IH]; cbn [app find]; auto. destruct (f x); auto.
Qed.

Lemma existsb_key (k : string) (m : list (string * string)) :
  existsb (fun e => String.eqb (fst e) k) m = true <-> In k (map fst m).
Proof.
  rewrite existsb_exists, in_map_iff. split.
  - intros (e & He & E). apply String.eqb_eq in E. eauto.
  - intros (e & E & He). exists e. split; auto. apply String.eqb_eq; auto.
Qed.

Lemma first_with_some (kf : string -> string) (k v : string) (l : list string) :
  first_with kf k l = Some v -> In v l /\ kf v = k.
Proof.
  unfold first_with. intros H. apply find_some in H. destruct H as [Hin E].
  apply String.eqb_eq in E. auto.
Qed.

Lemma first_inv_nil (kf : string -> string) : first_inv kf [] [].
Proof. constructor; cbn; [constructor|contradiction|contradiction]. Qed.

Lemma first_inv_step (kf : string -> string) (p : list string) (m : list (string * string))
  (x : string) :
  first_inv kf p m ->
  first_inv kf (p ++ [x]) (FetchMarketplaceWaybackRun.byDate_set (kf x) x m).
Proof.
  intros [H1 H2 H3]. rewrite byDate_set_spec.
  destruct (existsb _ m) eqn:E.
  - apply existsb_key in E. constructor; auto.
    + intros k v Hin. unfold first_with. rewrite find_app_first.
      fold (first_with kf k p). rewrite (H2 k v Hin). reflexivity.
    + intros y Hy. apply in_app_or in Hy. destruct Hy as [Hy|[<-|[]]]; auto.
  - assert (Hk : ~ In (kf x) (map fst m)).
    { intros Hk. apply existsb_key in Hk. congruence. }
    constructor.
    + rewrite map_app. cbn [map fst].
      apply NoDup_app; [auto|repeat constructor; cbn; tauto|].
      intros a Ha [<-|[]]. auto.
    + intros k v Hin. unfold first_with. rewrite find_app_first.
      fold (first_with kf k p). apply in_app_or in Hin.
      destruct Hin as [Hin|[[= <- <-]|[]]].
      * rewrite (H2 k v Hin). reflexivity.
      * destruct (first_with kf (kf x) p) as [v|] eqn:Ef.
        -- apply first_with_some in Ef. destruct Ef as [Hv Ek].
           exfalso. apply Hk. rewrite <- Ek. auto.
        -- cbn [find]. rewrite String.eqb_refl. reflexivity.
    + intros y Hy. rewrite map_app. apply in_or_app.
      apply in_app_or in Hy. destruct Hy as [Hy|[<-|[]]]; auto.
      right. now left.
Qed.

Lemma first_inv_fold (kf : string -> string) (l p : list string)
  (m : list (string * string)) :
  first_inv kf p m -> first_inv kf (p ++ l) (first_per_key kf l m).
Proof.
  unfold first_per_key. revert p m.
  induction l as [|x l IH]; intros p m H; cbn [fold_left].
  - rewrite app_nil_r. auto.
  - replace (p ++ x :: l) with ((p ++ [x]) ++ l) by (rewrite <- app_assoc; reflexivity).
    apply IH, first_inv_step, H.
Qed.

Lemma first_per_key_inv (kf : string -> string) (l : list string) :
  first_inv kf l (first_per_key kf l []).
Proof. apply (first_inv_fold kf l [] []), first_inv_nil. Qed.

(* ----------------------------------------------------------------- *)
(** ** Ascending lists of texts *)

Lemma Sorted_map {A B : Type} (R : B -> B -> Prop) (f : A -> B) (l : list A) :
  Sorted (fun a b => R (f a) (f b)) l -> Sorted R (map f l).
Proof.
  induction 1 as [|x l HS IH HR]; cbn [map]; constructor; auto.
  destruct HR; cbn [map]; constructor; auto.
Qed.

Lemma sorted_nodup_strict (l : list string) :
  Sorted (fun a b => String.compare a b <> Gt) l -> NoDup l -> strictly_ascending l.
Proof.
  intros HS HN. apply Sorted_StronglySorted in HS;
    [|intros x y z; apply string_compare_trans].
  unfold strictly_ascending. induction HS as [|x l HS IH HF]; constructor.
  - apply IH. inversion HN; auto.
  - inversion HN as [|? ? Hx HN']; subst.
    rewrite Forall_forall in *. intros y Hy. specialize (HF y Hy).
    destruct (String.compare x y) eqn:E; auto; [|congruence].
    apply String.compare_eq_iff in E. subst. contradiction.
Qed.

Lemma StronglySorted_app_inv {A : Type} (R : A -> A -> Prop) (a b : list A) :
  StronglySorted R (a ++ b) ->
  StronglySorted R b /\ forall x y, In x a -> In y b -> R x y.
Proof.
  induction a as [|x a IH]; cbn [app]; intros H.
  - split; auto. contradiction.
  - inversion H as [|? ? HS HF]; subst. destruct (IH HS) as [Hb Hab].
    split; auto. intros x' y [<-|Hx] Hy; auto.
    rewrite Forall_forall in HF. apply HF. apply in_or_app. auto.
Qed.

Lemma sort_keys_strict (keys : list string) :
  NoDup keys -> strictly_ascending (sort_by String.compare keys).
Proof.
  intros HN. apply sorted_nodup_strict.
  - apply (sort_by_sorted String.compare string_compare_total).
  - apply (Permutation_NoDup (l := keys)); auto. symmetry. apply sort_by_perm.
Qed.

(* ----------------------------------------------------------------- *)
(** ** The archive index *)

(** X9.  [getWaybackAllSnapshots]: a failed index request is passed on; otherwise
    the result holds the timestamps of the rows after the header, without the
    missing and the empty ones, in ascending order. *)
Theorem getWaybackAllSnapshots_spec (w : World) (originalUrl : string) :
  match w_cdx w originalUrl with
  | Throw e => UpdateDataRun.getWaybackAllSnapshots w originalUrl = Throw e
  | Ok raw =>
      exists l,
        UpdateDataRun.getWaybackAllSnapshots w originalUrl = Ok l /\
        Sorted (fun a b => String.compare a b <> Gt) l /\
        Permutation l (row_stamps (tl raw)) /\
        Forall (fun t => nonempty t = true) l
  end.
Proof.
  unfold UpdateDataRun.getWaybackAllSnapshots.
  destruct (w_cdx w originalUrl) as [raw|e]; cbn [bind]; [|reflexivity].
  eexists. split; [reflexivity|]. fold (row_stamps (tl raw)). repeat split.
  - apply (sort_by_sorted String.compare string_compare_total).
  - apply sort_by_perm.
  - apply Forall_forall. intros t Ht. apply sort_by_In in Ht.
    unfold row_stamps in Ht. apply filter_In in Ht. tauto.
Qed.

Lemma rows_fold (rows : list (list string)) (m : list (string * string)) :
  fold_left
    (fun m row =>
       match row with
       | ts :: _ =>
           if nonempty ts
           then FetchMarketplaceWaybackRun.byDate_set (isoDateFromWaybackTimestamp ts) ts m
           else m
       | [] => m
       end) rows m
  = first_per_key isoDateFromWaybackTimestamp (row_stamps rows) m.
Proof.
  revert m. induction rows as [|row rows IH]; intros m; cbn [fold_left]; auto.
  rewrite IH. unfold row_stamps. cbn [flat_map]. rewrite filter_app.
  unfold first_per_key. rewrite fold_left_app. f_equal.
  destruct row as [|ts rest]; cbn [filter]; auto.
  destruct (nonempty ts); reflexivity.
Qed.

Lemma getWaybackSnapshotsForUrl_ok (w : MarketWorld) (u : string) (limit : nat)
  (data : list (list string)) :
  mw_cdx w u limit = Ok data ->
  exists l,
    FetchMarketplaceWaybackRun.getWaybackSnapshotsForUrl w u limit = Ok l /\
    strictly_ascending (map snap_dateISO l) /\
    Forall (fun s => first_with isoDateFromWaybackTimestamp (snap_dateISO s)
                       (row_stamps (tl data)) = Some (snap_timestamp s)) l /\
    (forall t, In t (row_stamps (tl data)) ->
               In (isoDateFromWaybackTimestamp t) (map snap_dateISO l)).
Proof.
  intros Hd. unfold FetchMarketplaceWaybackRun.getWaybackSnapshotsForUrl.
  rewrite Hd. cbn [bind].
  eexists. split; [reflexivity|]. rewrite rows_fold.
  set (stamps := row_stamps (tl data)).
  pose proof (first_per_key_inv isoDateFromWaybackTimestamp stamps) as [H1 H2 H3].
  set (byDate := first_per_key isoDateFromWaybackTimestamp stamps []) in *.
  set (cmp := fun a b : string * string => localeCompare (fst a) (fst b)).
  assert (Hp : Permutation (map fst (sort_by cmp byDate)) (map fst byDate)).
  { apply Permutation_map, sort_by_perm. }
  rewrite map_map. cbn [snap_dateISO].
  repeat split.
  - apply sorted_nodup_strict.
    + apply Sorted_map.
      apply (sort_by_sorted cmp). intros x y. apply string_compare_total.
    + apply (Permutation_NoDup (l := map fst byDate)); auto. symmetry. exact Hp.
  - apply Forall_forall. intros s Hs. apply in_map_iff in Hs.
    destruct Hs as ([k v] & <- & He). apply sort_by_In in He.
    cbn [snap_dateISO snap_timestamp fst snd]. apply H2, He.
  - intros t Ht. apply (Permutation_in (l := map fst byDate)); [symmetry; exact Hp|].
    apply H3, Ht.
Qed.

(** X10.  [getWaybackSnapshotsForUrl]: a failed index request is passed on;
    otherwise the snapshots have strictly ascending dates (one snapshot per
    day), each one holds the first timestamp of the index that falls on its
    date, and every day of the index is there. *)
Theorem getWaybackSnapshotsForUrl_spec (w : MarketWorld) (u : string) (limit : nat) :
  match mw_cdx w u limit with
  | Throw e => FetchMarketplaceWaybackRun.getWaybackSnapshotsForUrl w u limit = Throw e
  | Ok data =>
      exists l,
        FetchMarketplaceWaybackRun.getWaybackSnapshotsForUrl w u limit = Ok l /\
        strictly_ascending (map snap_dateISO l) /\
        Forall (fun s => first_with isoDateFromWaybackTimestamp (snap_dateISO s)
                           (row_stamps (tl data)) = Some (snap_timestamp s)) l /\
        (forall t, In t (row_stamps (tl data)) ->
                   In (isoDateFromWaybackTimestamp t) (map snap_dateISO l))
  end.
Proof.
  destruct (mw_cdx w u limit) as [data|e] eqn:E.
  - apply getWaybackSnapshotsForUrl_ok. exact E.
  - unfold FetchMarketplaceWaybackRun.getWaybackSnapshotsForUrl. rewrite E. reflexivity.
Qed.

Lemma byMonth_get_first (kf : string -> string) (p : list string)
  (m : list (string * string)) (k : string) :
  first_inv kf p m -> In k (map fst m) ->
  first_with kf k p = Some (UpdateDataChcm.byMonth_get k m).
Proof.
  intros [H1 H2 H3] Hk. unfold UpdateDataChcm.byMonth_get.
  destruct (find (fun e => String.eqb (fst e) k) m) as [[k' v]|] eqn:E.
  - apply find_some in E. destruct E as [Hin Ek]. cbn [fst] in Ek.
    apply String.eqb_eq in Ek. subst k'. cbn [snd]. apply H2, Hin.
  - apply in_map_iff in Hk. destruct Hk as (e & <- & He).
    apply (find_none _ _ E) in He. rewrite String.eqb_refl in He. discriminate.
Qed.

Lemma byMonth_fold (timestamps : list string) (m : list (string * string)) :
  fold_left (fun m ts => UpdateDataChcm.byMonth_set (slice 0 6 ts) ts m) timestamps m
  = first_per_key month_of timestamps m.
Proof.
  unfold first_per_key. revert m.
  induction timestamps as [|ts l IH]; intros m; cbn [fold_left]; auto.
Qed.

(** X11.  [getWaybackMonthlySnapshots] of the earlier updater, on the timestamps
    of the index: at most [maxMonths] timestamps come back, of strictly
    ascending months; each is the first timestamp of its month; and a month
    of the index that is left out is older than every month kept. *)
Theorem getWaybackMonthlySnapshots_spec (timestamps : list string) (maxMonths : nat) :
  let kept := UpdateDataChcm.getWaybackMonthlySnapshots timestamps maxMonths in
  (List.length kept <= maxMonths)%nat /\
  strictly_ascending (map month_of kept) /\
  Forall (fun ts => first_with month_of (month_of ts) timestamps = Some ts) kept /\
  (forall t, In t timestamps -> ~ In (month_of t) (map month_of kept) ->
             Forall (fun ts => String.compare (month_of t) (month_of ts) = Lt) kept).
Proof.
  unfold UpdateDataChcm.getWaybackMonthlySnapshots. cbv zeta.
  rewrite byMonth_fold.
  pose proof (first_per_key_inv month_of timestamps) as Hinv.
  set (byMonth := first_per_key month_of timestamps []) in *.
  set (months := sort_by String.compare (map fst byMonth)).
  set (n := (List.length months - maxMonths)%nat).
  assert (Hm : forall k, In k months <-> In k (map fst byMonth)).
  { intros k. apply sort_by_In. }
  assert (Hs : strictly_ascending months).
  { apply sort_keys_strict, (fi_nodup _ _ _ Hinv). }
  assert (Hsplit : months = firstn n months ++ skipn n months).
  { symmetry. apply firstn_skipn. }
  unfold strictly_ascending in Hs. rewrite Hsplit in Hs.
  apply StronglySorted_app_inv in Hs. destruct Hs as [Htail Hlt].
  assert (Hget : forall k, In k (skipn n months) ->
                   first_with month_of k timestamps
                   = Some (UpdateDataChcm.byMonth_get k byMonth)).
  { intros k Hk. apply byMonth_get_first; auto. apply Hm.
    rewrite Hsplit. apply in_or_app. auto. }
  assert (Hmonths : map month_of (map (fun m => UpdateDataChcm.byMonth_get m byMonth)
                                      (skipn n months)) = skipn n months).
  { rewrite map_map. rewrite <- (map_id (skipn n months)) at 2.
    apply map_ext_in. intros k Hk.
    destruct (first_with_some _ _ _ _ (Hget k Hk)) as [_ E]. exact E. }
  rewrite Hmonths. repeat split.
  - rewrite length_map, length_skipn. unfold n. lia.
  - exact Htail.
  - apply Forall_forall. intros ts Hts. apply in_map_iff in Hts.
    destruct Hts as (k & <- & Hk).
    destruct (first_with_some _ _ _ _ (Hget k Hk)) as [_ E]. rewrite E.
    apply Hget, Hk.
  - intros t Ht Hnot. apply Forall_forall. intros ts Hts.
    apply in_map_iff in Hts. destruct Hts as (k & <- & Hk).
    destruct (first_with_some _ _ _ _ (Hget k Hk)) as [_ E]. rewrite E.
    apply Hlt; auto.
    assert (Hin : In (month_of t) months).
    { apply Hm. apply (fi_cover _ _ _ Hinv), Ht. }
    rewrite Hsplit in Hin. apply in_app_or in Hin. tauto.
Qed.

(* ----------------------------------------------------------------- *)
(** ** Timestamps and dates *)

Lemma digits_4_value (y : Z) :
  (0 <= y <= 9999)%Z ->
  (100 * (10 * (y / 10 / 10 / 10 mod 10) + y / 10 / 10 mod 10)
   + (10 * (y / 10 mod 10) + y mod 10) = y)%Z.
Proof. intros H. Z.div_mod_to_equations. lia. Qed.

Lemma digits_2_value (m : Z) :
  (0 <= m <= 99)%Z -> (10 * (m / 10 mod 10) + m mod 10 = m)%Z.
Proof. intros H. Z.div_mod_to_equations. lia. Qed.

Lemma parse_iso_of_civil (c : civil) :
  valid_civil c = true -> (0 <= c_year c <= 9999)%Z ->
  parse_iso_date (iso_of_civil c) = Some c.
Proof.
  intros Hv Hy. pose proof Hv as Hv'. apply valid_civil_iff in Hv'.
  destruct c as [y m d]. cbn [c_year c_month c_day] in *.
  pose proof (days_in_month_range y m) as Hd.
  unfold iso_of_civil. cbn [c_year c_month c_day].
  destruct (Z.leb_spec 0 y); [|lia]. destruct (Z.leb_spec y 9999); [|lia].
  cbn [andb fixed_digits append]. unfold parse_iso_date.
  rewrite !is_digit_char by apply mod10_range.
  change (Ascii.eqb "-" "-") with true. cbn [andb].
  unfold digits2. rewrite !digit_val_char by apply mod10_range.
  rewrite digits_4_value, !digits_2_value by lia.
  rewrite Hv. reflexivity.
Qed.

(** X12.  [isoDateFromWaybackTimestamp]: the timestamp of a capture made on a day
    of the calendar (years 0 to 9999) gives the ISO date of that day, which
    reads back as the day. *)
Theorem wayback_timestamp_date (c : civil) (rest : string) :
  valid_civil c = true -> (0 <= c_year c <= 9999)%Z ->
  let ts := (fixed_digits 4 (c_year c) ++ fixed_digits 2 (c_month c)
             ++ fixed_digits 2 (c_day c) ++ rest)%string in
  isoDateFromWaybackTimestamp ts = iso_of_civil c /\
  parse_iso_date (isoDateFromWaybackTimestamp ts) = Some c.
Proof.
  intros Hv Hy ts.
  assert (E : isoDateFromWaybackTimestamp ts = iso_of_civil c).
  { unfold ts, iso_of_civil.
    destruct (Z.leb_spec 0 (c_year c)); [|lia].
    destruct (Z.leb_spec (c_year c) 9999); [|lia].
    cbn [andb fixed_digits append].
    unfold isoDateFromWaybackTimestamp, slice. cbn [Nat.sub substring append].
    destruct rest; reflexivity. }
  rewrite E. split; auto. apply parse_iso_of_civil; auto.
Qed.

Lemma wayback_timestamp_date_witness :
  isoDateFromWaybackTimestamp "20240302101500" = "2024-03-02" /\
  parse_iso_date (isoDateFromWaybackTimestamp "20240302101500")
  = Some (mkCivil 2024 3 2).
Proof.
  apply (wayback_timestamp_date (mkCivil 2024 3 2) "101500").
  - reflexivity.
  - simpl. lia.
Defined.

Example getWaybackAllSnapshots_ex :
  UpdateDataRun.getWaybackAllSnapshots world_cdx (src_url SOURCE)
  = Ok ["20240105083000"; "20240302101500"; "20240302235959"].
Proof. vm_compute. reflexivity. Qed.

Example getWaybackSnapshotsForUrl_ex :
  FetchMarketplaceWaybackRun.getWaybackSnapshotsForUrl market_cdx EBAY_SOLD 100
  = Ok [mkSnapshot "20240105083000" "2024-01-05"; mkSnapshot "20240302101500" "2024-03-02"].
Proof. vm_compute. reflexivity. Qed.

(* ----------------------------------------------------------------- *)
(** ** The marketplace fetcher: what a run adds to the store *)

Lemma set_has_In (seen : list string) (k : string) :
  set_has seen k = true <-> In k seen.
Proof.
  unfold set_has. rewrite existsb_exists. split.
  - intros (x & Hx & E). apply String.eqb_eq in E. subst. auto.
  - intros H. exists k. split; auto. apply String.eqb_refl.
Qed.

Lemma add_new_cons (pt : SuppPoint) (found : list SuppPoint)
  (st : list string * list SuppPoint) :
  add_new (pt :: found) st =
  add_new found (if set_has (fst st) (seenKey pt) then st
                 else (seenKey pt :: fst st, snd st ++ [pt])).
Proof. destruct st as [keys pts]. reflexivity. Qed.

Lemma add_new_inv (keys0 : list string) (found : list SuppPoint)
  (st : list string * list SuppPoint) :
  add_inv keys0 st -> add_inv keys0 (add_new found st).
Proof.
  revert st. induction found as [|pt found IH]; intros st H; auto.
  rewrite add_new_cons. apply IH.
  destruct (set_has (fst st) (seenKey pt)) eqn:E; auto.
  assert (Hn : ~ In (seenKey pt) (fst st)).
  { intros Hin. apply set_has_In in Hin. congruence. }
  destruct H as [H1 H2 H3]. constructor; cbn [fst snd].
  - intros k. rewrite map_app, in_app_iff. cbn [map In]. rewrite H1. tauto.
  - rewrite map_app. cbn [map]. apply NoDup_app; auto.
    + repeat constructor. cbn. tauto.
    + intros k Hk [<-|[]]. apply Hn. apply H1. auto.
  - apply Forall_app. split; auto. constructor; auto.
    intros Hin. apply Hn. apply H1. auto.
Qed.

Lemma add_new_mono (found : list SuppPoint) (st : list string * list SuppPoint) (k : string) :
  In k (fst st) -> In k (fst (add_new found st)).
Proof.
  revert st. induction found as [|pt found IH]; intros st H; auto.
  rewrite add_new_cons. apply IH.
  destruct (set_has (fst st) (seenKey pt)); auto. cbn [fst]. now right.
Qed.

Lemma add_new_sees (found : list SuppPoint) (st : list string * list SuppPoint)
  (pt : SuppPoint) :
  In pt found -> In (seenKey pt) (fst (add_new found st)).
Proof.
  revert st. induction found as [|pt0 found IH]; intros st Hin; [destruct Hin|].
  rewrite add_new_cons. destruct Hin as [<-|Hin]; [|apply IH; auto].
  apply add_new_mono.
  destruct (set_has (fst st) (seenKey pt0)) eqn:E.
  - apply set_has_In. auto.
  - cbn [fst]. now left.
Qed.

Lemma add_new_none (found : list SuppPoint) (st : list string * list SuppPoint) :
  (forall pt, In pt found -> In (seenKey pt) (fst st)) -> add_new found st = st.
Proof.
  induction found as [|pt found IH]; intros H; auto.
  rewrite add_new_cons.
  assert (E : set_has (fst st) (seenKey pt) = true).
  { apply set_has_In. apply H. now left. }
  rewrite E. apply IH. intros pt' Hpt'. apply H. now right.
Qed.

Lemma try_add_inv (keys0 : list string) (found : result (list SuppPoint))
  (st : list string * list SuppPoint) :
  add_inv keys0 st -> add_inv keys0 (try_add found st).
Proof. destruct found; cbn [try_add]; auto using add_new_inv. Qed.

Lemma try_add_mono (found : result (list SuppPoint)) (st : list string * list SuppPoint)
  (k : string) :
  In k (fst st) -> In k (fst (try_add found st)).
Proof. destruct found; cbn [try_add]; auto using add_new_mono. Qed.

Lemma try_add_none (found : result (list SuppPoint)) (st : list string * list SuppPoint) :
  (forall pts pt, found = Ok pts -> In pt pts -> In (seenKey pt) (fst st)) ->
  try_add found st = st.
Proof.
  destruct found as [pts|e]; cbn [try_add]; auto.
  intros H. apply add_new_none. intros pt Hpt. apply (H pts); auto.
Qed.

Lemma try_add_sees (found : result (list SuppPoint)) (st : list string * list SuppPoint)
  (pts : list SuppPoint) (pt : SuppPoint) :
  found = Ok pts -> In pt pts -> In (seenKey pt) (fst (try_add found st)).
Proof. intros -> Hin. cbn [try_add]. apply add_new_sees; auto. Qed.

Lemma add_inv_init (stored : list SuppPoint) :
  add_inv (map seenKey stored) (map seenKey stored, []).
Proof.
  constructor; cbn [fst snd map].
  - intros k. cbn. tauto.
  - constructor.
  - constructor.
Qed.

Lemma by_date_then_amount_total (x y : SuppPoint) :
  by_date_then_amount x y = Gt -> by_date_then_amount y x <> Gt.
Proof.
  unfold by_date_then_amount, localeCompare.
  rewrite (String.compare_antisym (show_opt_str (s_date y))).
  destruct (String.compare (show_opt_str (s_date x)) (show_opt_str (s_date y)));
    cbn [CompOpp]; try discriminate.
  apply by_amount_total.
Qed.

Lemma sort_supp_sorted (l l' : list SuppPoint) :
  sort_supp l = Ok l' -> Sorted date_amount_le l'.
Proof.
  unfold sort_supp. destruct (Nat.leb_spec (List.length l) 1).
  - intros [= <-]. destruct l as [|a [|b l]]; cbn [List.length] in *; try lia;
      repeat constructor.
  - destruct (forallb has_date l); [|discriminate]. intros [= <-].
    apply (sort_by_sorted by_date_then_amount by_date_then_amount_total).
Qed.

(** X13.  [main] of [scripts/fetch-marketplace.mjs] run again on the store it
    left, with the pages unchanged: nothing is added, the store stays as it
    is. *)
Theorem fetch_marketplace_rerun (w : MarketWorld) (after : list SuppPoint) :
  FetchMarketplaceRun.main w = Ok after ->
  FetchMarketplaceRun.main (with_store w after) = Ok after.
Proof.
  unfold FetchMarketplaceRun.main.
  destruct (loadStore (mw_suppFile w)) as [stored|e] eqn:El; cbn [bind]; [|discriminate].
  cbv zeta. cbn [with_store mw_today mw_fetchText mw_suppFile loadStore bind].
  set (G := bind (mw_fetchText w GRAILED_SEARCH)
                 (fun html => parseGrailedPrices (mw_today w) html)).
  set (E := bind (mw_fetchText w EBAY_SOLD)
                 (fun html => FetchMarketplace.parseEbayPrices (mw_today w) html)).
  set (st0 := (map seenKey stored, @nil SuppPoint)).
  set (st1 := try_add G st0). set (st2 := try_add E st1).
  assert (I2 : add_inv (map seenKey stored) st2).
  { apply try_add_inv, try_add_inv, add_inv_init. }
  destruct (Nat.ltb_spec 0 (List.length (snd st2))) as [Hlen|Hlen].
  - intros Hw. unfold write_merged in Hw. apply sort_supp_perm in Hw.
    assert (Hk : forall k, In k (fst st2) -> In k (map seenKey after)).
    { intros k Hin. apply (ai_keys _ _ I2) in Hin.
      apply (Permutation_in (l := map seenKey (stored ++ snd st2)));
        [apply Permutation_map, Hw|].
      rewrite map_app. apply in_or_app. exact Hin. }
    rewrite (try_add_none G).
    + rewrite (try_add_none E); [reflexivity|].
      intros pts pt EE Hpt. cbn [fst]. apply Hk. apply (try_add_sees E st1 pts); auto.
    + intros pts pt EG Hpt. cbn [fst]. apply Hk. apply try_add_mono.
      apply (try_add_sees G st0 pts); auto.
  - intros [= <-]. fold st0 st1 st2.
    destruct (Nat.ltb_spec 0 (List.length (snd st2))); [lia|reflexivity].
Qed.

Lemma fetch_marketplace_rerun_witness :
  FetchMarketplaceRun.main
    (with_store world_grailed
       [stale_grailed; scraped "2024-06-10" (Dec 120 0) "grailed" GRAILED_SEARCH])
  = Ok [stale_grailed; scraped "2024-06-10" (Dec 120 0) "grailed" GRAILED_SEARCH].
Proof.
  apply (fetch_marketplace_rerun world_grailed).
  vm_compute. reflexivity.
Defined.

(** X14.  The points a run of the marketplace fetcher collects have pairwise
    distinct keys, none of which is a key of the store; a run that collects
    nothing leaves the store as it is; a run that ends normally leaves the
    store as it is or sorted by date, then amount. *)
Theorem marketplace_run_adds_fresh (w : MarketWorld) (stored : list SuppPoint) :
  let newPoints := FetchMarketplaceWaybackRun.collect w stored in
  NoDup (map seenKey newPoints) /\
  Forall (fun pt => ~ In (seenKey pt) (map seenKey stored)) newPoints /\
  (newPoints = [] -> FetchMarketplaceWaybackRun.refresh stored newPoints = Ok stored) /\
  (forall after,
      FetchMarketplaceWaybackRun.refresh stored newPoints = Ok after ->
      after = stored \/ Sorted date_amount_le after).
Proof.
  cbv zeta.
  assert (I3 : add_inv (map seenKey stored)
                 (try_add (FetchMarketplaceWaybackRun.fetchEbayFromWayback w 15)
                    (try_add (bind (mw_fetchText w EBAY_SOLD)
                                (fun html => FetchMarketplaceWayback.parseEbayPrices
                                               (mw_today w) html None))
                       (try_add (bind (mw_fetchText w GRAILED_SEARCH)
                                   (fun html => parseGrailedPrices (mw_today w) html))
                          (map seenKey stored, []))))).
  { repeat apply try_add_inv. apply add_inv_init. }
  unfold FetchMarketplaceWaybackRun.collect. cbv zeta.
  split; [apply (ai_nodup _ _ I3)|]. split; [apply (ai_fresh _ _ I3)|]. split.
  - intros ->. reflexivity.
  - intros after. unfold FetchMarketplaceWaybackRun.refresh. cbv zeta.
    destruct (_ || _).
    + intros H. right. unfold write_merged in H. apply (sort_supp_sorted _ _ H).
    + intros [= <-]. now left.
Qed.

(* ----------------------------------------------------------------- *)
(** ** Where the points of a series come from *)

Lemma upper_char_upper (c : ascii) : is_upper c = true -> upper_char c = c.
Proof.
  destruct c as [b0 b1 b2 b3 b4 b5 b6 b7].
  destruct b0, b1, b2, b3, b4, b5, b6, b7; intros H; try reflexivity; discriminate H.
Qed.

Lemma toUpperCase_upper (s : string) : all_upper s = true -> toUpperCase s = s.
Proof.
  induction s as [|c s IH]; cbn [all_upper toUpperCase]; auto.
  intros H. apply andb_true_iff in H. destruct H as [Hc Hs].
  rewrite upper_char_upper, IH; auto.
Qed.

Lemma upper_currency (cur d1 d2 : string) :
  String.length cur = 3%nat -> all_upper cur = true ->
  call_toUpperCase (js_or (js_or (Some cur) d1) d2) = Ok cur.
Proof.
  intros Hl Hu. destruct cur as [|c s]; [discriminate|].
  unfold js_or. cbn [truthy_str call_toUpperCase]. rewrite toUpperCase_upper; auto.
Qed.

Lemma rate_of_page (w : World) (cur d : string) (r : jsnum) :
  (if String.eqb cur "CAD" then Ok (Dec 1 0) else UpdateDataRun.fxRate w d cur "CAD") = Ok r ->
  rate_of w cur d r.
Proof.
  destruct (String.eqb_spec cur "CAD") as [->|NE]; intros H.
  - left. split; congruence.
  - right. auto.
Qed.

Lemma page_points_current (p : Parsed) (cur : string) (r : jsnum) (d sid u : string)
  (wb : option Wayback) :
  regular p = None ->
  UpdateDataRun.page_points p cur r d sid u wb =
  match current p with
  | Some c => [mkPoint d "sale" (mkPrice c cur) (priceCadOf c r cur d) sid u wb]
  | None => []
  end.
Proof.
  intros H. unfold UpdateDataRun.page_points. rewrite H, app_nil_r. reflexivity.
Qed.

Lemma primary_points_emitted (w : World) (snapshots : list string) (supp : list SuppPoint)
  (l : list Point) :
  UpdateDataRun.primary_points w = Ok l ->
  Forall (emitted w snapshots supp) l /\ (List.length l <= 1)%nat.
Proof.
  unfold UpdateDataRun.primary_points. intros H.
  apply bind_ok in H. destruct H as (html & _ & H).
  apply bind_ok in H. destruct H as (parsed & Hp & H).
  destruct (parsed_facts html parsed Hp) as (Hreg & Hcur & Hl & Hu).
  rewrite upper_currency in H by auto. cbn [bind] in H.
  apply bind_ok in H. destruct H as (r & Hr & H).
  injection H as <-. rewrite page_points_current by auto.
  destruct (current parsed) as [c|]; [|split; [constructor|cbn; lia]].
  split; [|cbn; lia]. constructor; [|constructor].
  apply emitted_live; auto. apply rate_of_page, Hr.
Qed.

Lemma snapshot_points_emitted (w : World) (snapshots : list string) (supp : list SuppPoint)
  (ts : string) (l : list Point) :
  In ts snapshots ->
  UpdateDataRun.snapshot_points w ts = Ok l -> Forall (emitted w snapshots supp) l.
Proof.
  intros Hts. unfold UpdateDataRun.snapshot_points.
  destruct (w_fetchText w _) as [html|]; [|intros [= <-]; constructor].
  intros H. apply bind_ok in H. destruct H as (p & Hp & H).
  destruct (parsed_facts html p Hp) as (Hreg & Hcur & Hl & Hu).
  rewrite Hreg in H. destruct (current p) as [c|] eqn:Ec; [|injection H as <-; constructor].
  rewrite upper_currency in H by auto. cbn [bind] in H.
  destruct (if String.eqb (p_currency p) "CAD" then Ok (Dec 1 0) else _) as [r|] eqn:Er;
    injection H as <-; [|constructor].
  rewrite page_points_current, Ec by auto. constructor; [|constructor].
  apply emitted_snapshot; auto. apply rate_of_page, Er.
Qed.

Lemma snapshots_points_emitted (w : World) (snapshots : list string) (supp : list SuppPoint)
  (tss : list string) (l : list Point) :
  incl tss snapshots ->
  UpdateDataRun.snapshots_points w tss = Ok l -> Forall (emitted w snapshots supp) l.
Proof.
  revert l. induction tss as [|ts tss IH]; cbn [UpdateDataRun.snapshots_points]; intros l Hi H.
  - injection H as <-. constructor.
  - apply bind_ok in H. destruct H as (a & Ha & H).
    apply bind_ok in H. destruct H as (b & Hb & H).
    injection H as <-. apply Forall_app. split.
    + apply (snapshot_points_emitted w snapshots supp ts); auto. apply Hi. now left.
    + apply IH; auto. intros x Hx. apply Hi. now right.
Qed.

Lemma historical_points_emitted (w : World) (b : bool) (supp : list SuppPoint)
  (l : list Point) :
  UpdateDataRun.historical_points w b = Ok l ->
  Forall (emitted w (snapshots_of w b) supp) l.
Proof.
  unfold UpdateDataRun.historical_points, snapshots_of. destruct b.
  - apply snapshots_points_emitted. apply incl_refl.
  - intros [= <-]. constructor.
Qed.

Lemma truthy_nonempty (o : option string) (s : string) :
  o = Some s -> truthy_str o = true -> nonempty s = true.
Proof. intros -> H. destruct s; [discriminate|reflexivity]. Qed.

Lemma supplementary_point_emitted (w : World) (snapshots : list string)
  (supp : list SuppPoint) (pt : SuppPoint) (l : list Point) :
  In pt supp ->
  UpdateDataRun.supplementary_point w pt = Ok l -> Forall (emitted w snapshots supp) l.
Proof.
  intros Hin. unfold UpdateDataRun.supplementary_point.
  destruct (s_date pt) as [d|] eqn:Ed, (s_kind pt) as [k|] eqn:Ek,
           (s_price pt) as [pr|] eqn:Ep, (s_sourceId pt) as [sid|] eqn:Es,
           (s_url pt) as [u|] eqn:Eu;
    try (intros [= <-]; constructor).
  destruct (truthy_str (Some d)) eqn:Td; cbn [negb orb]; [|intros [= <-]; constructor].
  destruct (truthy_str (Some k)) eqn:Tk; cbn [negb orb]; [|intros [= <-]; constructor].
  destruct (truthy_num (sp_amount pr)) eqn:Ta; cbn [negb orb]; [|intros [= <-]; constructor].
  destruct (truthy_str (Some sid)) eqn:Ts; cbn [negb orb]; [|intros [= <-]; constructor].
  destruct (truthy_str (Some u)) eqn:Tu; cbn [negb orb]; [|intros [= <-]; constructor].
  destruct (sp_amount pr) as [a|] eqn:Ea; [|intros [= <-]; constructor].
  intros H. apply bind_ok in H. destruct H as (cur & Hc & H).
  assert (Hr : forall r,
             (if negb (String.eqb cur "CAD") then UpdateDataRun.fxRate w d cur "CAD"
              else Ok (Dec 1 0)) = Ok r -> rate_of w cur d r).
  { intros r. destruct (String.eqb_spec cur "CAD") as [->|NE]; cbn [negb]; intros E.
    - left. split; congruence.
    - right. auto. }
  destruct (if negb (String.eqb cur "CAD") then _ else _) as [r|] eqn:Er;
    injection H as <-; [|constructor].
  constructor; [|constructor].
  apply (emitted_supp w snapshots supp pt d k pr a sid u cur r); auto;
    eapply truthy_nonempty; eauto.
Qed.

Lemma supplementary_points_emitted (w : World) (snapshots : list string)
  (supp all : list SuppPoint) (l : list Point) :
  incl supp all ->
  UpdateDataRun.supplementary_points w supp = Ok l -> Forall (emitted w snapshots all) l.
Proof.
  revert l. induction supp as [|pt supp IH];
    cbn [UpdateDataRun.supplementary_points]; intros l Hi H.
  - injection H as <-. constructor.
  - apply bind_ok in H. destruct H as (a & Ha & H).
    apply bind_ok in H. destruct H as (b & Hb & H).
    injection H as <-. apply Forall_app. split.
    + apply (supplementary_point_emitted w snapshots all pt); auto. apply Hi. now left.
    + apply IH; auto. intros x Hx. apply Hi. now right.
Qed.

(** Every point of a series is one of the three kinds of emitted points. *)
Lemma buildSeries_emitted (w : World) (b : bool) (art : Artifact) :
  UpdateDataRun.buildSeries w b = Ok art ->
  exists supp0 supp,
    UpdateDataRun.loadSupplementaryPoints w = Ok supp0 /\
    spreadSupplementaryDates supp0 = Ok supp /\
    Forall (emitted w (snapshots_of w b) supp) (series art).
Proof.
  intros H. apply buildSeries_ok in H.
  destruct H as (primary & historical & supp0 & supp1 & supplementary
                 & H1 & H2 & H3 & H4 & H5 & ->).
  exists supp0, supp1. split; auto. split; auto.
  cbn [series]. apply Forall_forall. intros p Hp. apply mergeSeries_incl in Hp.
  revert p Hp. apply Forall_forall.
  repeat (apply Forall_app; split).
  - apply (primary_points_emitted w _ _ _ H1).
  - apply historical_points_emitted; auto.
  - apply (supplementary_points_emitted w _ supp1 supp1); auto. apply incl_refl.
Qed.

Lemma fxRate_truthy (w : World) (d from to : string) (r : jsnum) :
  UpdateDataRun.fxRate w d from to = Ok r -> truthy_num (Some r) = true.
Proof.
  unfold UpdateDataRun.fxRate. intros H.
  apply bind_ok in H. destruct H as (o & _ & H).
  destruct o as [x|]; [|discriminate].
  destruct (truthy_num (Some x)) eqn:E; [|discriminate]. congruence.
Qed.

Lemma rate_of_finite (w : World) (cur d : string) (r : jsnum) :
  rate_of w cur d r -> exists m e, r = Dec m e.
Proof.
  intros [[_ ->]|[_ H]]; [eauto|].
  apply fxRate_truthy in H. destruct r; [discriminate|eauto].
Qed.

Lemma truthy_num_finite (a : jsnum) : truthy_num (Some a) = true -> exists m e, a = Dec m e.
Proof. destruct a; [discriminate|eauto]. Qed.

(** The price of an emitted point is a number. *)
Lemma emitted_amount (w : World) (snapshots : list string) (supp : list SuppPoint)
  (p : Point) :
  emitted w snapshots supp p -> amount (price p) <> NaN.
Proof.
  intros [a cur r Ha _ _ Hr|ts a cur r _ Ha _ _ Hr
          |pt d k pr a sid u cur r _ _ _ _ _ _ _ _ _ _ _ Ha _ Hr];
    cbn [price amount].
  - destruct Ha as (m & e & -> & _). discriminate.
  - destruct Ha as (m & e & -> & _). discriminate.
  - apply truthy_num_finite in Ha. destruct Ha as (m & e & ->). discriminate.
Qed.

Lemma emitted_fx (w : World) (snapshots : list string) (supp : list SuppPoint) (p : Point) :
  emitted w snapshots supp p ->
  exists r,
    priceCad p = priceCadOf (amount (price p)) r (currency (price p)) (date p) /\
    rate_of w (currency (price p)) (date p) r.
Proof.
  intros [a cur r _ _ _ Hr|ts a cur r _ _ _ _ Hr
          |pt d k pr a sid u cur r _ _ _ _ _ _ _ _ _ _ _ _ _ Hr];
    exists r; cbn [price amount currency priceCad date]; auto.
Qed.

(** X16.  The conversion record of a series point: a point in CAD has none; a
    point in another currency records the pair, the date of the point, the
    service, and the rate the service gave for that date, which is not
    zero. *)
Theorem series_fx_records (w : World) (b : bool) (art : Artifact) (p : Point) :
  UpdateDataRun.buildSeries w b = Ok art -> In p (series art) ->
  match fx (priceCad p) with
  | None => currency (price p) = "CAD"
  | Some f =>
      currency (price p) <> "CAD" /\
      pair f = (currency (price p) ++ "/CAD")%string /\
      fx_date f = date p /\ source f = "frankfurter.app" /\
      UpdateDataRun.fxRate w (date p) (currency (price p)) "CAD" = Ok (rate f) /\
      truthy_num (Some (rate f)) = true
  end.
Proof.
  intros H Hp. destruct (buildSeries_emitted w b art H) as (supp0 & supp & _ & _ & HF).
  rewrite Forall_forall in HF. specialize (HF p Hp).
  destruct (emitted_fx _ _ _ _ HF) as (r & -> & Hr).
  unfold priceCadOf. cbn [fx].
  destruct Hr as [[-> ->]|[NE Hr]].
  - reflexivity.
  - destruct (String.eqb_spec (currency (price p)) "CAD") as [E|_]; [contradiction|].
    cbn [pair fx_date source rate].
    repeat split; auto. apply (fxRate_truthy _ _ _ _ _ Hr).
Qed.

Lemma series_fx_records_witness :
  match fx (priceCad usd_point) with
  | None => currency (price usd_point) = "CAD"
  | Some f =>
      currency (price usd_point) <> "CAD" /\
      pair f = (currency (price usd_point) ++ "/CAD")%string /\
      fx_date f = date usd_point /\ source f = "frankfurter.app" /\
      UpdateDataRun.fxRate world_usd (date usd_point) (currency (price usd_point)) "CAD"
      = Ok (rate f) /\
      truthy_num (Some (rate f)) = true
  end.
Proof.
  apply (series_fx_records world_usd false
           (mkArtifact UpdateDataRun.the_product SOURCES [usd_point])).
  - vm_compute. reflexivity.
  - simpl. left. reflexivity.
Defined.

(** X17.  No price of a series is [NaN]: the price of the live page and of a
    snapshot is read from a decimal literal, and a supplementary entry
    whose amount is [NaN] does not pass the guard. *)
Theorem series_no_nan (w : World) (b : bool) (art : Artifact) :
  UpdateDataRun.buildSeries w b = Ok art ->
  Forall (fun p => amount (price p) <> NaN) (series art).
Proof.
  intros H. destruct (buildSeries_emitted w b art H) as (supp0 & supp & _ & _ & HF).
  eapply Forall_impl; [|exact HF]. intros p. apply emitted_amount.
Qed.

Lemma series_no_nan_witness :
  Forall (fun p => amount (price p) <> NaN) [usd_point].
Proof.
  apply (series_no_nan world_usd false
           (mkArtifact UpdateDataRun.the_product SOURCES [usd_point])).
  vm_compute. reflexivity.
Defined.

(** X18.  Where a series point comes from.  It is the point of the live page
    (a sale of the primary source dated today, without archive timestamp), or
    the point of a snapshot the run read (a sale of the primary source dated
    by its archive timestamp), or it takes its date, source, url, archive
    timestamp and amount from an entry of the spread supplementary file, and
    is an msrp point exactly when that entry says so.  Without [--wayback]
    there is no snapshot. *)
Theorem series_origins (w : World) (b : bool) (art : Artifact) :
  UpdateDataRun.buildSeries w b = Ok art ->
  exists supp0 supp,
    UpdateDataRun.loadSupplementaryPoints w = Ok supp0 /\
    spreadSupplementaryDates supp0 = Ok supp /\
    (b = false -> snapshots_of w b = []) /\
    Forall (fun p =>
              (date p = w_today w /\ kind p = "sale" /\ sourceId p = src_id SOURCE /\
               url p = src_url SOURCE /\ wayback p = None) \/
              (exists ts,
                  In ts (snapshots_of w b) /\ wayback p = Some (mkWayback ts) /\
                  date p = isoDateFromWaybackTimestamp ts /\ kind p = "sale" /\
                  sourceId p = src_id SOURCE /\ url p = src_url SOURCE) \/
              (exists pt,
                  In pt supp /\ s_date pt = Some (date p) /\
                  s_sourceId pt = Some (sourceId p) /\ s_url pt = Some (url p) /\
                  s_wayback pt = wayback p /\
                  price_amount pt = Some (amount (price p)) /\
                  (kind p = "msrp" <-> s_kind pt = Some "msrp")))
           (series art).
Proof.
  intros H. destruct (buildSeries_emitted w b art H) as (supp0 & supp & H1 & H2 & HF).
  exists supp0, supp. split; auto. split; auto. split; [intros ->; reflexivity|].
  eapply Forall_impl; [|exact HF].
  intros p [a cur r _ _ _ _|ts a cur r Hts _ _ _ _
            |pt d k pr a sid u cur r Hin Ed Ek Ep Es Eu Ea _ _ _ _ _ _ _];
    cbn [date kind sourceId url wayback price amount].
  - left. auto.
  - right. left. exists ts. auto 10.
  - right. right. exists pt. unfold price_amount. rewrite Ep, Ek.
    repeat split; auto.
    + destruct (String.eqb_spec k "msrp") as [->|NE]; [auto|discriminate].
    + intros [= ->]. reflexivity.
Qed.

Lemma series_origins_witness :
  exists supp0 supp,
    UpdateDataRun.loadSupplementaryPoints world_usd = Ok supp0 /\
    spreadSupplementaryDates supp0 = Ok supp /\
    (false = false -> snapshots_of world_usd false = []) /\
    Forall (fun p =>
              (date p = w_today world_usd /\ kind p = "sale" /\ sourceId p = src_id SOURCE /\
               url p = src_url SOURCE /\ wayback p = None) \/
              (exists ts,
                  In ts (snapshots_of world_usd false) /\ wayback p = Some (mkWayback ts) /\
                  date p = isoDateFromWaybackTimestamp ts /\ kind p = "sale" /\
                  sourceId p = src_id SOURCE /\ url p = src_url SOURCE) \/
              (exists pt,
                  In pt supp /\ s_date pt = Some (date p) /\
                  s_sourceId pt = Some (sourceId p) /\ s_url pt = Some (url p) /\
                  s_wayback pt = wayback p /\
                  price_amount pt = Some (amount (price p)) /\
                  (kind p = "msrp" <-> s_kind pt = Some "msrp")))
           [usd_point].
Proof.
  apply (series_origins world_usd false
           (mkArtifact UpdateDataRun.the_product SOURCES [usd_point])).
  vm_compute. reflexivity.
Defined.

(* ----------------------------------------------------------------- *)
(** ** Date spreading on arbitrary entries *)

Lemma map_push_perm (k : string) (pt : SuppPoint) (m : list (string * list SuppPoint)) :
  Permutation (List.concat (map snd (map_push k pt m))) (pt :: List.concat (map snd m)).
Proof.
  induction m as [|[k0 g0] m IH]; cbn [map_push map snd List.concat app].
  - reflexivity.
  - destruct (String.eqb k0 k); cbn [map snd List.concat].
    + rewrite <- app_assoc. cbn [app].
      symmetry. apply (Permutation_middle (g0) (List.concat (map snd m)) pt).
    + rewrite IH. symmetry. apply (Permutation_middle g0 (List.concat (map snd m)) pt).
Qed.

Lemma group_fold_perm (rest : list SuppPoint) (m : list (string * list SuppPoint)) :
  Permutation
    (List.concat (map snd (fold_left (fun m pt => map_push (group_key pt) pt m) rest m)))
    (List.concat (map snd m) ++ rest).
Proof.
  revert m. induction rest as [|pt rest IH]; intros m; cbn [fold_left].
  - rewrite app_nil_r. reflexivity.
  - rewrite IH, map_push_perm. apply Permutation_middle.
Qed.

Lemma group_by_key_perm (points : list SuppPoint) :
  Permutation (List.concat (map snd (group_by_key points))) points.
Proof. apply (group_fold_perm points []). Qed.

Lemma redate_undated (b : civil) (g : list SuppPoint) :
  map undated (redate b g) = map undated g.
Proof. induction g as [|x g IH]; cbn [redate map]; [|rewrite IH]; reflexivity. Qed.

Lemma spread_group_undated (g r : list SuppPoint) :
  spread_group g = Ok r -> Permutation (map undated r) (map undated g).
Proof.
  unfold spread_group. destruct (List.length g <=? 1)%nat; [intros [= <-]; reflexivity|].
  cbv zeta. destruct (Date_at_noon _) as [b|]; [|discriminate].
  intros [= <-]. rewrite redate_undated. apply Permutation_map, sort_by_perm.
Qed.

Lemma spread_groups_undated (gs : list (list SuppPoint)) (out : list SuppPoint) :
  spread_groups gs = Ok out ->
  Permutation (map undated out) (map undated (List.concat gs)).
Proof.
  revert out. induction gs as [|g gs IH]; cbn [spread_groups List.concat]; intros out H.
  - injection H as <-. reflexivity.
  - apply bind_ok in H. destruct H as (a & Ha & H).
    apply bind_ok in H. destruct H as (b & Hb & H). injection H as <-.
    rewrite !map_app. apply Permutation_app; [apply spread_group_undated|apply IH]; auto.
Qed.

(** X19.  [spreadSupplementaryDates] on entries of the data model (a source
    id and an ISO calendar date each): it returns, the result holds the
    entries it was given with nothing changed but dates, and it is sorted by
    date, then amount. *)
Theorem spread_keeps_entries (points : list SuppPoint) :
  Forall (fun pt => wf_supp pt = true) points ->
  exists out,
    spreadSupplementaryDates points = Ok out /\
    Permutation (map undated out) (map undated points) /\
    Sorted date_amount_le out.
Proof.
  intros Hwf.
  pose proof (group_by_key_inv points) as [ND HG HC HL].
  assert (Hgs : Forall (fun g => g <> [] /\ Forall (fun x => wf_supp x = true) g)
                       (map snd (group_by_key points))).
  { apply Forall_forall. intros g Hg. apply in_map_iff in Hg.
    destruct Hg as ([k g'] & <- & Hin). destruct (HG k g' Hin) as [-> Hne].
    split; auto. apply Forall_forall. intros x Hx. apply filter_In in Hx.
    rewrite Forall_forall in Hwf. apply Hwf. tauto. }
  destruct (spread_groups_ok _ Hgs) as (out0 & E0 & _ & D0 & _).
  destruct (sort_supp_ok out0 D0) as (out & Eo & _).
  exists out.
  split; [unfold spreadSupplementaryDates; rewrite E0; exact Eo|]. split.
  - rewrite <- (Permutation_map undated (sort_supp_perm _ _ Eo)).
    rewrite (spread_groups_undated _ _ E0).
    apply Permutation_map, group_by_key_perm.
  - apply (sort_supp_sorted _ _ Eo).
Qed.

Lemma spread_keeps_entries_witness :
  exists out,
    spreadSupplementaryDates [supp_x 150; stale_grailed; supp_x 120; supp_x 200] = Ok out /\
    Permutation (map undated out)
                (map undated [supp_x 150; stale_grailed; supp_x 120; supp_x 200]) /\
    Sorted date_amount_le out.
Proof.
  apply (spread_keeps_entries [supp_x 150; stale_grailed; supp_x 120; supp_x 200]).
  repeat constructor.
Defined.

(* ----------------------------------------------------------------- *)
(** ** Entries without a date *)

Lemma undefined_key_date (a b d : string) (c : civil) :
  (a ++ "|" ++ d)%string = (b ++ "|" ++ "undefined")%string ->
  parse_iso_date d = Some c -> False.
Proof.
  intros E Hp. destruct (parse_iso_date_print d c Hp) as (_ & L & _).
  change (a ++ "|" ++ d)%string with (a ++ String "|" d)%string in E.
  replace (a ++ String "|" d)%string with ((a ++ "|") ++ d)%string in E
    by (rewrite string_app_assoc; reflexivity).
  apply string_app_inj_length in E; [|rewrite L; reflexivity].
  destruct E as [_ ->]. vm_compute in Hp. discriminate.
Qed.

Lemma filter_two {A : Type} (f : A -> bool) (pre mid post : list A) (x y : A) :
  f x = true -> f y = true ->
  (2 <= List.length (filter f (pre ++ x :: mid ++ y :: post)))%nat.
Proof.
  intros Hx Hy. rewrite filter_app. cbn [filter]. rewrite Hx.
  rewrite filter_app. cbn [filter]. rewrite Hy.
  rewrite length_app. cbn [List.length]. rewrite length_app. cbn [List.length]. lia.
Qed.

Lemma spread_groups_throws (gs : list (list SuppPoint)) (g : list SuppPoint) (e : string) :
  In g gs -> spread_group g = Throw e -> exists e', spread_groups gs = Throw e'.
Proof.
  induction gs as [|g0 gs IH]; intros Hin Hg; [destruct Hin|].
  cbn [spread_groups]. destruct Hin as [->|Hin].
  - rewrite Hg. cbn [bind]. eauto.
  - destruct (spread_group g0); cbn [bind]; [|eauto].
    destruct (IH Hin Hg) as (e' & ->). cbn [bind]. eauto.
Qed.

Lemma undated_pair_throws (pre mid post : list SuppPoint) (p1 p2 : SuppPoint) :
  s_date p1 = None -> s_date p2 = None -> s_sourceId p1 = s_sourceId p2 ->
  exists e, spreadSupplementaryDates (pre ++ p1 :: mid ++ p2 :: post) = Throw e.
Proof.
  intros D1 D2 ES.
  set (points := pre ++ p1 :: mid ++ p2 :: post).
  set (k := group_key p1).
  assert (K2 : group_key p2 = k).
  { unfold k, group_key. rewrite D1, D2, ES. reflexivity. }
  destruct (group_by_key_inv points) as [ND HG HC HL].
  assert (Hk : In k (map fst (group_by_key points))).
  { apply HC. unfold points. apply in_or_app. right. now left. }
  apply in_map_iff in Hk. destruct Hk as ([k' g] & Ek & Hin). cbn [fst] in Ek. subst k'.
  destruct (HG k g Hin) as [Eg _].
  assert (Hlen : (2 <= List.length g)%nat).
  { rewrite Eg. unfold points. apply filter_two; unfold keyed.
    - apply String.eqb_refl.
    - rewrite K2. apply String.eqb_refl. }
  assert (Hthrow : exists e, spread_group g = Throw e).
  { unfold spread_group. destruct (Nat.leb_spec (List.length g) 1); [lia|]. cbv zeta.
    destruct g as [|x g']; [cbn in Hlen; lia|].
    assert (Hx : keyed k x = true).
    { assert (Hxin : In x (filter (keyed k) points)) by (rewrite <- Eg; now left).
      apply filter_In in Hxin. tauto. }
    unfold keyed in Hx. apply String.eqb_eq in Hx.
    destruct (Date_at_noon (s_date x)) as [c|] eqn:Ec; [|eauto].
    exfalso. unfold Date_at_noon in Ec. destruct (s_date x) as [d|] eqn:Ed; [|discriminate].
    unfold k, group_key in Hx. rewrite Ed, D1 in Hx. cbn [show_opt_str] in Hx.
    apply (undefined_key_date _ _ _ _ Hx Ec). }
  destruct Hthrow as (e & He).
  destruct (spread_groups_throws (map snd (group_by_key points)) g e) as (e' & He'); auto.
  { apply in_map_iff. exists (k, g). auto. }
  unfold spreadSupplementaryDates. cbv zeta. fold points. rewrite He'. cbn [bind]. eauto.
Qed.

(** X20.  Two supplementary entries of one source (an id without the key
    separator) that both lack a date make date spreading throw, and with it
    the whole run ends without an artifact. *)
Theorem undated_pair_aborts (w : World) (b : bool) (pre mid post : list SuppPoint)
  (p1 p2 : SuppPoint) :
  w_suppFile w = FileEntries (pre ++ p1 :: mid ++ p2 :: post) ->
  s_date p1 = None -> s_date p2 = None -> s_sourceId p1 = s_sourceId p2 ->
  sep_free (show_opt_str (s_sourceId p1)) = true ->
  (exists e, spreadSupplementaryDates (pre ++ p1 :: mid ++ p2 :: post) = Throw e) /\
  (exists e, UpdateDataRun.main w b = UpdateDataRun.Exit1 e).
Proof.
  intros Hf D1 D2 ES _.
  destruct (undated_pair_throws pre mid post p1 p2 D1 D2 ES) as (e & He).
  split; [eauto|].
  unfold UpdateDataRun.main, UpdateDataRun.buildSeries.
  destruct (UpdateDataRun.primary_points w) as [primary|e1]; cbn [bind]; [|eauto].
  destruct (historical_points_total w b) as (h & Eh). rewrite Eh. cbn [bind].
  unfold UpdateDataRun.loadSupplementaryPoints. rewrite Hf. cbn [bind].
  rewrite He. cbn [bind]. eauto.
Qed.

Lemma undated_pair_aborts_witness :
  (exists e, spreadSupplementaryDates [supp_undated 120; supp_undated 150] = Throw e) /\
  (exists e, UpdateDataRun.main world_undated false = UpdateDataRun.Exit1 e).
Proof.
  apply (undated_pair_aborts world_undated false [] [] [] (supp_undated 120) (supp_undated 150));
    reflexivity.
Defined.

(* ----------------------------------------------------------------- *)
(** ** The earlier updater *)

Example chcm_parse_ex :
  UpdateDataChcmRun.parsePriceFromHtml html_chcm
  = mkParsed (Some (Dec 18000 2)) (Some (Dec 122500 2)) "USD".
Proof. vm_compute. reflexivity. Qed.

Example chcm_parse_nan :
  UpdateDataChcmRun.parsePriceFromHtml html_chcm_bad = mkParsed (Some NaN) None "USD".
Proof. vm_compute. reflexivity. Qed.

Example chcm_build_ex :
  UpdateDataChcmRun.buildSeries world_chcm false
  = Ok (mkArtifact UpdateDataChcmRun.the_product [CHCM_SOURCE] [chcm_sale; chcm_msrp]).
Proof. vm_compute. reflexivity. Qed.

Lemma groups_ok_lazy (Q : string -> Prop) (n : nat) (rest : regex) :
  groups_ok Q rest -> groups_ok Q (rlazy_any n rest).
Proof. intros H. induction n as [|n IH]; cbn [rlazy_any groups_ok]; auto. Qed.

Lemma lang_plus_chars (p : ascii -> bool) (all : string -> bool) (c : string) :
  all "" = true ->
  (forall ch s, all (String ch s) = p ch && all s) ->
  lang (rplus (RChar p)) c -> all c = true /\ nonempty c = true.
Proof.
  intros H0 HS H. destruct (lang_seq_inv _ _ _ H) as (a & b & -> & La & Lb).
  destruct (lang_chr_inv _ _ La) as (ch & -> & Hp).
  cbn [append nonempty]. rewrite HS, Hp.
  rewrite (lang_star_chars p all b); auto.
Qed.

Lemma groups_ogAmount :
  groups_ok (fun c => dotted c = true /\ nonempty c = true) re_ogAmount.
Proof.
  unfold re_ogAmount. groups_of_rseq.
  intros c. apply (lang_plus_chars is_digit_or_point dotted); auto.
Qed.

Lemma groups_ogCurrency : groups_ok three_letters re_ogCurrency.
Proof. unfold re_ogCurrency. groups_of_rseq. apply lang_three_letters. Qed.

Lemma groups_regularBlock :
  groups_ok (fun c => comma_dotted c = true /\ nonempty c = true) re_regularBlock.
Proof.
  unfold re_regularBlock. cbn [groups_ok]. split; [apply groups_ok_rlit|].
  apply groups_ok_lazy. groups_of_rseq.
  intros c. apply (lang_plus_chars is_digit_comma_point comma_dotted); auto.
Qed.

Lemma remove_commas_dotted (c : string) :
  comma_dotted c = true -> dotted (remove_commas c) = true.
Proof.
  induction c as [|ch c IH]; cbn [comma_dotted remove_commas]; auto.
  intros H. apply andb_true_iff in H. destruct H as [Hc H].
  destruct (Ascii.eqb_spec ch ","%char) as [->|NE]; auto.
  cbn [dotted]. rewrite IH by auto. unfold is_digit_comma_point in Hc.
  unfold is_digit_or_point. apply Ascii.eqb_neq in NE. rewrite NE, orb_false_r in Hc.
  rewrite Hc. reflexivity.
Qed.

Lemma Number_dotted_sign (s : string) : Number_dotted s = NaN \/ nonneg_number (Number_dotted s).
Proof.
  unfold Number_dotted. destruct s as [|c s]; [right; exists 0%Z, O; split; [auto|lia]|].
  destruct (split_at "." (String c s)) as [i [f|]].
  - destruct (_ && _ && _); auto. right. eexists _, _. split; [reflexivity|].
    apply of_digits_acc_nonneg. lia.
  - destruct (all_digits i); auto. right. eexists _, _. split; [reflexivity|].
    apply of_digits_acc_nonneg. lia.
Qed.

(** X21.  [parsePriceFromHtml] of the earlier updater: a reported price is the
    number read from a text of digits and points (after the commas of the
    regular price were removed), so it is [NaN] or a number that is not
    negative; the currency is the default USD or three letters as the page
    spells them. *)
Theorem chcm_parse_shape (html : string) :
  let p := UpdateDataChcmRun.parsePriceFromHtml html in
  (forall x, current p = Some x ->
             exists c, dotted c = true /\ nonempty c = true /\ x = Number_dotted c) /\
  (forall x, regular p = Some x -> exists c, dotted c = true /\ x = Number_dotted c) /\
  (forall x, current p = Some x \/ regular p = Some x -> x = NaN \/ nonneg_number x) /\
  (p_currency p = "USD" \/ three_letters (p_currency p)).
Proof.
  cbv zeta. unfold UpdateDataChcmRun.parsePriceFromHtml. cbv zeta.
  cbn [current regular p_currency].
  pose proof (String_match_sound _ _ html groups_ogAmount) as Ha.
  pose proof (String_match_sound _ _ html groups_ogCurrency) as Hc.
  pose proof (String_match_sound _ _ html groups_regularBlock) as Hr.
  assert (H1 : forall x,
             match group1_opt (String_match re_ogAmount html) with
             | Some c => if truthy_str (Some c) then Some (Number_dotted c) else None
             | None => None
             end = Some x ->
             exists c, dotted c = true /\ nonempty c = true /\ x = Number_dotted c).
  { intros x. destruct (group1_opt (String_match re_ogAmount html)) as [c|]; [|discriminate].
    destruct Ha as [Hd Hn]. destruct (truthy_str (Some c)); [|discriminate].
    intros [= <-]. eauto. }
  assert (H2 : forall x,
             match group1_opt (String_match re_regularBlock html) with
             | Some c =>
                 if truthy_str (Some c) then Some (Number_dotted (remove_commas c)) else None
             | None => None
             end = Some x ->
             exists c, dotted c = true /\ x = Number_dotted c).
  { intros x. destruct (group1_opt (String_match re_regularBlock html)) as [c|];
      [|discriminate].
    destruct Hr as [Hd Hn]. destruct (truthy_str (Some c)); [|discriminate].
    intros [= <-]. exists (remove_commas c). split; auto using remove_commas_dotted. }
  repeat split; auto.
  - intros x [H|H].
    + destruct (H1 x H) as (c & _ & _ & ->). apply Number_dotted_sign.
    + destruct (H2 x H) as (c & _ & ->). apply Number_dotted_sign.
  - destruct (group1_opt (String_match re_ogCurrency html)) as [[|ch c]|]; cbn [or_str]; auto.
Qed.

Lemma chcm_page_points_shape (p : Parsed) (cur : string) (r : jsnum) (d : string)
  (wb : option Wayback) (pt : Point) :
  In pt (UpdateDataChcmRun.page_points p cur r d wb) ->
  exists k a,
    (k = "sale" \/ k = "msrp") /\ pt = UpdateDataChcmRun.chcm_point d k a cur r wb.
Proof.
  unfold UpdateDataChcmRun.page_points. intros H. apply in_app_or in H.
  destruct H as [H|H].
  - destruct (current p) as [c|]; [|destruct H]. destruct H as [<-|[]]. eauto.
  - destruct (regular p) as [c|]; [|destruct H]. destruct H as [<-|[]]. eauto.
Qed.

Lemma chcm_snapshot_points_shape (w : World) (ts : string) (pt : Point) :
  In pt (UpdateDataChcmRun.snapshot_points w ts) ->
  exists k a cur r,
    (k = "sale" \/ k = "msrp") /\
    UpdateDataRun.fxRate w (isoDateFromWaybackTimestamp ts) "USD" "CAD" = Ok r /\
    pt = UpdateDataChcmRun.chcm_point (isoDateFromWaybackTimestamp ts) k a cur r
           (Some (mkWayback ts)).
Proof.
  unfold UpdateDataChcmRun.snapshot_points. cbv zeta.
  destruct (w_fetchText w _) as [html|]; [|intros []].
  set (p := UpdateDataChcmRun.parsePriceFromHtml html).
  destruct (UpdateDataRun.fxRate w (isoDateFromWaybackTimestamp ts) "USD" "CAD")
    as [r|] eqn:Er.
  - intros H.
    assert (H' : In pt (UpdateDataChcmRun.page_points p (or_str (Some (p_currency p)) "USD")
                          r (isoDateFromWaybackTimestamp ts) (Some (mkWayback ts)))).
    { destruct (current p), (regular p); auto. destruct H. }
    destruct (chcm_page_points_shape _ _ _ _ _ _ H') as (k & a & Hk & ->).
    exists k, a, (or_str (Some (p_currency p)) "USD"), r. auto.
  - destruct (current p), (regular p); intros [].
Qed.

(** X22.  The series of the earlier updater: every point is of the one source,
    dated today when it has no archive timestamp and by that timestamp
    otherwise; whatever the currency of the page, its conversion record names
    the pair USD/CAD and holds the rate the service gave for USD on the date
    of the point. *)
Theorem chcm_series_fx (w : World) (b : bool) (art : Artifact) (pt : Point) :
  UpdateDataChcmRun.buildSeries w b = Ok art -> In pt (series art) ->
  sourceId pt = "chcm" /\ url pt = src_url CHCM_SOURCE /\
  (kind pt = "sale" \/ kind pt = "msrp") /\
  match wayback pt with
  | None => date pt = w_today w
  | Some wb => b = true /\ date pt = isoDateFromWaybackTimestamp (timestamp wb)
  end /\
  exists r,
    UpdateDataRun.fxRate w (date pt) "USD" "CAD" = Ok r /\
    fx (priceCad pt) = Some (mkFx "USD/CAD" r "frankfurter.app" (date pt)).
Proof.
  unfold UpdateDataChcmRun.buildSeries. cbv zeta. intros H Hin.
  apply bind_ok in H. destruct H as (usdToCad & Hfx & H).
  apply bind_ok in H. destruct H as (html & Hhtml & H).
  apply bind_ok in H. destruct H as (historical & Hh & H).
  injection H as <-. cbn [series] in Hin. apply mergeSeries_incl in Hin.
  apply in_app_or in Hin. destruct Hin as [Hin|Hin].
  - destruct (chcm_page_points_shape _ _ _ _ _ _ Hin) as (k & a & Hk & ->).
    unfold UpdateDataChcmRun.chcm_point.
    cbn [sourceId url kind wayback date priceCad fx].
    repeat split; auto. exists usdToCad. auto.
  - destruct b; [|injection Hh as <-; destruct Hin].
    apply bind_ok in Hh. destruct Hh as (snapshots & _ & Hh). injection Hh as <-.
    apply in_flat_map in Hin. destruct Hin as (ts & _ & Hin).
    destruct (chcm_snapshot_points_shape _ _ _ Hin) as (k & a & cur & r & Hk & Hr & ->).
    unfold UpdateDataChcmRun.chcm_point.
    cbn [sourceId url kind wayback date priceCad fx timestamp].
    repeat split; auto. exists r. auto.
Qed.

Lemma chcm_series_fx_witness :
  sourceId chcm_msrp = "chcm" /\ url chcm_msrp = src_url CHCM_SOURCE /\
  (kind chcm_msrp = "sale" \/ kind chcm_msrp = "msrp") /\
  match wayback chcm_msrp with
  | None => date chcm_msrp = w_today world_chcm
  | Some wb => false = true /\ date chcm_msrp = isoDateFromWaybackTimestamp (timestamp wb)
  end /\
  exists r,
    UpdateDataRun.fxRate world_chcm (date chcm_msrp) "USD" "CAD" = Ok r /\
    fx (priceCad chcm_msrp) = Some (mkFx "USD/CAD" r "frankfurter.app" (date chcm_msrp)).
Proof.
  apply (chcm_series_fx world_chcm false
           (mkArtifact UpdateDataChcmRun.the_product [CHCM_SOURCE] [chcm_sale; chcm_msrp])).
  - vm_compute. reflexivity.
  - simpl. right. left. reflexivity.
Defined.

(** X23.  The failures of the earlier updater.  The rate of today is looked up
    first and without a guard: when it cannot be had the run ends without an
    artifact, whatever the page shows; so does a failed fetch of the page,
    and, with [--wayback], a failed index request or an index row without
    timestamp.  When the rate, the page, the index (if asked for) and the
    write succeed, an artifact is written whatever the snapshot pages and
    their rates answer. *)
Theorem chcm_failure_policy (w : World) (b : bool) :
  ((exists e, UpdateDataRun.fxRate w (w_today w) "USD" "CAD" = Throw e) ->
   exists e, UpdateDataChcmRun.main w b = UpdateDataRun.Exit1 e) /\
  ((exists e, w_fetchText w (src_url CHCM_SOURCE) = Throw e) ->
   exists e, UpdateDataChcmRun.main w b = UpdateDataRun.Exit1 e) /\
  ((exists e, UpdateDataChcmRun.getWaybackMonthlySnapshots w (src_url CHCM_SOURCE) 48
              = Throw e) ->
   exists e, UpdateDataChcmRun.main w true = UpdateDataRun.Exit1 e) /\
  (forall raw, w_cdx w (src_url CHCM_SOURCE) = Ok raw -> In [] (tl raw) ->
               exists e, UpdateDataChcmRun.getWaybackMonthlySnapshots w (src_url CHCM_SOURCE) 48
                         = Throw e) /\
  (forall r html,
      UpdateDataRun.fxRate w (w_today w) "USD" "CAD" = Ok r ->
      w_fetchText w (src_url CHCM_SOURCE) = Ok html ->
      (b = false \/
       exists l, UpdateDataChcmRun.getWaybackMonthlySnapshots w (src_url CHCM_SOURCE) 48
                 = Ok l) ->
      (forall data, w_writeFile w data = Ok tt) ->
      exists art, UpdateDataChcmRun.main w b = UpdateDataRun.Wrote art).
Proof.
  unfold UpdateDataChcmRun.main, UpdateDataChcmRun.buildSeries. cbv zeta.
  split; [|split; [|split; [|split]]].
  - intros (e & ->). cbn [bind]. eauto.
  - intros (e & ->).
    destruct (UpdateDataRun.fxRate w (w_today w) "USD" "CAD"); cbn [bind]; eauto.
  - intros (e & ->).
    destruct (UpdateDataRun.fxRate w (w_today w) "USD" "CAD"); cbn [bind]; eauto.
    destruct (w_fetchText w (src_url CHCM_SOURCE)); cbn [bind]; eauto.
  - intros raw Hraw Hin. unfold UpdateDataChcmRun.getWaybackMonthlySnapshots.
    rewrite Hraw. cbn [bind].
    assert (Ht : exists e, UpdateDataChcmRun.row_timestamps (tl raw) = Throw e).
    { induction (tl raw) as [|row rows IH]; [destruct Hin|].
      cbn [UpdateDataChcmRun.row_timestamps].
      destruct Hin as [->|Hin]; [eauto|].
      destruct row as [|t row]; [eauto|].
      destruct (IH Hin) as (e & ->). cbn [bind]. eauto. }
    destruct Ht as (e & ->). cbn [bind]. eauto.
  - intros r html -> -> Hb Hw. cbn [bind].
    destruct Hb as [->|(l & Hl)].
    + cbn [bind]. rewrite Hw. eauto.
    + destruct b; [rewrite Hl|]; cbn [bind]; rewrite Hw; eauto.
Qed.

(* ----------------------------------------------------------------- *)
(** ** Prices from archived listings *)

Lemma subseq_In {A : Type} (l1 l2 : list A) (x : A) : subseq l1 l2 -> In x l1 -> In x l2.
Proof.
  induction 1 as [|y l1 l2 _ IH|y l1 l2 _ IH]; intros Hin; auto.
  - right. auto.
  - destruct Hin as [->|Hin]; [now left|right; auto].
Qed.

Lemma sampled_incl {A : Type} (snapshots : list A) (maxSnapshots : nat) :
  incl (sampled snapshots maxSnapshots) snapshots.
Proof.
  intros x. apply subseq_In. unfold sampled. cbv zeta.
  apply subseq_firstn, filter_index_subseq.
Qed.

Lemma first_snapshots_from (w : MarketWorld) (urls : list string) (s : Snapshot) :
  In s (FetchMarketplaceWaybackRun.first_snapshots w urls) ->
  exists u l,
    In u urls /\ FetchMarketplaceWaybackRun.getWaybackSnapshotsForUrl w u 100 = Ok l /\
    In s l.
Proof.
  induction urls as [|u urls IH]; cbn [FetchMarketplaceWaybackRun.first_snapshots];
    intros Hin; [destruct Hin|].
  destruct (FetchMarketplaceWaybackRun.getWaybackSnapshotsForUrl w u 100) as [[|s0 l]|e] eqn:E.
  - destruct (IH Hin) as (u' & l' & Hu & El & Hs). exists u', l'. split; [now right|auto].
  - exists u, (s0 :: l). split; [now left|auto].
  - destruct (IH Hin) as (u' & l' & Hu & El & Hs). exists u', l'. split; [now right|auto].
Qed.

Lemma snapshot_date_of_stamp (w : MarketWorld) (u : string) (limit : nat)
  (l : list Snapshot) (s : Snapshot) :
  FetchMarketplaceWaybackRun.getWaybackSnapshotsForUrl w u limit = Ok l -> In s l ->
  snap_dateISO s = isoDateFromWaybackTimestamp (snap_timestamp s) /\
  nonempty (snap_timestamp s) = true.
Proof.
  intros E Hs. destruct (mw_cdx w u limit) as [data|e] eqn:Ec.
  - destruct (getWaybackSnapshotsForUrl_ok w u limit data Ec) as (l' & E' & _ & HF & _).
    rewrite E in E'. injection E' as <-.
    rewrite Forall_forall in HF. specialize (HF s Hs).
    apply first_with_some in HF. destruct HF as [Hin Hk]. split; auto.
    unfold row_stamps in Hin. apply filter_In in Hin. tauto.
  - unfold FetchMarketplaceWaybackRun.getWaybackSnapshotsForUrl in E.
    rewrite Ec in E. discriminate.
Qed.

Lemma iso_date_nonempty (ts : string) : nonempty (isoDateFromWaybackTimestamp ts) = true.
Proof.
  unfold isoDateFromWaybackTimestamp. destruct (slice 0 4 ts); reflexivity.
Qed.

(** X15.  [fetchEbayFromWayback] never fails.  Each point it returns was read off
    the archived copy of a sampled snapshot of the index: it is a sale in USD
    of the source ebay with an amount in [50, 500], dated by the archive
    timestamp of that snapshot and not by the day of the run.  When no index
    request succeeds nothing is returned. *)
Theorem fetchEbayFromWayback_points (w : MarketWorld) (maxSnapshots : nat) :
  exists pts,
    FetchMarketplaceWaybackRun.fetchEbayFromWayback w maxSnapshots = Ok pts /\
    Forall (fun pt =>
              exists u l s,
                FetchMarketplaceWaybackRun.getWaybackSnapshotsForUrl w u 100 = Ok l /\
                In s l /\
                scraped_from 50 500 (isoDateFromWaybackTimestamp (snap_timestamp s))
                             "ebay" [EBAY_SOLD] pt) pts /\
    ((forall u limit, exists e, mw_cdx w u limit = Throw e) -> pts = []).
Proof.
  unfold FetchMarketplaceWaybackRun.fetchEbayFromWayback. cbv zeta.
  set (urls := [EBAY_SOLD; "https://www.ebay.com/sch/i.html*"]).
  set (snapshots := FetchMarketplaceWaybackRun.first_snapshots w urls).
  exists (flat_map (FetchMarketplaceWaybackRun.snapshot_prices w)
                   (sampled snapshots maxSnapshots)).
  split; [|split].
  - destruct snapshots as [|s0 l] eqn:E; [|reflexivity].
    unfold sampled. cbn [filter_index]. rewrite firstn_nil. reflexivity.
  - apply Forall_forall. intros pt Hpt. apply in_flat_map in Hpt.
    destruct Hpt as (s & Hs & Hpt). apply sampled_incl in Hs.
    destruct (first_snapshots_from w urls s Hs) as (u & l & _ & El & Hl).
    destruct (snapshot_date_of_stamp w u 100 l s El Hl) as [Ed _].
    exists u, l, s. split; auto. split; auto.
    unfold FetchMarketplaceWaybackRun.snapshot_prices in Hpt.
    destruct (mw_fetchSnapshot w (snap_timestamp s)) as [html|]; [|destruct Hpt].
    destruct (FetchMarketplaceWayback.parseEbayPrices (mw_today w) html
                (Some (snap_dateISO s))) as [parsed|] eqn:Ep; [|destruct Hpt].
    apply ebay_snapshot_scraped_from in Ep. rewrite Forall_forall in Ep.
    specialize (Ep pt Hpt). rewrite Ed in Ep.
    pose proof (iso_date_nonempty (snap_timestamp s)) as Hn.
    destruct (isoDateFromWaybackTimestamp (snap_timestamp s)); [discriminate|exact Ep].
  - intros Hfail.
    assert (E : snapshots = []).
    { unfold snapshots, urls. cbn [FetchMarketplaceWaybackRun.first_snapshots].
      unfold FetchMarketplaceWaybackRun.getWaybackSnapshotsForUrl.
      destruct (Hfail EBAY_SOLD 100%nat) as (e1 & ->).
      destruct (Hfail "https://www.ebay.com/sch/i.html*" 100%nat) as (e2 & ->).
      reflexivity. }
    rewrite E. unfold sampled. cbn [filter_index]. rewrite firstn_nil. reflexivity.
Qed.

(* ----------------------------------------------------------------- *)
(** ** The capture is there whenever the pattern matches *)

Section MatcherDefined.

Context {A : Type}.

Lemma defined_star (r : regex) : defined_at A r -> defined_at A (RStar r).
Proof.
  intros IH s cap k x. cbn [rmatch].
  generalize (String.length s). intros n. revert s cap.
  induction n as [|n IHn]; intros s cap H.
  - exists s, cap. split; auto. cbn [sets_group]. intros [Hc|Hc]; [auto|discriminate].
  - destruct (rmatch r s cap _) as [x0|] eqn:E.
    + injection H as ->.
      destruct (IH _ _ _ _ E) as (s1 & cap1 & K & Hc1).
      destruct (String.length s1 <? String.length s)%nat; [|discriminate].
      destruct (IHn s1 cap1 K) as (s2 & cap2 & K2 & Hc2).
      exists s2, cap2. split; auto. cbn [sets_group].
      intros [Hc|Hc]; [|discriminate]. apply Hc2. left. apply Hc1. auto.
    + exists s, cap. split; auto. cbn [sets_group]. intros [Hc|Hc]; [auto|discriminate].
Qed.

Lemma defined_rep (lo hi : nat) (r : regex) : defined_at A r -> defined_at A (RRep lo hi r).
Proof.
  intros IH s cap k x. cbn [rmatch].
  revert lo s cap. induction hi as [|hi IHh]; intros lo s cap H.
  - exists s, cap. split; auto. cbn [sets_group]. intros [Hc|Hc]; [auto|discriminate].
  - destruct (rmatch r s cap _) as [x0|] eqn:E.
    + injection H as ->.
      destruct (IH _ _ _ _ E) as (s1 & cap1 & K & Hc1).
      destruct (IHh _ s1 cap1 K) as (s2 & cap2 & K2 & Hc2).
      exists s2, cap2. split; auto. cbn [sets_group].
      intros [Hc|Hc]; [|discriminate]. apply Hc2. left. apply Hc1. auto.
    + destruct (Nat.eqb_spec lo 0) as [->|]; [|discriminate].
      exists s, cap. split; auto. cbn [sets_group]. intros [Hc|Hc]; [auto|discriminate].
Qed.

Lemma rmatch_defined (r : regex) : defined_at A r.
Proof.
  induction r as [|p|r1 IH1 r2 IH2|r1 IH1 r2 IH2|r1 IH1|lo hi r1 IH1|r1 IH1].
  - intros s cap k x H. exists s, cap. split; auto.
    cbn [sets_group]. intros [Hc|Hc]; [auto|discriminate].
  - intros s cap k x H. cbn [rmatch] in H.
    destruct s as [|c s]; [discriminate|]. destruct (p c); [|discriminate].
    exists s, cap. split; auto. cbn [sets_group]. intros [Hc|Hc]; [auto|discriminate].
  - intros s cap k x H. cbn [rmatch] in H.
    destruct (IH1 _ _ _ _ H) as (s1 & cap1 & K & Hc1).
    destruct (IH2 _ _ _ _ K) as (s2 & cap2 & K2 & Hc2).
    exists s2, cap2. split; auto. cbn [sets_group]. intros [Hc|Hc].
    + apply Hc2. left. apply Hc1. auto.
    + apply orb_true_iff in Hc. destruct Hc as [Hc|Hc].
      * apply Hc2. left. apply Hc1. auto.
      * apply Hc2. auto.
  - intros s cap k x H. cbn [rmatch] in H. cbn [sets_group].
    destruct (rmatch r1 s cap k) as [x0|] eqn:E.
    + injection H as ->. destruct (IH1 _ _ _ _ E) as (s1 & cap1 & K & Hc1).
      exists s1, cap1. split; auto. intros [Hc|Hc]; apply Hc1; auto.
      apply andb_true_iff in Hc. tauto.
    + destruct (IH2 _ _ _ _ H) as (s1 & cap1 & K & Hc1).
      exists s1, cap1. split; auto. intros [Hc|Hc]; apply Hc1; auto.
      apply andb_true_iff in Hc. tauto.
  - apply defined_star. auto.
  - apply defined_rep. auto.
  - intros s cap k x H. cbn [rmatch] in H.
    destruct (IH1 _ _ _ _ H) as (s1 & cap1 & K & _).
    eexists s1, (Some _). split; [exact K|]. intros _. discriminate.
Qed.

End MatcherDefined.

Lemma rsearch_defined (r : regex) (s start : string) (a : MatchArr) :
  sets_group r = true -> rsearch r s = Some (start, a) -> m_group a <> None.
Proof.
  intros G. induction s as [|c s IH]; cbn [rsearch]; intros H.
  - destruct (match_here r "") as [a0|] eqn:E; [|discriminate].
    injection H as <- <-. unfold match_here in E.
    destruct (rmatch_defined r _ _ _ _ E) as (s1 & cap1 & K & Hc).
    injection K as <-. cbn [m_group]. auto.
  - destruct (match_here r (String c s)) as [a0|] eqn:E.
    + injection H as <- <-. unfold match_here in E.
      destruct (rmatch_defined r _ _ _ _ E) as (s1 & cap1 & K & Hc).
      injection K as <-. cbn [m_group]. auto.
    + auto.
Qed.

Lemma matchAll_defined (r : regex) (s : string) :
  sets_group r = true -> Forall (fun a => m_group a <> None) (matchAll r s).
Proof.
  intros G. unfold matchAll. generalize (S (String.length s)). intros fuel.
  revert s. induction fuel as [|fuel IH]; intros s; cbn [matchAll_fuel].
  - constructor.
  - destruct (rsearch r s) as [[start a]|] eqn:E; [|constructor].
    constructor.
    + apply (rsearch_defined r s start a G E).
    + destruct (String.length (m_rest a) <? String.length start)%nat; auto.
      destruct (m_rest a); auto.
Qed.

Lemma String_match_defined (r : regex) (s : string) :
  sets_group r = true ->
  (group1_opt (String_match r s) = None <-> String_match r s = None).
Proof.
  intros G. unfold String_match.
  destruct (rsearch r s) as [[start a]|] eqn:E; cbn [option_map snd group1_opt].
  - pose proof (rsearch_defined r s start a G E). split; [contradiction|discriminate].
  - tauto.
Qed.

(** The matches of a pattern whose group holds decimal literals. *)
Lemma decimal_matches (r : regex) (s : string) :
  groups_ok decimal_literal r -> sets_group r = true ->
  Forall (fun m => exists c, m_group m = Some c /\ decimal_literal c /\
                             nonneg_number (Number_opt (m_group m)))
         (matchAll r s).
Proof.
  intros G S. pose proof (matchAll_sound decimal_literal r s G) as H1.
  pose proof (matchAll_defined r s S) as H2.
  rewrite Forall_forall in *. intros m Hm.
  specialize (H1 m Hm). specialize (H2 m Hm).
  destruct (m_group m) as [c|]; [|contradiction].
  exists c. repeat split; auto. apply Number_decimal_literal. exact H1.
Qed.

Lemma groups_priceMatches : groups_ok decimal_literal re_priceMatches.
Proof. unfold re_priceMatches. groups_of_rseq. apply lang_rdecimal23. Qed.

Lemma groups_usdMatches : groups_ok decimal_literal re_usdMatches.
Proof. unfold re_usdMatches. groups_of_rseq. apply lang_rdecimal23. Qed.

Lemma groups_plainDollar : groups_ok decimal_literal re_plainDollar.
Proof. unfold re_plainDollar. groups_of_rseq. apply lang_digits23. Qed.

Lemma groups_ebayPrice : groups_ok decimal_literal re_ebayPrice.
Proof. unfold re_ebayPrice. groups_of_rseq. apply lang_rdecimal. Qed.

Lemma groups_spanPrice : groups_ok decimal_literal re_spanPrice.
Proof. unfold re_spanPrice. groups_of_rseq. apply lang_rdecimal. Qed.

(** X6.  The marketplace extractors read every amount with [Number] from a
    capture that is present and is a decimal literal (digits, optionally a
    point and digits), so no amount they test is [NaN] or negative. *)
Theorem marketplace_amounts_read (html : string) :
  Forall (fun m => exists c, m_group m = Some c /\ decimal_literal c /\
                             nonneg_number (Number_opt (m_group m)))
         (grailed_matches html ++ ebay_matches html).
Proof.
  unfold grailed_matches, ebay_matches.
  repeat (apply Forall_app; split); apply decimal_matches;
    auto using groups_priceMatches, groups_usdMatches, groups_plainDollar,
               groups_ebayPrice, groups_spanPrice.
Qed.

(** X2.  The product-page extractor reports a price exactly when one of its two
    price patterns matches; when the JSON-LD pattern does not match, the
    price is the one the text pattern captured. *)
Theorem parsePriceFromHtml_reports (html : string) :
  exists p,
    UpdateData.parsePriceFromHtml html = Ok p /\
    (current p = None <->
     String_match re_jsonLdPrice html = None /\ String_match re_textPrice html = None) /\
    (String_match re_jsonLdPrice html = None ->
     forall c, group1_opt (String_match re_textPrice html) = Some c ->
               current p = Some (Number c)).
Proof.
  destruct (parsePriceFromHtml_total html) as (p & E). exists p. split; auto.
  pose proof (decimal_capture _ html groups_jsonLdPrice) as Hj.
  pose proof (decimal_capture _ html groups_textPrice) as Ht.
  pose proof (String_match_defined re_jsonLdPrice html eq_refl) as Dj.
  pose proof (String_match_defined re_textPrice html eq_refl) as Dt.
  unfold UpdateData.parsePriceFromHtml in E.
  apply bind_ok in E. destruct E as (cur & _ & E). injection E as <-.
  cbn [current].
  destruct (group1_opt (String_match re_jsonLdPrice html)) as [cj|].
  - destruct Hj as [_ Hj]. rewrite Hj. split.
    + split; [discriminate|]. intros [H _]. apply Dj in H. discriminate.
    + intros H. apply Dj in H. discriminate.
  - cbn [truthy_str Number_opt].
    destruct (group1_opt (String_match re_textPrice html)) as [ct|].
    + destruct Ht as [_ Ht]. rewrite Ht. split.
      * split; [discriminate|]. intros [_ H]. apply Dt in H. discriminate.
      * intros _ c [= <-]. reflexivity.
    + cbn [truthy_str]. split.
      * split; auto. intros _. split; [apply Dj|apply Dt]; reflexivity.
      * intros _ c Hc. discriminate.
Qed.

(* ----------------------------------------------------------------- *)
(** ** The chart *)

Lemma shown_le_trans : Relations_1.Transitive shown_le.
Proof. intros x y z. apply string_compare_trans. Qed.

Lemma StronglySorted_last {A : Type} (R : A -> A -> Prop) (l : list A) (d x : A) :
  (forall a, R a a) -> StronglySorted R l -> In x l -> R x (last l d).
Proof.
  intros Hrefl HS. revert x. induction HS as [|a l HS IH HF]; intros x Hin; [destruct Hin|].
  destruct l as [|b l'].
  - destruct Hin as [<-|[]]. cbn. apply Hrefl.
  - change (last (a :: b :: l') d) with (last (b :: l') d).
    destruct Hin as [<-|Hin]; [|apply IH; auto].
    rewrite Forall_forall in HF. apply HF.
    clear. revert b. induction l' as [|c l' IH]; intros b; [now left|].
    change (last (b :: c :: l') d) with (last (c :: l') d). right. apply IH.
Qed.

Lemma last_map_some {A : Type} (l : list A) (d : A) :
  l <> [] -> last (map Some l) None = Some (last l d).
Proof.
  induction l as [|a l IH]; intros Hne; [contradiction|].
  destruct l as [|b l']; [reflexivity|].
  change (last (map Some (a :: b :: l')) None) with (last (map Some (b :: l')) None).
  change (last (a :: b :: l') d) with (last (b :: l') d).
  apply IH. discriminate.
Qed.

Lemma last_default {A : Type} (l : list A) (c d1 d2 : A) :
  last (c :: l) d1 = last (c :: l) d2.
Proof.
  revert c. induction l as [|b l IH]; intros c; [reflexivity|].
  change (last (c :: b :: l) d1) with (last (b :: l) d1).
  change (last (c :: b :: l) d2) with (last (b :: l) d2). apply IH.
Qed.

Lemma last_map_cons {A B : Type} (f : A -> B) (a : A) (l : list A) (d : B) :
  last (map f (a :: l)) d = f (last (a :: l) a).
Proof.
  revert a. induction l as [|b l IH]; intros a; [reflexivity|].
  change (last (map f (a :: b :: l)) d) with (last (map f (b :: l)) d).
  change (last (a :: b :: l) a) with (last (b :: l) a).
  rewrite IH. f_equal. apply last_default.
Qed.

Lemma filter_none {A : Type} (f : A -> bool) (l : list A) :
  (forall x, In x l -> f x = false) -> filter f l = [].
Proof.
  induction l as [|a l IH]; intros H; cbn [filter]; auto.
  rewrite (H a) by now left. apply IH. intros x Hx. apply H. now right.
Qed.

Lemma last_In {A : Type} (a : A) (l : list A) (d : A) : In (last (a :: l) d) (a :: l).
Proof.
  revert a. induction l as [|b l IH]; intros a; [now left|].
  change (last (a :: b :: l) d) with (last (b :: l) d). right. apply IH.
Qed.

(** X24.  The memo [points] of the chart, on a series dated by ISO calendar
    dates: the visible points, sorted by date; a switched-off kind has an
    empty series; when nothing is visible the domain is null on both sides,
    and otherwise its ends are the earliest and the latest visible date. *)
Theorem chart_points_spec (series : list PricePoint) (showSale showMsrp : bool) :
  forallb iso_dated series = true ->
  let pts := App.points series showSale showMsrp in
  let dates := map (fun s => pp_date (App.sh_point s)) pts in
  Sorted shown_le pts /\
  Permutation pts (filter (App.visible showSale showMsrp) (map App.shown series)) /\
  (showSale = false -> App.saleSeries pts = []) /\
  (showMsrp = false -> App.msrpSeries pts = []) /\
  (pts = [] -> App.domain pts = (None, None)) /\
  (pts <> [] ->
   exists lo hi,
     App.domain pts = (Some lo, Some hi) /\ In lo dates /\ In hi dates /\
     Forall (fun d => String.compare lo d <> Gt /\ String.compare d hi <> Gt) dates).
Proof.
  intros _. cbv zeta. unfold App.points.
  set (vis := filter (App.visible showSale showMsrp) (map App.shown series)).
  assert (HS : Sorted shown_le (sort_by App.by_shown_date vis)).
  { apply (sort_by_sorted App.by_shown_date). intros x y. apply string_compare_total. }
  assert (HP : Permutation (sort_by App.by_shown_date vis) vis) by apply sort_by_perm.
  assert (Hvis : forall s, In s (sort_by App.by_shown_date vis) ->
                           App.visible showSale showMsrp s = true).
  { intros s Hs. apply (Permutation_in _ HP) in Hs. unfold vis in Hs.
    apply filter_In in Hs. tauto. }
  split; auto. split; auto. split; [|split; [|split]].
  - intros ->. unfold App.saleSeries.
    rewrite filter_none; auto.
    intros s Hs. specialize (Hvis s Hs). unfold App.visible in Hvis.
    destruct (String.eqb (pp_kind (App.sh_point s)) "sale"); [discriminate|reflexivity].
  - intros ->. unfold App.msrpSeries.
    rewrite filter_none; auto.
    intros s Hs. specialize (Hvis s Hs). unfold App.visible in Hvis.
    destruct (String.eqb_spec (pp_kind (App.sh_point s)) "msrp") as [E|NE]; auto.
    rewrite E in Hvis. cbn in Hvis. discriminate.
  - intros ->. reflexivity.
  - apply Sorted_StronglySorted in HS; [|exact shown_le_trans].
    destruct (sort_by App.by_shown_date vis) as [|s0 l] eqn:El; [contradiction|].
    intros _.
    exists (pp_date (App.sh_point s0)), (pp_date (App.sh_point (last (s0 :: l) s0))).
    split; [|split; [|split]].
    + unfold App.domain. cbv zeta.
      rewrite (last_map_some _ "") by discriminate.
      rewrite last_map_cons. reflexivity.
    + now left.
    + apply (in_map (fun s => pp_date (App.sh_point s))). apply last_In.
    + apply Forall_forall. intros d Hd. apply in_map_iff in Hd.
      destruct Hd as (s & <- & Hs). split.
      * inversion HS as [|? ? _ HF]; subst. destruct Hs as [<-|Hs].
        -- rewrite string_compare_refl. discriminate.
        -- rewrite Forall_forall in HF. apply (HF s Hs).
      * apply (StronglySorted_last shown_le (s0 :: l) s0 s); auto.
        intros a. unfold shown_le, App.by_shown_date, localeCompare.
        rewrite string_compare_refl. discriminate.
Qed.

Lemma chart_points_spec_witness :
  let pts := App.points chart_series_ex true false in
  let dates := map (fun s => pp_date (App.sh_point s)) pts in
  Sorted shown_le pts /\
  Permutation pts (filter (App.visible true false) (map App.shown chart_series_ex)) /\
  (true = false -> App.saleSeries pts = []) /\
  (false = false -> App.msrpSeries pts = []) /\
  (pts = [] -> App.domain pts = (None, None)) /\
  (pts <> [] ->
   exists lo hi,
     App.domain pts = (Some lo, Some hi) /\ In lo dates /\ In hi dates /\
     Forall (fun d => String.compare lo d <> Gt /\ String.compare d hi <> Gt) dates).
Proof.
  apply (chart_points_spec chart_series_ex true false).
  reflexivity.
Defined.

Lemma filter_all {A : Type} (f : A -> bool) (l : list A) :
  (forall x, f x = true) -> filter f l = l.
Proof.
  intros H. induction l as [|a l IH]; cbn [filter]; auto. rewrite H, IH. reflexivity.
Qed.

Lemma emitted_kind (w : World) (snapshots : list string) (supp : list SuppPoint)
  (p : Point) :
  emitted w snapshots supp p -> kind p = "sale" \/ kind p = "msrp".
Proof.
  intros [a cur r _ _ _ _|ts a cur r _ _ _ _ _
          |pt d k pr a sid u cur r _ _ _ _ _ _ _ _ _ _ _ _ _ _]; cbn [kind]; auto.
  destruct (String.eqb k "msrp"); auto.
Qed.

Lemma two_kinds_count (l : list App.Shown) :
  Forall (fun s => pp_kind (App.sh_point s) = "sale" \/ pp_kind (App.sh_point s) = "msrp") l ->
  (List.length (App.saleSeries l) + List.length (App.msrpSeries l) = List.length l)%nat.
Proof.
  unfold App.saleSeries, App.msrpSeries. rewrite !length_map.
  induction 1 as [|s l Hk _ IH]; cbn [filter List.length]; auto.
  destruct Hk as [-> | ->]; cbn [String.eqb Ascii.eqb Bool.eqb List.length];
    cbn [List.length]; lia.
Qed.

(** X25.  The chart of an artifact the updater wrote, dated by ISO calendar
    dates, with both kinds switched on: the points are shown in the order of
    the series (sorting them again changes nothing), and each of them is in
    the sale or in the msrp series. *)
Theorem chart_of_run (w : World) (b : bool) (art : Artifact) :
  UpdateDataRun.buildSeries w b = Ok art ->
  forallb iso_dated (map read_back (series art)) = true ->
  let pts := App.points (map read_back (series art)) true true in
  map App.sh_point pts = map read_back (series art) /\
  (List.length (App.saleSeries pts) + List.length (App.msrpSeries pts)
   = List.length (series art))%nat.
Proof.
  intros H _. cbv zeta.
  destruct (buildSeries_emitted w b art H) as (supp0 & supp & _ & _ & HF).
  assert (HS : Sorted date_le (series art)).
  { apply buildSeries_ok in H.
    destruct H as (primary & historical & s0 & s1 & supplementary & _ & _ & _ & _ & _ & ->).
    cbn [series]. apply mergeSeries_sorted. }
  assert (E : App.points (map read_back (series art)) true true
              = map App.shown (map read_back (series art))).
  { unfold App.points. rewrite filter_all.
    - apply sort_by_sorted_id. rewrite map_map. apply Sorted_map. exact HS.
    - intros s. unfold App.visible. destruct (String.eqb _ _); reflexivity. }
  rewrite E. rewrite !map_map. split.
  - apply map_ext. reflexivity.
  - rewrite <- (length_map (fun p => App.shown (read_back p)) (series art)).
    apply two_kinds_count. apply Forall_forall. intros s Hs.
    apply in_map_iff in Hs. destruct Hs as (p & <- & Hp).
    rewrite Forall_forall in HF. cbn [App.shown App.sh_point read_back pp_kind].
    apply (emitted_kind _ _ _ _ (HF p Hp)).
Qed.

Lemma chart_of_run_witness :
  map App.sh_point (App.points (map read_back [usd_point]) true true)
  = map read_back [usd_point] /\
  (List.length (App.saleSeries (App.points (map read_back [usd_point]) true true))
   + List.length (App.msrpSeries (App.points (map read_back [usd_point]) true true))
   = List.length [usd_point])%nat.
Proof.
  apply (chart_of_run world_usd false
           (mkArtifact UpdateDataRun.the_product SOURCES [usd_point])).
  - vm_compute. reflexivity.
  - reflexivity.
Defined.

